(** * QuantME transformation framework: matching and fragment splicing

    A shallow embedding of the matcher ([replacement/QuantMEMatcher.js]), the
    helper functions ([quantme/Utilities.js]) and the transformator
    ([quantme/replacement/QuantMETransformator.js] and its predecessor
    [replacement/QuantMETransformator.js]), followed by the properties proved
    about them.

    The code works on a diagram editor and on modules that are not part of
    the embedded files. The editor is the interface [GraphHost]; the parser of
    serialized diagrams and the attribute checker are the interfaces
    [ModelerGenerator] and [QuantMEAttributeChecker]. Functions run in a monad
    that threads the diagram of the editor, records every interaction with it
    and lets a computation throw. *)

From Stdlib Require Import String Ascii List Bool Arith Lia.
From stdpp Require Import base option list strings gmap pretty.

Local Open Scope string_scope.
Local Open Scope list_scope.
Local Open Scope nat_scope.

(** ** JavaScript strings

    A string is a sequence of code units; the embedding uses Rocq strings, one
    character per code unit in the range 0..255. *)
Module JsString.

(** The code units [String.prototype.trim] strips, within 0..255: TAB, LF,
    VT, FF, CR, SPACE and NO-BREAK SPACE. *)
Definition isWhiteSpace (c : ascii) : bool :=
  let n := nat_of_ascii c in
  existsb (Nat.eqb n) [9; 10; 11; 12; 13; 32; 160]%nat.

Fixpoint trimStart (s : string) : string :=
  match s with
  | EmptyString => EmptyString
  | String c rest => if isWhiteSpace c then trimStart rest else s
  end.

Fixpoint trimEnd (s : string) : string :=
  match s with
  | EmptyString => EmptyString
  | String c rest =>
      let rest' := trimEnd rest in
      if isWhiteSpace c && String.eqb rest' EmptyString
      then EmptyString
      else String c rest'
  end.

(** [s.trim()] *)
Definition trim (s : string) : string := trimEnd (trimStart s).

(** [s.includes(c)] for a one-character search string [c]. *)
Fixpoint includes (c : ascii) (s : string) : bool :=
  match s with
  | EmptyString => false
  | String c' rest => Ascii.eqb c' c || includes c rest
  end.

(** [s.split(c)] for a one-character separator [c]. *)
Fixpoint split (c : ascii) (s : string) : list string :=
  match s with
  | EmptyString => [EmptyString]
  | String c' rest =>
      if Ascii.eqb c' c then EmptyString :: split c rest
      else match split c rest with
           | [] => [String c' EmptyString]
           | w :: ws => String c' w :: ws
           end
  end.

(** [s.startsWith(p)] *)
Definition startsWith (p s : string) : bool := String.prefix p s.

End JsString.

(** ** Data model: elements of a BPMN definitions tree *)

(** A moddle element. [type_] is [$type]; [attrs] holds the own string-valued
    properties that are not listed as fields (the QuantME attributes, [name],
    ...); the references [sourceRef], [targetRef] and [attachedToRef] are
    represented by the [id] of the element they point to; [di] is [None] when
    the element has no diagram shape and otherwise carries the truth value of
    [di.isExpanded]; [flowElements] and [artifacts] are [None] when the property
    is undefined. Own properties of other kinds (the [incoming] and [outgoing]
    lists of a node) are left out: the code hands them to the editor
    unread. *)
#[local] Unset Elimination Schemes.
Inductive Element : Type := mkElement {
  type_ : string;
  id : string;
  attrs : gmap string string;
  sourceRef : option string;
  targetRef : option string;
  attachedToRef : option string;
  di : option bool;
  flowElements : option (list Element);
  artifacts : option (list Element)
}.
#[local] Set Elimination Schemes.

(** [element.<name>] for a QuantME attribute. *)
Definition attr (name : string) (e : Element) : option string := attrs e !! name.

Record Definitions : Type := mkDefinitions {
  rootElements : list Element
}.

(** A QuantME replacement model: detector and replacement are BPMN diagrams in
    serialized form. *)
Record QRM : Type := mkQRM {
  qrmUrl : string;
  detector : string;
  replacement : option string
}.

(** A value handed to [modeling.updateProperties]: a string, a reference to an
    element of the replacement fragment (by its id), a diagram shape entry
    ([di], with the truth value of [isExpanded]) or the business object of an
    element of the diagram. *)
Inductive PropValue (Shape : Type) : Type :=
| PString (s : string)
| PReference (ref : string)
| PDi (isExpanded : bool)
| PBusinessObject (owner : Shape).
Arguments PString {Shape} s.
Arguments PReference {Shape} ref.
Arguments PDi {Shape} isExpanded.
Arguments PBusinessObject {Shape} owner.

(** A thrown exception or a rejected promise is [None]. *)
Abbreviation Exc := option.

(** ** Utilities.js *)
Module Utilities.

(** The modeler generator ([./replacement/ModelerGenerator]) parses a
    serialized diagram; [None] is a rejected promise. *)
Class ModelerGenerator := {
  createModelerFromXml : string → Exc Definitions
}.

Fixpoint getRootProcess_loop (rootElements : list Element) : option Element :=
  match rootElements with
  | [] => None
  | e :: rest =>
      if String.eqb (type_ e) "bpmn:Process" then Some e
      else getRootProcess_loop rest
  end.

Definition getRootProcess (definitions : Definitions) : option Element :=
  getRootProcess_loop (rootElements definitions).

Definition isQuantMETask (task : Element) : bool :=
  JsString.startsWith "quantme:" (type_ task).

Definition getRootProcessFromXml `{ModelerGenerator} (xml : string)
  : Exc (option Element) :=
  bpmnModeler ← createModelerFromXml xml;
  Some (getRootProcess bpmnModeler).

(** Reading [process.flowElements] throws on an undefined process, and
    reading [flowElements.length] throws on undefined flow elements. *)
Definition getSingleFlowElement (process : option Element) : Exc (option Element) :=
  process ← process;
  flowElements ← flowElements process;
  match flowElements with
  | [e] => Some (Some e)
  | _ => Some None
  end.

Definition isFlowLikeElement (type : string) : bool :=
  String.eqb type "bpmn:SequenceFlow" || String.eqb type "bpmn:Association".

(** The keys [getPropertiesToCopy] lets through. *)
Definition copied (key : string) : bool :=
  negb (JsString.startsWith "$" key)
  && negb (String.eqb key "id")
  && negb (String.eqb key "flowElements")
  && negb (String.eqb key "artifacts").

(** The own properties of an element other than [$type], [id],
    [flowElements] and [artifacts]. *)
Definition ownProperties {Shape} (element : Element) : gmap string (PropValue Shape) :=
  from_option (λ r, {[ "sourceRef" := PReference r ]}) ∅ (sourceRef element)
  ∪ from_option (λ r, {[ "targetRef" := PReference r ]}) ∅ (targetRef element)
  ∪ from_option (λ r, {[ "attachedToRef" := PReference r ]}) ∅ (attachedToRef element)
  ∪ from_option (λ b, {[ "di" := PDi b ]}) ∅ (di element)
  ∪ (PString <$> attrs element).

Definition getPropertiesToCopy {Shape} (element : Element)
  : gmap string (PropValue Shape) :=
  filter (λ kv, copied kv.1 = true) (ownProperties element).

End Utilities.

(** ** QuantMEMatcher.js

    The matcher takes [getRootProcessFromXml], [isQuantMETask] and
    [getSingleFlowElement] from a [Utilities] module next to it; they are the
    functions of that name above. *)
Module QuantMEMatcher.
Import Utilities.

(** The loop over the comma-separated values of the detector. *)
Fixpoint matchesAnyValue (valueList : list string) (taskProperty : string) : bool :=
  match valueList with
  | [] => false
  | v :: rest =>
      if String.eqb (JsString.trim v) (JsString.trim taskProperty) then true
      else matchesAnyValue rest taskProperty
  end.

Definition matchesProperty (detectorProperty taskProperty : option string)
    (required : bool) : bool :=
  match detectorProperty with
  | None => false
  | Some d =>
      if String.eqb d "*" then true
      else match taskProperty with
           | None => negb required
           | Some t =>
               if JsString.includes "," d
               then matchesAnyValue (JsString.split "," d) t
               else String.eqb (JsString.trim d) (JsString.trim t)
           end
  end.

(** The search loop of [matchAlternativeProperties], at index [i] with
    [rest] the task properties from [i] on. [None] is the early
    [return false]. *)
Fixpoint searchAlternative (detectorProperties : list (option string)) (i : nat)
    (rest : list (option string)) (taskAlternative detectorAlternative : option string)
  : option (option string * option string) :=
  match rest with
  | [] => Some (taskAlternative, detectorAlternative)
  | Some t :: rest' =>
      match taskAlternative with
      | Some _ => None
      | None =>
          searchAlternative detectorProperties (S i) rest'
            (Some t) (mjoin (detectorProperties !! i))
      end
  | None :: rest' =>
      searchAlternative detectorProperties (S i) rest'
        taskAlternative detectorAlternative
  end.

Definition matchAlternativeProperties
    (detectorProperties taskProperties : list (option string)) : bool :=
  if negb (Nat.eqb (length detectorProperties) (length taskProperties)) then false
  else match searchAlternative detectorProperties 0 taskProperties None None with
       | None => false
       | Some (taskAlternative, detectorAlternative) =>
           matchesProperty detectorAlternative taskAlternative true
       end.

Definition matchQuantumComputationTask (detectorElement task : Element) : bool :=
  matchesProperty (attr "algorithm" detectorElement) (attr "algorithm" task) true
  && matchesProperty (attr "provider" detectorElement) (attr "provider" task) false.

Definition matchQuantumCircuitLoadingTask (detectorElement task : Element) : bool :=
  let detectorAlternatives :=
    [attr "quantumCircuit" detectorElement; attr "url" detectorElement] in
  let taskAlternatives := [attr "quantumCircuit" task; attr "url" task] in
  matchAlternativeProperties detectorAlternatives taskAlternatives.

Definition matchDataPreparationTask (detectorElement task : Element) : bool :=
  matchesProperty (attr "encodingSchema" detectorElement) (attr "encodingSchema" task) true
  && matchesProperty (attr "programmingLanguage" detectorElement)
       (attr "programmingLanguage" task) true.

Definition matchOracleExpansionTask (detectorElement task : Element) : bool :=
  let detectorAlternatives :=
    [attr "oracleCircuit" detectorElement; attr "oracleURL" detectorElement] in
  let taskAlternatives := [attr "oracleCircuit" task; attr "oracleURL" task] in
  matchesProperty (attr "oracleId" detectorElement) (attr "oracleId" task) true
  && matchesProperty (attr "programmingLanguage" detectorElement)
       (attr "programmingLanguage" task) true
  && matchAlternativeProperties detectorAlternatives taskAlternatives.

Definition matchQuantumCircuitExecutionTask (detectorElement task : Element) : bool :=
  matchesProperty (attr "provider" detectorElement) (attr "provider" task) false
  && matchesProperty (attr "qpu" detectorElement) (attr "qpu" task) false
  && matchesProperty (attr "shots" detectorElement) (attr "shots" task) false
  && matchesProperty (attr "programmingLanguage" detectorElement)
       (attr "programmingLanguage" task) true.

Definition matchReadoutErrorMitigationTask (detectorElement task : Element) : bool :=
  matchesProperty (attr "unfoldingTechnique" detectorElement)
    (attr "unfoldingTechnique" task) true
  && matchesProperty (attr "qpu" detectorElement) (attr "qpu" task) true
  && matchesProperty (attr "maxAge" detectorElement) (attr "maxAge" task) false.

Definition taskMatchesDetector (detectorElement task : Element) : bool :=
  if negb (String.eqb (type_ detectorElement) (type_ task)) then false
  else if String.eqb (type_ task) "quantme:QuantumComputationTask"
    then matchQuantumComputationTask detectorElement task
  else if String.eqb (type_ task) "quantme:QuantumCircuitLoadingTask"
    then matchQuantumCircuitLoadingTask detectorElement task
  else if String.eqb (type_ task) "quantme:DataPreparationTask"
    then matchDataPreparationTask detectorElement task
  else if String.eqb (type_ task) "quantme:OracleExpansionTask"
    then matchOracleExpansionTask detectorElement task
  else if String.eqb (type_ task) "quantme:QuantumCircuitExecutionTask"
    then matchQuantumCircuitExecutionTask detectorElement task
  else if String.eqb (type_ task) "quantme:ReadoutErrorMitigationTask"
    then matchReadoutErrorMitigationTask detectorElement task
  else false.

Definition matchesQRM `{ModelerGenerator} (qrm : QRM) (task : Element) : Exc bool :=
  rootProcess ← getRootProcessFromXml (detector qrm);
  detectorElement ← getSingleFlowElement rootProcess;
  match detectorElement with
  | None => Some false
  | Some detectorElement =>
      if negb (isQuantMETask detectorElement) then Some false
      else Some (taskMatchesDetector detectorElement task)
  end.

End QuantMEMatcher.

(** ** JavaScript objects used as maps

    The identifier map of a splice is an object created by [{}]. Its own
    properties are a finite map from names to strings. A read under a name
    that is no own property gives what the object inherits from
    [Object.prototype], and a write of a string under [__proto__] stores
    nothing: that name is an accessor of the prototype, and its setter
    ignores a value that is neither an object nor null. A write under any
    other name makes or changes an own property. *)
Module JsObject.

(** The property names of [Object.prototype]. *)
Definition prototypeNames : list string :=
  ["constructor"; "hasOwnProperty"; "isPrototypeOf"; "propertyIsEnumerable";
   "toLocaleString"; "toString"; "valueOf"; "__proto__";
   "__defineGetter__"; "__defineSetter__"; "__lookupGetter__"; "__lookupSetter__"].

(** What a read gives, and what the code hands to the element registry: a
    string, [undefined], or the member of [Object.prototype] of a name. *)
Inductive Value : Type :=
| Str (s : string)
| Undefined
| Inherited (name : string).

#[global] Instance Value_eq_dec : EqDecision Value.
Proof. solve_decision. Defined.

(** [o[key]] *)
Definition get (key : string) (o : gmap string string) : Value :=
  match o !! key with
  | Some value => Str value
  | None => if bool_decide (key ∈ prototypeNames) then Inherited key else Undefined
  end.

(** [o[key] = value] for a string [value]. *)
Definition set (key value : string) (o : gmap string string) : gmap string string :=
  if String.eqb key "__proto__" then o else <[key := value]> o.

End JsObject.

(** ** The diagram editor

    The transformator works on the editor through injected services
    ([modeling], [elementRegistry], [bpmnReplace], [bpmnjs], [eventBus],
    [bpmnFactory]) and the imported layouter and input/output handler. They
    are an interface here: the state of the editor is [Diagram], its elements
    are [Shape]s, reading is a function of the diagram and every other service
    call is a [Command] the editor performs. *)
Module Host.

Inductive Command (Shape : Type) : Type :=
| ReplaceElement (old : option Shape) (type : string)
    (** [bpmnReplace.replaceElement(old, { type })] *)
| CreateShape (type : string) (parent : option Shape)
    (** [modeling.createShape({ type }, { x: 50, y: 50 }, parent, {})] *)
| Connect (source target : option Shape) (type : string)
    (** [modeling.connect(source, target, { type })] *)
| UpdateProperties (element : Shape) (properties : gmap string (PropValue Shape))
    (** [modeling.updateProperties(element, properties)] *)
| SetExpanded (element : Shape)
    (** [element.businessObject.di.isExpanded = true] *)
| SetHost (element host : Shape)
    (** [element.host = host] *)
| AddQuantMEInputParameters (task : Element) (element : Shape)
    (** [addQuantMEInputParameters(task,
         getCamundaInputOutput(element.businessObject, bpmnFactory), bpmnFactory)] *)
| Layout (root : Element)
    (** [layout(modeling, elementRegistry, root)] *).
Arguments ReplaceElement {Shape} old type.
Arguments CreateShape {Shape} type parent.
Arguments Connect {Shape} source target type.
Arguments UpdateProperties {Shape} element properties.
Arguments SetExpanded {Shape} element.
Arguments SetHost {Shape} element host.
Arguments AddQuantMEInputParameters {Shape} task element.
Arguments Layout {Shape} root.

(** What a command gives back: the element it returns ([None] for undefined)
    with the new diagram, or an exception. *)
Inductive Reply (Diagram Shape : Type) : Type :=
| Returns (result : option Shape) (d : Diagram)
| Raises (d : Diagram).
Arguments Returns {Diagram Shape} result d.
Arguments Raises {Diagram Shape} d.

Class GraphHost : Type := {
  Diagram : Type;
  Shape : Type;
  shapeId : Shape → string;                               (** [element.id] *)
  getDefinitions : Diagram → Definitions;                 (** [bpmnjs.getDefinitions()] *)
  registryGet : JsObject.Value → Diagram → option Shape;  (** [elementRegistry.get(key)] *)
  perform : Command Shape → Diagram → Reply Diagram Shape
}.

(** One interaction with the editor, as it happened: a look into the
    element registry, a command that returned or raised, or a notification
    for the user,
    [eventBus.fire('Notification.display', { data: { ..., content } })]. *)
Inductive Event (Shape : Type) : Type :=
| Looked (key : JsObject.Value) (found : option Shape)
| Performed (c : Command Shape) (result : option Shape)
| Failed (c : Command Shape)
| Notified (content : string).
Arguments Looked {Shape} key found.
Arguments Performed {Shape} c result.
Arguments Failed {Shape} c.
Arguments Notified {Shape} content.

(** The interactions that can change the diagram. *)
Definition mutates {Shape} (ev : Event Shape) : bool :=
  match ev with
  | Looked _ _ | Notified _ => false
  | Performed _ _ | Failed _ => true
  end.

Section Monad.
Context `{GraphHost}.

(** A computation runs from a diagram and either returns a value or
    throws; both come with the diagram reached and the interactions
    made, oldest first. *)
Inductive Outcome (A : Type) : Type :=
| Normal (a : A) (d : Diagram) (trace : list (Event Shape))
| Threw (d : Diagram) (trace : list (Event Shape)).
Global Arguments Normal {A} a d trace.
Global Arguments Threw {A} d trace.

Definition M (A : Type) : Type := Diagram → Outcome A.

Definition ret {A} (a : A) : M A := λ d, Normal a d [].

Definition bind {A B} (m : M A) (k : A → M B) : M B := λ d,
  match m d with
  | Normal a d1 t1 =>
      match k a d1 with
      | Normal b d2 t2 => Normal b d2 (t1 ++ t2)
      | Threw d2 t2 => Threw d2 (t1 ++ t2)
      end
  | Threw d1 t1 => Threw d1 t1
  end.

(** A [TypeError]. *)
Definition throw {A} : M A := λ d, Threw d [].

(** Reading a property of [v] throws when [v] is undefined. *)
Definition defined {A} (v : option A) : M A :=
  match v with Some a => ret a | None => throw end.

(** Awaiting a promise. *)
Definition await {A} (p : Exc A) : M A := defined p.

Definition definitions : M Definitions := λ d, Normal (getDefinitions d) d [].

Definition lookup (key : JsObject.Value) : M (option Shape) := λ d,
  let found := registryGet key d in Normal found d [Looked key found].

Definition call (c : Command Shape) : M (option Shape) := λ d,
  match perform c d with
  | Returns result d' => Normal result d' [Performed c result]
  | Raises d' => Threw d' [Failed c]
  end.

Definition notify (content : string) : M unit := λ d,
  Normal tt d [Notified content].

(** The value, the diagram and the interactions of an outcome. *)
Definition valueOf {A} (o : Outcome A) : option A :=
  match o with Normal a _ _ => Some a | Threw _ _ => None end.
Definition diagramOf {A} (o : Outcome A) : Diagram :=
  match o with Normal _ d _ | Threw d _ => d end.
Definition traceOf {A} (o : Outcome A) : list (Event Shape) :=
  match o with Normal _ _ t | Threw _ t => t end.

End Monad.

#[global] Instance M_ret `{GraphHost} : MRet M := @ret _.
#[global] Instance M_bind `{GraphHost} : MBind M := λ A B k m, bind m k.

End Host.

(** ** quantme/replacement/QuantMETransformator.js *)
Module QuantMETransformator.
Import Utilities QuantMEMatcher Host.

(** [./QuantMEAttributeChecker] *)
Class QuantMEAttributeChecker := {
  requiredAttributesAvailable : Element → bool
}.

(** The object [{ success, idMap, element }] that [insertShape] and
    [insertChildElements] return. *)
Module Result.
Record t (Shape : Type) : Type := mk {
  success : bool;
  idMap : gmap string string;
  element : Shape
}.
Arguments mk {Shape} success idMap element.
Arguments success {Shape} r : rename.
Arguments idMap {Shape} r : rename.
Arguments element {Shape} r : rename.
End Result.

Section Transformator.
Context `{GraphHost} `{ModelerGenerator} `{QuantMEAttributeChecker}.

Abbreviation InsertResult := (Result.t Shape).

(** [insertShape] for one fixed [newElement]: the remaining parameters
    [parent], [idMap], [replace] and [oldElement]. Every caller passes an
    [idMap], so the [undefined] default of the source is left out. The
    [idMap] is the one object that all calls of a splice write to and return;
    it is passed on by value here, as the finite map of its own properties,
    read and written as [JsObject] says. *)
Definition Inserter : Type :=
  option Shape → gmap string string → bool → option Element → M InsertResult.

(** A child element, with [insertShape] of that child. *)
Definition Child : Type := Element * Inserter.

(** The loops over [boundaryEvents], [sequenceflows] and [artifacts]:
    [insertShape(parent, els[i], idMap, false)] for each, in order. *)
Fixpoint insertEach (parent : Shape) (els : list Child)
    (success : bool) (idMap : gmap string string) : M (bool * gmap string string) :=
  match els with
  | [] => mret (success, idMap)
  | (_, insertShape_el) :: rest =>
      result ← insertShape_el (Some parent) idMap false None;
      insertEach parent rest (success && Result.success result) (Result.idMap result)
  end.

(** The first loop of [insertChildElements]: sequence flows and boundary
    events are pushed aside, every other child is inserted at once. *)
Fixpoint insertFlowElements (parent : Shape) (flowElements : list Child)
    (success : bool) (idMap : gmap string string)
    (boundaryEvents sequenceflows : list Child)
  : M (bool * gmap string string * list Child * list Child) :=
  match flowElements with
  | [] => mret (success, idMap, boundaryEvents, sequenceflows)
  | (flowElement, insertShape_el) :: rest =>
      if String.eqb (type_ flowElement) "bpmn:SequenceFlow" then
        insertFlowElements parent rest success idMap
          boundaryEvents (sequenceflows ++ [(flowElement, insertShape_el)])
      else if String.eqb (type_ flowElement) "bpmn:BoundaryEvent" then
        insertFlowElements parent rest success idMap
          (boundaryEvents ++ [(flowElement, insertShape_el)]) sequenceflows
      else
        result ← insertShape_el (Some parent) idMap false None;
        insertFlowElements parent rest
          (success && Result.success result) (Result.idMap result)
          boundaryEvents sequenceflows
  end.

Definition insertChildElements (parent : Shape) (flowElements : option (list Child))
    (idMap : gmap string string) : M InsertResult :=
  match flowElements with
  | Some flowElements =>
      '(success, idMap, boundaryEvents, sequenceflows) ←
        insertFlowElements parent flowElements true idMap [] [];
      '(success, idMap) ← insertEach parent boundaryEvents success idMap;
      '(success, idMap) ← insertEach parent sequenceflows success idMap;
      mret (Result.mk success idMap parent)
  | None => mret (Result.mk true idMap parent)
  end.

(** The first part of [insertShape], lines 188 to 230: the new element is
    brought into the diagram, its id is recorded in [idMap], and it is
    expanded, attached to its host and given its properties. It returns the
    element and [idMap]. *)
Definition insertElement (newElement : Element) (parent : option Shape)
    (idMap : gmap string string) (replace : bool) (oldElement : option Element)
  : M (Shape * gmap string string) :=
  element ←
    (if negb (isFlowLikeElement (type_ newElement)) then
       if replace then
         oldElement ← defined oldElement;
         old ← lookup (JsObject.Str (id oldElement));
         call (ReplaceElement old (type_ newElement))
       else
         call (CreateShape (type_ newElement) parent)
     else
       sourceRef ← defined (sourceRef newElement);
       sourceElement ← lookup (JsObject.get sourceRef idMap);
       targetRef ← defined (targetRef newElement);
       targetElement ← lookup (JsObject.get targetRef idMap);
       call (Connect sourceElement targetElement (type_ newElement)));
  element ← defined element;
  let idMap := JsObject.set (id newElement) (shapeId element) idMap in
  _ ← (if String.eqb (type_ newElement) "bpmn:SubProcess" then
         match di newElement with
         | Some true =>
             shape ← lookup (JsObject.Str (shapeId element));
             shape ← defined shape;
             call (SetExpanded shape)
         | _ => mret None
         end
       else mret None);
  _ ← (if String.eqb (type_ newElement) "bpmn:BoundaryEvent" then
         attachedToRef ← defined (attachedToRef newElement);
         hostElement ← lookup (JsObject.get attachedToRef idMap);
         hostElement ← defined hostElement;
         _ ← call (UpdateProperties element
                     {[ "attachedToRef" := PBusinessObject hostElement ]});
         call (SetHost element hostElement)
       else mret None);
  _ ← call (UpdateProperties element (getPropertiesToCopy newElement));
  mret (element, idMap).

(** The body of [insertShape]; [flowElements] and [artifacts] are those of
    [newElement], each child paired with its own [insertShape]. *)
Definition insertShape_body (newElement : Element)
    (flowElements artifacts : option (list Child)) : Inserter :=
  λ parent idMap replace oldElement,
  '(element, idMap) ← insertElement newElement parent idMap replace oldElement;
  resultTuple ← insertChildElements element flowElements idMap;
  '(success, idMap) ←
    insertEach element (default [] artifacts)
      (Result.success resultTuple) (Result.idMap resultTuple);
  mret (Result.mk success idMap element).

(** [insertShape(parent, newElement, idMap, replace, oldElement)], by
    recursion on the tree of [newElement]. *)
Fixpoint insertShape (newElement : Element) : Inserter :=
  insertShape_body newElement
    (map (λ child, (child, insertShape child)) <$> flowElements newElement)
    (map (λ child, (child, insertShape child)) <$> artifacts newElement).

(** The children that [insertShape] hands to its body. *)
Definition withInsertShape (els : list Element) : list Child :=
  map (λ child, (child, insertShape child)) els.

(** [replaceByFragment(task, parent, replacement)]; [!replacement] holds
    for undefined and for the empty string. *)
Definition replaceByFragment (task : Element) (parent : option Shape)
    (replacement : option string) : M bool :=
  match replacement with
  | None | Some "" => mret false
  | Some replacement =>
      replacementProcess ← await (getRootProcessFromXml replacement);
      replacementElement ← await (getSingleFlowElement replacementProcess);
      match replacementElement with
      | None => mret false
      | Some replacementElement =>
          result ← insertShape replacementElement parent ∅ true (Some task);
          _ ← call (AddQuantMEInputParameters task (Result.element result));
          mret (Result.success result)
      end
  end.

(** An entry [{ task, parent }] of the list [getQuantMETasks] builds;
    [startReplacementProcess] adds [qrm] to it. *)
Record ReplacementTask : Type := mkReplacementTask {
  task : Element;
  parent : option Shape;
  qrm : option QRM
}.

(** The loop of [getQuantMETasks(process)] over the flow elements, with
    [getQuantMETasks] itself as [getQuantMETasks_rec]. [$type] is a string
    here, so the guard [flowElement.$type &&] adds nothing to the test
    that follows it. *)
Fixpoint getQuantMETasks_loop
    (getQuantMETasks_rec : Element → M (list ReplacementTask))
    (processBo : option Shape) (flowElements : list Element)
    (quantmeTasks : list ReplacementTask) : M (list ReplacementTask) :=
  match flowElements with
  | [] => mret quantmeTasks
  | flowElement :: rest =>
      let quantmeTasks :=
        if JsString.startsWith "quantme:" (type_ flowElement)
        then quantmeTasks ++ [mkReplacementTask flowElement processBo None]
        else quantmeTasks in
      if String.eqb (type_ flowElement) "bpmn:SubProcess" then
        nested ← getQuantMETasks_rec flowElement;
        getQuantMETasks_loop getQuantMETasks_rec processBo rest
          (quantmeTasks ++ nested)
      else
        getQuantMETasks_loop getQuantMETasks_rec processBo rest quantmeTasks
  end.

(** [getQuantMETasks(process)]; reading [flowElements.length] throws on
    undefined flow elements. *)
Fixpoint getQuantMETasks (process : Element) : M (list ReplacementTask) :=
  processBo ← lookup (JsObject.Str (id process));
  match flowElements process with
  | None => throw
  | Some flowElements =>
      getQuantMETasks_loop getQuantMETasks processBo flowElements []
  end.

(** [getMatchingQRM(task)], on the value [QRMs] of the module variable; the
    variable is taken not to change while a transformation runs. *)
Fixpoint getMatchingQRM (QRMs : list QRM) (task : Element) : Exc (option QRM) :=
  match QRMs with
  | [] => Some None
  | qrm :: rest =>
      matches ← matchesQRM qrm task;
      if matches : bool then Some (Some qrm) else getMatchingQRM rest task
  end.

(** How [startReplacementProcess] came to its end: the four [return]
    statements and the end of the function. *)
Inductive Exit : Type :=
| NoRootProcess
| NoQuantMETasks
| Unreplaceable (taskId : string)
| ReplacementFailed (taskId : string)
| Transformed.

Definition notification (taskId : string) : string :=
  "Unable to replace task with id '" +:+ taskId +:+ "' by suited QRM".

(** The first loop of [startReplacementProcess]: a QRM for every task, or
    the id of the first task without one. *)
Fixpoint findReplacementModels (QRMs : list QRM)
    (replacementTasks : list ReplacementTask) : M (string + list ReplacementTask) :=
  match replacementTasks with
  | [] => mret (inr [])
  | replacementTask :: rest =>
      qrm ← await (getMatchingQRM QRMs (task replacementTask));
      match qrm with
      | None =>
          _ ← notify (notification (id (task replacementTask)));
          mret (inl (id (task replacementTask)))
      | Some _ =>
          let replacementTask :=
            mkReplacementTask (task replacementTask) (parent replacementTask) qrm in
          others ← findReplacementModels QRMs rest;
          mret (match others with
                | inl taskId => inl taskId
                | inr others => inr (replacementTask :: others)
                end)
      end
  end.

(** The second loop: the id of the first task whose replacement failed. *)
Fixpoint replaceTasks (replacementTasks : list ReplacementTask) : M (option string) :=
  match replacementTasks with
  | [] => mret None
  | replacementTask :: rest =>
      qrm ← defined (qrm replacementTask);
      replacementSuccess ←
        replaceByFragment (task replacementTask) (parent replacementTask)
          (replacement qrm);
      if replacementSuccess : bool then replaceTasks rest
      else mret (Some (id (task replacementTask)))
  end.

Definition startReplacementProcess (QRMs : list QRM) : M Exit :=
  definitions ← definitions;
  match getRootProcess definitions with
  | None => mret NoRootProcess
  | Some rootElement =>
      replacementTasks ← getQuantMETasks rootElement;
      match replacementTasks with
      | [] => mret NoQuantMETasks
      | _ :: _ =>
          resolved ← findReplacementModels QRMs replacementTasks;
          match resolved with
          | inl taskId => mret (Unreplaceable taskId)
          | inr replacementTasks =>
              failed ← replaceTasks replacementTasks;
              match failed with
              | Some taskId => mret (ReplacementFailed taskId)
              | None =>
                  _ ← call (Layout rootElement);
                  mret Transformed
              end
          end
      end
  end.

(** [isReplaceable(element)], on the current value [QRMs] of the module
    variable. *)
Fixpoint searchSuitedQRM (QRMs : list QRM) (element : Element) : Exc bool :=
  match QRMs with
  | [] => Some true
  | qrm :: rest =>
      matches ← matchesQRM qrm element;
      if matches : bool then Some true else searchSuitedQRM rest element
  end.

Definition isReplaceable (QRMs : list QRM) (element : Element) : Exc bool :=
  if negb (requiredAttributesAvailable element) then Some false
  else searchSuitedQRM QRMs element.

End Transformator.
End QuantMETransformator.

(** ** replacement/QuantMETransformator.js, the predecessor *)
Module Predecessor.
Import QuantMETransformator.

Definition isReplaceable `{QuantMEAttributeChecker} (element : Element) : bool :=
  if negb (requiredAttributesAvailable element) then false
  else true.

(** The loop of the predecessor's [getQuantMETasks(process)]: the flow
    elements of the process itself, without a look into sub-processes. *)
Fixpoint getQuantMETasks_loop (flowElements quantmeTasks : list Element) : list Element :=
  match flowElements with
  | [] => quantmeTasks
  | flowElement :: rest =>
      if JsString.startsWith "quantme:" (type_ flowElement)
      then getQuantMETasks_loop rest (quantmeTasks ++ [flowElement])
      else getQuantMETasks_loop rest quantmeTasks
  end.

Definition getQuantMETasks (process : Element) : Exc (list Element) :=
  flowElements ← flowElements process;
  Some (getQuantMETasks_loop flowElements []).

Section Replacement.
Import Utilities QuantMEMatcher Host.
Context `{GraphHost} `{ModelerGenerator}.

(** The predecessor's [replaceQuantMETask(task, parent)], awaited: at the
    first matching QRM it creates a shape and returns true. *)
Fixpoint replaceQuantMETask (QRMs : list QRM) (task : Element) (parent : option Shape)
  : M bool :=
  match QRMs with
  | [] => mret false
  | qrm :: rest =>
      matches ← await (matchesQRM qrm task);
      if matches : bool then
        _ ← call (CreateShape "quantme:ReadoutErrorMitigationTask" parent);
        mret true
      else replaceQuantMETask rest task parent
  end.

End Replacement.

End Predecessor.

(** ** QuantME-ClientPlugin/client/QuantMEClient.js *)
Module QuantMEClient.

(** An entry of the contents listing of a repository: [item.type] and
    [item.url]. *)
Record Item : Type := mkItem {
  itemType : string;
  url : string
}.

(** [Fetch(address)] followed by [response.json()]; [None] is a rejected
    promise. *)
Class Fetch := {
  fetchJson : string → Exc (list Item)
}.

Fixpoint getFoldersInRepository_loop (contents : list Item) (directoryURLs : list string)
  : list string :=
  match contents with
  | [] => directoryURLs
  | item :: rest =>
      if String.eqb (itemType item) "dir"
      then getFoldersInRepository_loop rest (directoryURLs ++ [url item])
      else getFoldersInRepository_loop rest directoryURLs
  end.

Definition getFoldersInRepository `{Fetch} (userName repoName : string)
  : Exc (list string) :=
  contents ←
    fetchJson ("https://api.github.com/repos/" +:+ userName +:+ "/" +:+ repoName
               +:+ "/contents/?ref=HEAD");
  Some (getFoldersInRepository_loop contents []).

End QuantMEClient.

(** ** Vocabulary of the properties *)
Module Vocabulary.

Import Utilities Host QuantMETransformator.

(** The number of defined positions of a sequence of alternative values. *)
Definition definedCount (values : list (option string)) : nat :=
  length (filter is_Some values).

(** The three kinds of children [insertChildElements] tells apart. *)
Definition sequenceFlowsOf (els : list Element) : list Element :=
  filter (λ el, type_ el = "bpmn:SequenceFlow") els.
Definition boundaryEventsOf (els : list Element) : list Element :=
  filter (λ el, type_ el ≠ "bpmn:SequenceFlow" ∧ type_ el = "bpmn:BoundaryEvent") els.
Definition plainOf (els : list Element) : list Element :=
  filter (λ el, type_ el ≠ "bpmn:SequenceFlow" ∧ type_ el ≠ "bpmn:BoundaryEvent") els.

(** The children and artifacts of an element in the order of their
    insertion. *)
Definition insertionOrder (flowElements : list Element) : list Element :=
  plainOf flowElements ++ boundaryEventsOf flowElements ++ sequenceFlowsOf flowElements.
Definition insertedBelow (el : Element) : list Element :=
  insertionOrder (default [] (flowElements el)) ++ default [] (artifacts el).

(** The ids of an element and of everything below it. *)
Fixpoint fragmentIds (el : Element) : list string :=
  id el
  :: match flowElements el with
     | Some els => flat_map fragmentIds els
     | None => []
     end
  ++ match artifacts el with
     | Some els => flat_map fragmentIds els
     | None => []
     end.

(** What calls of [insertShape] on elements with the ids [ids] leave in the
    identifier map: the own properties under other names are as before,
    every one of [ids] is the name of an own property, except [__proto__],
    and under [__proto__] nothing is stored. *)
Definition records (idMap idMap' : gmap string string) (ids : list string) : Prop :=
  (∀ key, key ∉ ids → idMap' !! key = idMap !! key)
  ∧ (∀ key, key ∈ ids → key ≠ "__proto__" → is_Some (idMap' !! key))
  ∧ idMap' !! "__proto__" = idMap !! "__proto__".

(** A plain child: no sequence flow, no boundary event, and nothing else
    that [insertShape] draws as a connection. *)
Definition plain (el : Element) : Prop :=
  type_ el ≠ "bpmn:SequenceFlow" ∧ type_ el ≠ "bpmn:BoundaryEvent"
  ∧ isFlowLikeElement (type_ el) = false.

(** The walk of [getQuantMETasks]: through the flow elements of the
    container and of the flow elements of type [bpmn:SubProcess], collecting
    every QuantME node together with the container that holds it, in
    pre-order. *)
Fixpoint preorder (container : Element) : list (Element * Element) :=
  match flowElements container with
  | Some els =>
      flat_map
        (λ el,
           (if isQuantMETask el then [(el, container)] else [])
           ++ (if String.eqb (type_ el) "bpmn:SubProcess" then preorder el else []))
        els
  | None => []
  end.

(** Discovery as the specification words it: a walk through the graph and
    through every nested container, a node that has children, whatever its
    type, collecting every QuantME node together with the container that
    holds it, in pre-order. *)
Fixpoint walk (container : Element) : list (Element * Element) :=
  match flowElements container with
  | Some els =>
      flat_map
        (λ el, (if isQuantMETask el then [(el, container)] else []) ++ walk el)
        els
  | None => []
  end.

(** [heldIn graph container task]: the QuantME node [task] is a child of
    [container], which is [graph] or a container nested in it. *)
Inductive heldIn : Element → Element → Element → Prop :=
| heldIn_here container els task :
    flowElements container = Some els → task ∈ els →
    isQuantMETask task = true →
    heldIn container container task
| heldIn_nested graph els inner container task :
    flowElements graph = Some els → inner ∈ els →
    heldIn inner container task →
    heldIn graph container task.

(** The QuantME nodes of the graph are held in sub-processes: [container]
    and every node of type [bpmn:SubProcess] reached from it through such
    nodes carry flow elements, and a child of another type holds no QuantME
    node, neither itself nor in a container nested in it. *)
Fixpoint tasksInSubProcesses (container : Element) : bool :=
  match flowElements container with
  | Some els =>
      forallb
        (λ el,
           if String.eqb (type_ el) "bpmn:SubProcess" then tasksInSubProcesses el
           else match walk el with [] => true | _ :: _ => false end)
        els
  | None => false
  end.

(** The flow elements of the container and of the sub-processes nested in
    it are present. *)
Fixpoint containersPresent (container : Element) : bool :=
  match flowElements container with
  | Some els =>
      forallb
        (λ el,
           if String.eqb (type_ el) "bpmn:SubProcess" then containersPresent el
           else true)
        els
  | None => false
  end.

(** [P] holds for the elements of a list that may be undefined. *)
Definition ForallBelow (P : Element → Prop) (els : option (list Element)) : Prop :=
  match els with Some els => Forall P els | None => True end.

(** What [getQuantMETasks] finds in one flow element. *)
Definition foundIn (container el : Element) : list (Element * Element) :=
  (if isQuantMETask el then [(el, container)] else [])
  ++ (if String.eqb (type_ el) "bpmn:SubProcess" then preorder el else []).

Section Insertion.
Context `{GraphHost} `{ModelerGenerator}.

(** The entry of the task list for a QuantME node and its container. *)
Definition entry (d : Diagram) (found : Element * Element) : ReplacementTask :=
  mkReplacementTask found.1 (registryGet (JsObject.Str (id found.2)) d) None.

(** No interaction of the trace can have changed the diagram. *)
Definition quiet (trace : list (Event Shape)) : Prop :=
  Forall (λ ev, mutates ev = false) trace.

(** The children of an element in the order in which [insertChildElements]
    calls their inserters. *)
Definition childrenInOrder (children : list Child) : list Child :=
  filter (λ c, type_ c.1 ≠ "bpmn:SequenceFlow" ∧ type_ c.1 ≠ "bpmn:BoundaryEvent")
    children
  ++ filter (λ c, type_ c.1 ≠ "bpmn:SequenceFlow" ∧ type_ c.1 = "bpmn:BoundaryEvent")
       children
  ++ filter (λ c, type_ c.1 = "bpmn:SequenceFlow") children.

(** [calledInTurn parent children idMap d results idMap' d' trace]: the
    inserters of [children], called one after the other with [parent], the
    [idMap] that the call before returned and no replacement, starting with
    [idMap] on the diagram [d], return [results] and end with [idMap'] on
    the diagram [d']. *)
Inductive calledInTurn (parent : Shape)
  : list Child → gmap string string → Diagram →
    list (Result.t Shape) → gmap string string → Diagram →
    list (Event Shape) → Prop :=
| called_none idMap d :
    calledInTurn parent [] idMap d [] idMap d []
| called_next child children idMap d result d1 t1 results idMap' d' t2 :
    child.2 (Some parent) idMap false None d = Normal result d1 t1 →
    calledInTurn parent children (Result.idMap result) d1 results idMap' d' t2 →
    calledInTurn parent (child :: children) idMap d (result :: results) idMap' d'
      (t1 ++ t2).

(** [insertedInTurn parent els idMap d results idMap' d' trace]: calling
    [insertShape(parent, el, idMap, false)] for the elements of [els] one
    after the other, each with the [idMap] the call before it returned,
    starting with [idMap] on the diagram [d], returns [results] and ends
    with [idMap'] on the diagram [d']. *)
Inductive insertedInTurn (parent : Shape)
  : list Element → gmap string string → Diagram →
    list (Result.t Shape) → gmap string string → Diagram →
    list (Event Shape) → Prop :=
| inserted_none idMap d :
    insertedInTurn parent [] idMap d [] idMap d []
| inserted_next el els idMap d result d1 t1 results idMap' d' t2 :
    insertShape el (Some parent) idMap false None d = Normal result d1 t1 →
    insertedInTurn parent els (Result.idMap result) d1 results idMap' d' t2 →
    insertedInTurn parent (el :: els) idMap d (result :: results) idMap' d' (t1 ++ t2).

(** [insertedBy el parent idMap replace oldElement d x trace]: the call
    that brought the element [x] for [el] into the diagram [d], at the
    head of [trace]. A flow-like element is a connection between what the
    registry holds under the ids that [idMap] gives for its two ends;
    otherwise [x] replaces [oldElement] or is a new shape under
    [parent]. *)
Definition insertedBy (el : Element) (parent : option Shape) (idMap : gmap string string)
    (replace : bool) (oldElement : option Element) (d : Diagram)
    (x : Shape) (trace : list (Event Shape)) : Prop :=
  if isFlowLikeElement (type_ el) then
    ∃ source target d1 rest,
      sourceRef el = Some source ∧ targetRef el = Some target ∧
      let sourceElement := registryGet (JsObject.get source idMap) d in
      let targetElement := registryGet (JsObject.get target idMap) d in
      perform (Connect sourceElement targetElement (type_ el)) d = Returns (Some x) d1 ∧
      trace = Looked (JsObject.get source idMap) sourceElement
              :: Looked (JsObject.get target idMap) targetElement
              :: Performed (Connect sourceElement targetElement (type_ el)) (Some x)
              :: rest
  else if replace then
    ∃ old d1 rest,
      oldElement = Some old ∧
      let oldShape := registryGet (JsObject.Str (id old)) d in
      perform (ReplaceElement oldShape (type_ el)) d = Returns (Some x) d1 ∧
      trace = Looked (JsObject.Str (id old)) oldShape
              :: Performed (ReplaceElement oldShape (type_ el)) (Some x) :: rest
  else
    ∃ d1 rest,
      perform (CreateShape (type_ el) parent) d = Returns (Some x) d1 ∧
      trace = Performed (CreateShape (type_ el) parent) (Some x) :: rest.


(** [attachesToInserted el parent idMap replace oldElement d result trace
    host event]: in the call of [insertShape] for [el] that returned
    [result] with [trace], the boundary event [event] was inserted after
    what is listed before it, its host [host] among these. A shape was
    created for the event; the identifier map gave, under the id of the
    host, the id of the element that the call for the host had returned;
    what the registry held under this id was made the host of the new
    shape; and the editor was then handed, for the new shape, the
    properties copied from [event], with the reference to the host of the
    fragment among them. *)
Definition attachesToInserted (el : Element) (parent : option Shape)
    (idMap : gmap string string) (replace : bool) (oldElement : option Element)
    (d : Diagram) (result : Result.t Shape) (trace : list (Event Shape))
    (host event : Element) : Prop :=
  let x := Result.element result in
  let idMap0 := JsObject.set (id el) (shapeId x) idMap in
  ∃ d0 t0 before after results idMap1 d1 t1 i newHost
    created d2 hostElement attached d3 hosted d4 updated d5 rest,
    insertElement el parent idMap replace oldElement d = Normal (x, idMap0) d0 t0
    ∧ insertedBelow el = before ++ event :: after
    ∧ insertedInTurn x before idMap0 d0 results idMap1 d1 t1
    ∧ before !! i = Some host ∧ results !! i = Some newHost
    ∧ JsObject.get (id host) (JsObject.set (id event) (shapeId created) idMap1)
      = JsObject.Str (shapeId (Result.element newHost))
    ∧ let hostKey := JsObject.Str (shapeId (Result.element newHost)) in
      let attachment : gmap string (PropValue Shape) :=
        {[ "attachedToRef" := PBusinessObject hostElement ]} in
      perform (CreateShape (type_ event) (Some x)) d1 = Returns (Some created) d2
      ∧ registryGet hostKey d2 = Some hostElement
      ∧ perform (UpdateProperties created attachment) d2 = Returns attached d3
      ∧ perform (SetHost created hostElement) d3 = Returns hosted d4
      ∧ perform (UpdateProperties created (getPropertiesToCopy event)) d4
        = Returns updated d5
      ∧ getPropertiesToCopy (Shape := Shape) event !! "attachedToRef"
        = Some (PReference (id host))
      ∧ trace
        = t0 ++ t1
          ++ [Performed (CreateShape (type_ event) (Some x)) (Some created);
              Looked hostKey (Some hostElement);
              Performed (UpdateProperties created attachment) attached;
              Performed (SetHost created hostElement) hosted;
              Performed (UpdateProperties created (getPropertiesToCopy event))
                updated]
          ++ rest
      ∧ JsObject.get (id host) (Result.idMap result) = hostKey.

(** The property of one call that the induction on the tree carries. *)
Definition sound (el : Element) : Prop :=
  ∀ parent idMap replace oldElement d result d' t,
    insertShape el parent idMap replace oldElement d = Normal result d' t →
    Result.success result = true
    ∧ records idMap (Result.idMap result) (fragmentIds el).

(** [getQuantMETasks] on an element whose containers are present: it returns
    the pre-order list and changes nothing. *)
Definition discovers (el : Element) : Prop :=
  containersPresent el = true →
  ∀ d, ∃ trace,
    getQuantMETasks el d = Normal (map (entry d) (preorder el)) d trace ∧ quiet trace.

(** A computation that leaves the diagram alone, whether it returns or
    throws. *)
Definition silent {A} (m : M A) (d : Diagram) : Prop :=
  diagramOf (m d) = d ∧ quiet (traceOf (m d)).

(** The task has a matching QRM. *)
Definition resolves (QRMs : list QRM) (replacementTask : ReplacementTask) : Prop :=
  ∃ qrm, getMatchingQRM QRMs (task replacementTask) = Some (Some qrm).

End Insertion.

End Vocabulary.

(** ** A small editor, a template library and builders for elements, to run
    the functions above on examples *)
Module Fixture.
Import Utilities Host QuantMETransformator.

(** Shapes are their ids. The diagram keeps the definitions, the ids in the
    element registry, the connections (source, target, type) and the number
    of elements created so far. *)
Record diagram : Type := mkDiagram {
  current : Definitions;
  registered : list string;
  connections : list (string * string * string);
  created : nat
}.

Definition freshId (d : diagram) : string := "Element_" +:+ pretty (created d).

Definition get (key : JsObject.Value) (d : diagram) : option string :=
  match key with
  | JsObject.Str k => if bool_decide (k ∈ registered d) then Some k else None
  | _ => None
  end.

(** Shapes are created, replaced and connected under fresh ids; a
    replacement or a connection with an undefined end returns undefined;
    the other commands return nothing and leave the diagram as it is. *)
Definition run (c : Command string) (d : diagram) : Reply diagram string :=
  match c with
  | CreateShape _ _ =>
      Returns (Some (freshId d))
        (mkDiagram (current d) (registered d ++ [freshId d]) (connections d) (S (created d)))
  | ReplaceElement (Some old) _ =>
      Returns (Some (freshId d))
        (mkDiagram (current d)
           (filter (λ i, i ≠ old) (registered d) ++ [freshId d])
           (connections d) (S (created d)))
  | Connect (Some source) (Some target) type =>
      Returns (Some (freshId d))
        (mkDiagram (current d) (registered d ++ [freshId d])
           (connections d ++ [(source, target, type)]) (S (created d)))
  | ReplaceElement None _ | Connect _ _ _ => Returns None d
  | _ => Returns None d
  end.

Definition editor : GraphHost :=
  {| Diagram := diagram; Shape := string; shapeId := λ s, s;
     getDefinitions := current; registryGet := get; perform := run |}.

(** The same editor, except that it connects whatever it is given. *)
Definition runLenient (c : Command string) (d : diagram) : Reply diagram string :=
  match c with
  | Connect source target type =>
      Returns (Some (freshId d))
        (mkDiagram (current d) (registered d ++ [freshId d])
           (connections d ++ [(default "" source, default "" target, type)])
           (S (created d)))
  | _ => run c d
  end.

Definition lenientEditor : GraphHost :=
  {| Diagram := diagram; Shape := string; shapeId := λ s, s;
     getDefinitions := current; registryGet := get; perform := runLenient |}.

(** A modeler generator that knows the serialized diagrams of a table. *)
Definition library (table : list (string * Definitions)) : ModelerGenerator :=
  {| createModelerFromXml := λ xml,
       snd <$> List.find (λ entry, String.eqb entry.1 xml) table |}.

Definition allAvailable : QuantMEAttributeChecker :=
  {| requiredAttributesAvailable := λ _, true |}.

Definition node (type id : string) (attributes : list (string * string)) : Element :=
  mkElement type id (list_to_map attributes) None None None None None None.

Definition sequenceFlow (id source target : string) : Element :=
  mkElement "bpmn:SequenceFlow" id ∅ (Some source) (Some target) None None None None.

Definition container (type id : string) (children : list Element) : Element :=
  mkElement type id ∅ None None None None (Some children) None.

Definition process (children : list Element) : Definitions :=
  mkDefinitions [container "bpmn:Process" "Process_1" children].

(** An editor state showing [children] in its root process, with the
    process and everything in it registered under its id. *)
Definition opened (children : list Element) : diagram :=
  mkDiagram (process children)
    ("Process_1" :: flat_map Vocabulary.fragmentIds children) [] 0.

(** The task and the two QRMs of the resolver example: both detectors are
    of the kind of the task, the first accepts the algorithm ["x"] and the
    second does not. *)
Definition taskT : Element :=
  node "quantme:QuantumComputationTask" "Task_T" [("algorithm", "x")].
Definition Tpl1 : QRM := mkQRM "qrm1" "detector1" (Some "replacement1").
Definition Tpl2 : QRM := mkQRM "qrm2" "detector2" (Some "replacement2").
Definition templates : ModelerGenerator :=
  library
    [("detector1", process [node "quantme:QuantumComputationTask" "Task_1"
                              [("algorithm", "x,y"); ("provider", "*")]]);
     ("detector2", process [node "quantme:QuantumComputationTask" "Task_1"
                              [("algorithm", "z"); ("provider", "*")]])].


(** The task [taskT] two sub-processes deep. *)
Definition innerSubProcess : Element := container "bpmn:SubProcess" "Sub_2" [taskT].
Definition outerSubProcess : Element :=
  container "bpmn:SubProcess" "Sub_1" [innerSubProcess].
Definition nestedProcess : Element := container "bpmn:Process" "Process_1" [outerSubProcess].

(** A replacement fragment: a sub-process with a sequence flow between its
    two tasks, the flow coming first. *)
Definition taskA : Element := node "bpmn:Task" "Task_A" [].
Definition taskB : Element := node "bpmn:Task" "Task_B" [].
Definition flowAB : Element := sequenceFlow "Flow_1" "Task_A" "Task_B".
Definition fragment : Element :=
  container "bpmn:SubProcess" "Sub_1" [flowAB; taskA; taskB].

(** A fragment with a sequence flow whose target is no element of it,
    followed by a sequence flow with both ends in place. *)
Definition flowAX : Element := sequenceFlow "Flow_1" "Task_A" "Task_X".
Definition flowAA : Element := sequenceFlow "Flow_2" "Task_A" "Task_A".
Definition dangling : Element :=
  container "bpmn:SubProcess" "Sub_1" [flowAX; flowAA; taskA].

Definition noResult : Result.t string := Result.mk false ∅ "".

(** The splices of the two fragments under the process of an empty diagram. *)
Definition splice : @Outcome editor (Result.t string) :=
  @insertShape editor fragment (Some "Process_1") ∅ false None (opened []).
Definition spliceDangling : @Outcome editor (Result.t string) :=
  @insertShape editor dangling (Some "Process_1") ∅ false None (opened []).
Definition spliceDanglingLenient : @Outcome lenientEditor (Result.t string) :=
  @insertShape lenientEditor dangling (Some "Process_1") ∅ false None (opened []).


(** A QuantME task in a transaction. *)
Definition transaction : Element := container "bpmn:Transaction" "Tx_1" [taskT].




(** A fragment with a boundary event: an expanded sub-process with two
    tasks, a sequence flow between them and an event on the first; the flow
    and the event come before the tasks. *)
Definition boundaryEvent : Element :=
  mkElement "bpmn:BoundaryEvent" "Event_1" ∅ None None (Some "Task_A") None None None.
Definition guarded : Element :=
  mkElement "bpmn:SubProcess" "Sub_1" ∅ None None None (Some true)
    (Some [flowAB; boundaryEvent; taskA; taskB]) None.
Definition spliceGuarded : @Outcome editor (Result.t string) :=
  @insertShape editor guarded (Some "Process_1") ∅ false None (opened []).

(** A QRM for [taskT] with this fragment as its replacement, the
    replacement of the task in a diagram that shows it, and the
    transformation of that diagram. *)
Definition Tpl3 : QRM := mkQRM "qrm3" "detector3" (Some "replacement3").
Definition fragments : ModelerGenerator :=
  library
    [("detector3", process [node "quantme:QuantumComputationTask" "Task_1"
                              [("algorithm", "x"); ("provider", "*")]]);
     ("replacement3", process [guarded])].
Definition replaced : @Outcome editor bool :=
  @replaceByFragment editor fragments taskT (Some "Process_1") (Some "replacement3")
    (opened [taskT]).
Definition transformed : @Outcome editor Exit :=
  @startReplacementProcess editor fragments [Tpl3] (opened [taskT]).

End Fixture.

(** ** Vocabulary of the further properties *)
Module Coverage.
Import Utilities QuantMEMatcher Host QuantMETransformator Vocabulary.

(** The kinds of task that [taskMatchesDetector] knows. *)
Definition supportedKinds : list string :=
  ["quantme:QuantumComputationTask"; "quantme:QuantumCircuitLoadingTask";
   "quantme:DataPreparationTask"; "quantme:OracleExpansionTask";
   "quantme:QuantumCircuitExecutionTask"; "quantme:ReadoutErrorMitigationTask"].

(** The attributes that the matcher compares one by one for a kind, each with
    the [required] flag it passes to [matchesProperty]. *)
Definition comparedAttributes (kind : string) : list (string * bool) :=
  if String.eqb kind "quantme:QuantumComputationTask" then
    [("algorithm", true); ("provider", false)]
  else if String.eqb kind "quantme:DataPreparationTask" then
    [("encodingSchema", true); ("programmingLanguage", true)]
  else if String.eqb kind "quantme:OracleExpansionTask" then
    [("oracleId", true); ("programmingLanguage", true)]
  else if String.eqb kind "quantme:QuantumCircuitExecutionTask" then
    [("provider", false); ("qpu", false); ("shots", false); ("programmingLanguage", true)]
  else if String.eqb kind "quantme:ReadoutErrorMitigationTask" then
    [("unfoldingTechnique", true); ("qpu", true); ("maxAge", false)]
  else [].

(** The attributes of a kind of which a task has to set exactly one. *)
Definition alternativeAttributes (kind : string) : list string :=
  if String.eqb kind "quantme:QuantumCircuitLoadingTask" then ["quantumCircuit"; "url"]
  else if String.eqb kind "quantme:OracleExpansionTask" then ["oracleCircuit"; "oracleURL"]
  else [].

(** The values of the attributes [names] of an element. *)
Definition attributeValues (names : list string) (el : Element) : list (option string) :=
  map (λ name, attr name el) names.

(** A string is empty or starts with a character that [trim] keeps. *)
Definition startsTrimmed (s : string) : Prop :=
  match s with
  | EmptyString => True
  | String c _ => JsString.isWhiteSpace c = false
  end.

(** What a command asks of the editor, without the shapes it names. *)
Inductive Step : Type :=
| Replaces (type : string)
| Creates (type : string)
| Connects (type : string)
| Updates
| Expands
| Attaches
| AddsInputs (task : Element)
| LaysOut.

Definition stepOf {Shape} (c : Command Shape) : Step :=
  match c with
  | ReplaceElement _ type => Replaces type
  | CreateShape type _ => Creates type
  | Connect _ _ type => Connects type
  | UpdateProperties _ _ => Updates
  | SetExpanded _ => Expands
  | SetHost _ _ => Attaches
  | AddQuantMEInputParameters task _ => AddsInputs task
  | Layout _ => LaysOut
  end.

(** The commands of a trace in their order, those that raised included. *)
Definition stepsOf {Shape} (trace : list (Event Shape)) : list Step :=
  omap (λ ev, match ev with
              | Performed c _ | Failed c => Some (stepOf c)
              | Looked _ _ | Notified _ => None
              end) trace.

(** The steps that bring an element into the diagram. *)
Definition inserts (s : Step) : bool :=
  match s with
  | Replaces _ | Creates _ | Connects _ => true
  | _ => false
  end.

(** The steps of [insertShape] for the element itself. *)
Definition ownSteps (replace : bool) (el : Element) : list Step :=
  [if isFlowLikeElement (type_ el) then Connects (type_ el)
   else if replace then Replaces (type_ el) else Creates (type_ el)]
  ++ (if String.eqb (type_ el) "bpmn:SubProcess"
      then match di el with Some true => [Expands] | _ => [] end
      else [])
  ++ (if String.eqb (type_ el) "bpmn:BoundaryEvent" then [Updates; Attaches] else [])
  ++ [Updates].

(** What belongs to the children of an element, in the order of their
    insertion. *)
Definition ordered {A} (children : list (Element * A)) : list A :=
  map snd
    (filter (λ c, type_ c.1 ≠ "bpmn:SequenceFlow" ∧ type_ c.1 ≠ "bpmn:BoundaryEvent")
       children
     ++ filter (λ c, type_ c.1 ≠ "bpmn:SequenceFlow" ∧ type_ c.1 = "bpmn:BoundaryEvent")
          children
     ++ filter (λ c, type_ c.1 = "bpmn:SequenceFlow") children).

(** The steps of a splice of the fragment [el]: those for the element, for
    its children in the order of their insertion and for its artifacts. *)
Fixpoint splicePlan (replace : bool) (el : Element) : list Step :=
  ownSteps replace el
  ++ match flowElements el with
     | Some els => concat (ordered (map (λ child, (child, splicePlan false child)) els))
     | None => []
     end
  ++ match artifacts el with
     | Some els => flat_map (splicePlan false) els
     | None => []
     end.

(** The elements below an element: its flow elements and artifacts, and
    what is below them. *)
Fixpoint below (el : Element) : list Element :=
  match flowElements el with
  | Some els => flat_map (λ child, child :: below child) els
  | None => []
  end
  ++ match artifacts el with
     | Some els => flat_map (λ child, child :: below child) els
     | None => []
     end.

Section Plans.
Context `{GraphHost} `{ModelerGenerator}.

(** [returnedFor el parent idMap replace oldElement d sub new]: in the
    course of the call [insertShape(parent, el, idMap, replace, oldElement)]
    on the diagram [d], which returned, the call of [insertShape] for the
    element [sub], which is [el] or an element below it, returned [new].
    The call for a child or artifact of [el] is the one made with the
    element inserted for [el] as its parent, with the identifier map and on
    the diagram that the calls for what is inserted before it left. *)
Inductive returnedFor
  : Element → option Shape → gmap string string → bool → option Element →
    Diagram → Element → Result.t Shape → Prop :=
| returned_own el parent idMap replace oldElement d result d' t :
    insertShape el parent idMap replace oldElement d = Normal result d' t →
    returnedFor el parent idMap replace oldElement d el result
| returned_below el parent idMap replace oldElement d result d' t d0 t0
    before child after results idMap1 d1 t1 sub new :
    insertShape el parent idMap replace oldElement d = Normal result d' t →
    insertElement el parent idMap replace oldElement d
    = Normal (Result.element result,
              JsObject.set (id el) (shapeId (Result.element result)) idMap) d0 t0 →
    insertedBelow el = before ++ child :: after →
    insertedInTurn (Result.element result) before
      (JsObject.set (id el) (shapeId (Result.element result)) idMap) d0
      results idMap1 d1 t1 →
    returnedFor child (Some (Result.element result)) idMap1 false None d1 sub new →
    returnedFor el parent idMap replace oldElement d sub new.

(** A computation that returns has made the steps of the plan; one that
    throws has made the first of them. *)
Definition follows {A} (o : Outcome A) (plan : list Step) : Prop :=
  match o with
  | Normal _ _ trace => stepsOf trace = plan
  | Threw _ trace => stepsOf trace `prefix_of` plan
  end.

(** The element of a replacement fragment: the single flow element of the
    process of the fragment. [Some None] stands for a replacement that is
    missing or empty and for a process with no or several flow elements,
    [None] for a fragment that cannot be read. *)
Definition fragmentOf (replacement : option string) : Exc (option Element) :=
  match replacement with
  | None | Some "" => Some None
  | Some replacement =>
      replacementProcess ← getRootProcessFromXml replacement;
      getSingleFlowElement replacementProcess
  end.

(** The steps that replace a task by the fragment of a QRM: the splice of
    the fragment in place of the task, and the input parameters. *)
Definition fragmentPlan (task : Element) (qrm : option QRM) : list Step :=
  match qrm with
  | Some qrm =>
      match fragmentOf (replacement qrm) with
      | Some (Some el) => splicePlan true el ++ [AddsInputs task]
      | _ => []
      end
  | None => []
  end.

(** The steps that replace a task by the fragment of its matching QRM. *)
Definition taskPlan (QRMs : list QRM) (task : Element) : list Step :=
  fragmentPlan task (default None (getMatchingQRM QRMs task)).

(** The steps of a transformation of the process [root]. *)
Definition transformationPlan (QRMs : list QRM) (root : Element) : list Step :=
  flat_map (λ found, taskPlan QRMs found.1) (preorder root) ++ [LaysOut].

End Plans.

End Coverage.

(** * Properties *)

(** ** The property matcher *)
Module MatcherProperties.
Import Utilities QuantMEMatcher Vocabulary.

Lemma matchesAnyValue_true valueList taskProperty :
  matchesAnyValue valueList taskProperty = true ↔
  ∃ v, v ∈ valueList ∧ JsString.trim v = JsString.trim taskProperty.
Proof.
  induction valueList as [|v rest IH]; simpl.
  - split; [discriminate | intros (v & Hv & _); inversion Hv].
  - destruct (String.eqb_spec (JsString.trim v) (JsString.trim taskProperty)) as [Heq|Hne].
    + split; [intros _; exists v; split; [left | done] | done].
    + rewrite IH. split.
      * intros (w & Hw & Htrim). exists w. split; [by right | done].
      * intros (w & Hw & Htrim). inversion Hw; subst; [done | eauto].
Qed.

Lemma definedCount_cons v values :
  definedCount (v :: values) =
  match v with Some _ => S (definedCount values) | None => definedCount values end.
Proof.
  unfold definedCount. destruct v as [s|].
  - rewrite filter_cons_True; [done | by eexists].
  - rewrite filter_cons_False; [done | by intros [? ?]].
Qed.

Lemma definedCount_0_lookup values j v :
  definedCount values = 0 → values !! j = Some (Some v) → False.
Proof.
  revert j; induction values as [|w values IH]; intros j Hcount Hj; [done|].
  rewrite definedCount_cons in Hcount.
  destruct j as [|j]; simpl in Hj.
  - injection Hj as ->. discriminate.
  - destruct w; [discriminate | eauto].
Qed.

(** Once the loop has run out of defined task properties it keeps what it
    has found. *)
Lemma searchAlternative_none_left detectorProperties i rest taskAlternative detectorAlternative :
  definedCount rest = 0 →
  searchAlternative detectorProperties i rest taskAlternative detectorAlternative
  = Some (taskAlternative, detectorAlternative).
Proof.
  revert i; induction rest as [|v rest IH]; intros i Hcount; [done|].
  rewrite definedCount_cons in Hcount.
  destruct v; [discriminate|]. simpl. by apply IH.
Qed.

(** A second defined task property ends the loop with [false]. *)
Lemma searchAlternative_second detectorProperties i rest t detectorAlternative :
  definedCount rest ≠ 0 →
  searchAlternative detectorProperties i rest (Some t) detectorAlternative = None.
Proof.
  revert i; induction rest as [|v rest IH]; intros i Hcount; [done|].
  rewrite definedCount_cons in Hcount.
  destruct v; simpl; [done | by apply IH].
Qed.

Lemma searchAlternative_single detectorProperties i rest j v detectorAlternative :
  definedCount rest = 1 →
  rest !! j = Some (Some v) →
  searchAlternative detectorProperties i rest None detectorAlternative
  = Some (Some v, mjoin (detectorProperties !! (i + j))).
Proof.
  revert i j; induction rest as [|w rest IH]; intros i j Hcount Hj; [done|].
  rewrite definedCount_cons in Hcount.
  destruct w as [t|]; simpl.
  - injection Hcount as Hcount.
    destruct j as [|j]; simpl in Hj.
    + injection Hj as ->. rewrite Nat.add_0_r.
      by apply searchAlternative_none_left.
    + by destruct (definedCount_0_lookup rest j v).
  - destruct j as [|j]; simpl in Hj; [done|].
    rewrite (IH (S i) j) by done.
    by replace (i + S j) with (S i + j) by lia.
Qed.

Lemma searchAlternative_many detectorProperties i rest detectorAlternative :
  2 ≤ definedCount rest →
  searchAlternative detectorProperties i rest None detectorAlternative = None.
Proof.
  revert i detectorAlternative; induction rest as [|w rest IH];
    intros i detectorAlternative Hcount; [vm_compute in Hcount; lia|].
  rewrite definedCount_cons in Hcount.
  destruct w as [t|]; simpl.
  - apply searchAlternative_second. lia.
  - by apply IH.
Qed.

(** The single-property rule on the values of the specification. *)
Example matchesProperty_undefined_detector taskProperty required :
  matchesProperty None taskProperty required = false.
Proof. reflexivity. Qed.

Example matchesProperty_list :
  matchesProperty (Some "a,b,c") (Some "b") true = true
  ∧ matchesProperty (Some "a,b,c") (Some "d") true = false
  ∧ matchesProperty (Some "a , b,c ") (Some " b") true = true.
Proof. repeat split. Qed.

Example matchesProperty_undefined_task :
  matchesProperty (Some "a") None true = false
  ∧ matchesProperty (Some "a") None false = true.
Proof. repeat split. Qed.

(** C5. With the wildcard ["*"] as detector value, [matchesProperty] returns
    true for every task value, undefined included, whether or not the
    attribute is required. *)
Theorem matchesProperty_wildcard (taskProperty : option string) (required : bool) :
  matchesProperty (Some "*") taskProperty required = true.
Proof. reflexivity. Qed.

(** C4. [matchAlternativeProperties] is false on sequences of different
    lengths, false when the number of defined task values is not one, and
    otherwise the result of [matchesProperty], with [required = true], on the
    detector value and the task value at the one defined position. *)
Theorem matchAlternativeProperties_exactly_one
    (detectorProperties taskProperties : list (option string)) :
  (length detectorProperties ≠ length taskProperties →
     matchAlternativeProperties detectorProperties taskProperties = false)
  ∧ (definedCount taskProperties ≠ 1 →
     matchAlternativeProperties detectorProperties taskProperties = false)
  ∧ (∀ i v,
       length detectorProperties = length taskProperties →
       definedCount taskProperties = 1 →
       taskProperties !! i = Some (Some v) →
       matchAlternativeProperties detectorProperties taskProperties
       = matchesProperty (mjoin (detectorProperties !! i)) (Some v) true).
Proof.
  unfold matchAlternativeProperties. repeat split.
  - intros Hlen. by apply Nat.eqb_neq in Hlen as ->.
  - intros Hcount.
    destruct (length detectorProperties =? length taskProperties)%nat; [simpl | done].
    destruct (definedCount taskProperties) as [|[|n]] eqn:Hn; [| done |].
    + by rewrite searchAlternative_none_left.
    + rewrite searchAlternative_many; [done | lia].
  - intros i v Hlen Hcount Hi.
    apply Nat.eqb_eq in Hlen as ->. simpl.
    by rewrite (searchAlternative_single _ 0 _ i v).
Qed.

Lemma matchAlternativeProperties_exactly_one_witness :
  matchAlternativeProperties [Some "c1"; Some "u1, u2"] [None; Some "u2"]
  = matchesProperty (Some "u1, u2") (Some "u2") true
  ∧ matchAlternativeProperties [Some "*"; Some "*"] [Some "c"; Some "u"] = false
  ∧ matchAlternativeProperties [Some "*"] [None; Some "u"] = false.
Proof.
  split; [|split].
  - apply (proj2 (proj2 (matchAlternativeProperties_exactly_one
             [Some "c1"; Some "u1, u2"] [None; Some "u2"]))) with (i := 1);
      reflexivity.
  - apply (proj1 (proj2 (matchAlternativeProperties_exactly_one
             [Some "*"; Some "*"] [Some "c"; Some "u"]))).
    vm_compute. lia.
  - apply (proj1 (matchAlternativeProperties_exactly_one [Some "*"] [None; Some "u"])).
    simpl. lia.
Defined.

(** A detector value other than ["*"] is compared with the task value: an
    undefined task value matches when the attribute is not required, a
    defined one when it equals, after trimming, the detector value or one
    entry of its comma-separated list. *)
Lemma matchesProperty_no_wildcard d taskProperty required :
  d ≠ "*" →
  matchesProperty (Some d) taskProperty required = true ↔
  match taskProperty with
  | None => required = false
  | Some t =>
      if JsString.includes "," d
      then ∃ v, v ∈ JsString.split "," d ∧ JsString.trim v = JsString.trim t
      else JsString.trim d = JsString.trim t
  end.
Proof.
  intros Hd. unfold matchesProperty.
  apply String.eqb_neq in Hd as ->.
  destruct taskProperty as [t|].
  - destruct (JsString.includes "," d).
    + apply matchesAnyValue_true.
    + apply String.eqb_eq.
  - by destruct required.
Qed.

End MatcherProperties.

(** ** The wildcard, the resolver and [isReplaceable] *)
Module ResolverProperties.
Import Utilities QuantMEMatcher QuantMETransformator MatcherProperties Fixture.

(** C10, as stated, fails: the list ["a,*"] also matches the task value
    ["a"], and [" * "] matches an undefined task value of an attribute that
    is not required. *)
Lemma wildcard_entry_counterexample :
  matchesProperty (Some "a,*") (Some "a") true = true
  ∧ JsString.trim "a" ≠ "*"
  ∧ matchesProperty (Some " * ") None false = true.
Proof. repeat split. discriminate. Qed.

(** C10, amended. The wildcard is recognized only when the detector value
    is exactly ["*"]. Any other detector value matches a defined task value
    exactly when the trimmed task value equals the trimmed detector value
    or, for a comma-separated list, one of its trimmed entries, and matches
    an undefined task value exactly when the attribute is not required. So
    ["a,*"] matches the defined task values that trim to ["a"] or to ["*"],
    [" * "] those that trim to ["*"], and neither matches everything. *)
Theorem wildcard_only_exact :
  (∀ d taskProperty required,
     d ≠ "*" →
     matchesProperty (Some d) taskProperty required = true ↔
     match taskProperty with
     | None => required = false
     | Some t =>
         if JsString.includes "," d
         then ∃ v, v ∈ JsString.split "," d ∧ JsString.trim v = JsString.trim t
         else JsString.trim d = JsString.trim t
     end)
  ∧ (∀ t required,
       matchesProperty (Some "a,*") (Some t) required = true ↔
       JsString.trim t = "a" ∨ JsString.trim t = "*")
  ∧ (∀ t required,
       matchesProperty (Some " * ") (Some t) required = true ↔ JsString.trim t = "*")
  ∧ (∀ required,
       matchesProperty (Some "a,*") None required = negb required
       ∧ matchesProperty (Some " * ") None required = negb required)
  ∧ (∀ required,
       matchesProperty (Some "a,*") (Some "b") required = false
       ∧ matchesProperty (Some " * ") (Some "b") required = false).
Proof.
  split; [exact matchesProperty_no_wildcard|].
  split; [|split; [|split; [done|done]]].
  - intros t required.
    rewrite matchesProperty_no_wildcard by discriminate. simpl. split.
    + intros (v & Hv & Htrim).
      apply list_elem_of_In in Hv. simpl in Hv.
      destruct Hv as [<-|[<-|[]]]; [left | right]; by rewrite <- Htrim.
    + intros [Ht|Ht]; [exists "a" | exists "*"];
        (split; [apply list_elem_of_In; simpl; tauto | by rewrite Ht]).
  - intros t required.
    rewrite matchesProperty_no_wildcard by discriminate. simpl.
    change (JsString.trim " * ") with "*". split; congruence.
Qed.

Lemma wildcard_only_exact_witness :
  matchesProperty (Some "x, *") (Some "y") true = true ↔
  ∃ v, v ∈ ["x"; " *"] ∧ JsString.trim v = "y".
Proof.
  apply (proj1 wildcard_only_exact "x, *" (Some "y") true). discriminate.
Defined.

Section Resolver.
Context `{ModelerGenerator}.


Context `{QuantMEAttributeChecker}.

Lemma searchSuitedQRM_true (QRMs : list QRM) (element : Element) (b : bool) :
  searchSuitedQRM QRMs element = Some b → b = true.
Proof.
  induction QRMs as [|q rest IH]; simpl; [congruence|].
  destruct (matchesQRM q element) as [[|]|]; simpl; [congruence | done | done].
Qed.

(** C9. For an element whose required attributes are available,
    [isReplaceable] returns true although no QRM matches it; true is the
    only value it returns for such an element, and the predecessor of the
    function does not look at the QRMs at all. *)
Theorem isReplaceable_without_match (QRMs : list QRM) (element : Element) :
  requiredAttributesAvailable element = true →
  (Forall (λ q, matchesQRM q element = Some false) QRMs →
     isReplaceable QRMs element = Some true)
  ∧ (∀ b, isReplaceable QRMs element = Some b → b = true)
  ∧ Predecessor.isReplaceable element = true.
Proof.
  intros Havailable. unfold isReplaceable, Predecessor.isReplaceable.
  rewrite Havailable. simpl. repeat split.
  - induction 1 as [|q rest Hq _ IH]; simpl; [done|]. by rewrite Hq.
  - apply searchSuitedQRM_true.
Qed.

End Resolver.




Lemma isReplaceable_without_match_witness :
  @isReplaceable templates allAvailable [Tpl2] taskT = Some true.
Proof.
  apply (@isReplaceable_without_match templates allAvailable [Tpl2] taskT).
  - reflexivity.
  - repeat constructor.
Defined.

End ResolverProperties.

(** ** The fragment splicer *)
Module SplicerProperties.
Import Utilities Host QuantMETransformator Vocabulary Fixture.


(** Induction on the tree of an element. *)
Lemma Element_tree_ind (P : Element → Prop) :
  (∀ el, ForallBelow P (flowElements el) → ForallBelow P (artifacts el) → P el) →
  ∀ el, P el.
Proof.
  intros step. fix rec 1.
  intros [type i attributes source target attached shape children arts].
  apply step; simpl.
  - destruct children as [els|]; simpl; [|exact I].
    induction els as [|el els IH]; constructor; [apply rec | exact IH].
  - destruct arts as [els|]; simpl; [|exact I].
    induction els as [|el els IH]; constructor; [apply rec | exact IH].
Qed.

Section Computations.
Context `{GraphHost}.

Lemma bind_Normal {A B} (m : M A) (k : A → M B) d b d' t :
  (m ≫= k) d = Normal b d' t ↔
  ∃ a d1 t1 t2, m d = Normal a d1 t1 ∧ k a d1 = Normal b d' t2 ∧ t = t1 ++ t2.
Proof.
  unfold mbind, M_bind, bind. split.
  - destruct (m d) as [a d1 t1|]; [|done].
    destruct (k a d1) as [b' d2 t2|] eqn:Hk; [|done].
    intros [= -> -> <-]. by exists a, d1, t1, t2.
  - intros (a & d1 & t1 & t2 & -> & -> & ->). done.
Qed.

Lemma bind_Threw {A B} (m : M A) (k : A → M B) d d' t :
  (m ≫= k) d = Threw d' t ↔
  m d = Threw d' t
  ∨ ∃ a d1 t1 t2, m d = Normal a d1 t1 ∧ k a d1 = Threw d' t2 ∧ t = t1 ++ t2.
Proof.
  unfold mbind, M_bind, bind. split.
  - destruct (m d) as [a d1 t1|]; [|intros [= -> ->]; by left].
    destruct (k a d1) as [|d2 t2] eqn:Hk; [done|].
    intros [= -> <-]. right. by exists a, d1, t1, t2.
  - intros [->|(a & d1 & t1 & t2 & -> & -> & ->)]; done.
Qed.

Lemma bind_ext {A B} (m : M A) (k k' : A → M B) d :
  (∀ a d1, k a d1 = k' a d1) → (m ≫= k) d = (m ≫= k') d.
Proof.
  intros Hk. unfold mbind, M_bind, bind.
  destruct (m d) as [a d1 t1|]; [|done]. by rewrite Hk.
Qed.

Lemma bind_cong {A B} (m m' : M A) (k k' : A → M B) d :
  m d = m' d → (∀ a d1, k a d1 = k' a d1) → (m ≫= k) d = (m' ≫= k') d.
Proof.
  intros Hm Hk. unfold mbind, M_bind, bind. rewrite Hm.
  destruct (m' d) as [a d1 t1|]; [|done]. by rewrite Hk.
Qed.

Lemma bind_assoc {A B C} (m : M A) (k : A → M B) (k' : B → M C) d :
  ((m ≫= k) ≫= k') d = (m ≫= λ a, k a ≫= k') d.
Proof.
  unfold mbind, M_bind, bind.
  destruct (m d) as [a d1 t1|]; [|done].
  destruct (k a d1) as [b d2 t2|]; [|done].
  destruct (k' b d2) as [c d3 t3|]; by rewrite app_assoc.
Qed.

Lemma ret_bind {A B} (a : A) (k : A → M B) d : (mret a ≫= k) d = k a d.
Proof.
  unfold mbind, M_bind, bind, mret, M_ret, ret. by destruct (k a d).
Qed.

Lemma ret_Normal {A} (a b : A) d d' t :
  (mret a : M A) d = Normal b d' t ↔ b = a ∧ d' = d ∧ t = [].
Proof. unfold mret, M_ret, ret. split; [by intros [= -> ->] | by intros (-> & -> & ->)]. Qed.

Lemma defined_Normal {A} (v : option A) (a : A) d d' t :
  defined v d = Normal a d' t ↔ v = Some a ∧ d' = d ∧ t = [].
Proof.
  destruct v as [b|]; simpl; unfold ret, throw.
  - split; [by intros [= -> ->] | by intros ([= ->] & -> & ->)].
  - split; [done | by intros (? & _)].
Qed.

Lemma lookup_Normal key found d d' t :
  lookup key d = Normal found d' t ↔
  found = registryGet key d ∧ d' = d ∧ t = [Looked key found].
Proof.
  unfold lookup. split; [by intros [= <- <- <-] | by intros (-> & -> & ->)].
Qed.

Lemma call_Normal c result d d' t :
  call c d = Normal result d' t ↔
  perform c d = Returns result d' ∧ t = [Performed c result].
Proof.
  unfold call. destruct (perform c d) as [r d1|d1].
  - split; [by intros [= -> -> <-] | by intros ([= -> ->] & ->)].
  - split; [done | by intros (? & _)].
Qed.

End Computations.

(** Takes a hypothesis that a computation returned apart into the steps
    that returned. *)
Ltac steps H :=
  repeat match type of H with
  | (_ ≫= _) _ = Normal _ _ _ =>
      let a := fresh "a" in let d := fresh "d" in
      let t1 := fresh "t" in let t2 := fresh "t" in
      let H1 := fresh "Hstep" in let Heq := fresh "Htrace" in
      apply bind_Normal in H as (a & d & t1 & t2 & H1 & H & Heq)
  end.


(** ** Reads and writes of the identifier map *)

Lemma get_ext key (o o' : gmap string string) :
  o' !! key = o !! key → JsObject.get key o' = JsObject.get key o.
Proof. unfold JsObject.get. by intros ->. Qed.

Lemma set_other key value (o : gmap string string) k :
  k ≠ key → JsObject.set key value o !! k = o !! k.
Proof.
  intros Hk. unfold JsObject.set.
  destruct (String.eqb key "__proto__"); [done|].
  apply lookup_insert_ne. congruence.
Qed.

Lemma set_lookup_eq key value (o : gmap string string) :
  key ≠ "__proto__" → JsObject.set key value o !! key = Some value.
Proof.
  intros Hkey. unfold JsObject.set.
  apply String.eqb_neq in Hkey as ->. by rewrite lookup_insert_eq.
Qed.

Lemma set_proto key value (o : gmap string string) :
  JsObject.set key value o !! "__proto__" = o !! "__proto__".
Proof.
  unfold JsObject.set.
  destruct (String.eqb_spec key "__proto__") as [->|Hkey]; [done|].
  by apply lookup_insert_ne.
Qed.

Lemma get_set_eq key value (o : gmap string string) :
  key ≠ "__proto__" →
  JsObject.get key (JsObject.set key value o) = JsObject.Str value.
Proof.
  intros Hkey. unfold JsObject.get, JsObject.set.
  apply String.eqb_neq in Hkey as ->. by rewrite lookup_insert_eq.
Qed.

(** The references that [getPropertiesToCopy] finds among the own
    properties of an element. *)
Lemma ownProperties_lookup {Shape} (el : Element) (key : string) :
  @ownProperties Shape el !! key
  = (if decide (key = "sourceRef") then PReference <$> sourceRef el else None)
    ∪ (if decide (key = "targetRef") then PReference <$> targetRef el else None)
    ∪ (if decide (key = "attachedToRef") then PReference <$> attachedToRef el else None)
    ∪ (if decide (key = "di") then PDi <$> di el else None)
    ∪ (PString <$> attrs el !! key).
Proof.
  unfold ownProperties. rewrite !lookup_union, lookup_fmap.
  repeat f_equal.
  - destruct (sourceRef el); simpl;
      [rewrite lookup_singleton | rewrite lookup_empty];
      repeat case_decide; congruence.
  - destruct (targetRef el); simpl;
      [rewrite lookup_singleton | rewrite lookup_empty];
      repeat case_decide; congruence.
  - destruct (attachedToRef el); simpl;
      [rewrite lookup_singleton | rewrite lookup_empty];
      repeat case_decide; congruence.
  - destruct (di el); simpl;
      [rewrite lookup_singleton | rewrite lookup_empty];
      repeat case_decide; congruence.
Qed.

Lemma getPropertiesToCopy_references {Shape} (el : Element) :
  (∀ ref, sourceRef el = Some ref →
     @getPropertiesToCopy Shape el !! "sourceRef" = Some (PReference ref))
  ∧ (∀ ref, targetRef el = Some ref →
       @getPropertiesToCopy Shape el !! "targetRef" = Some (PReference ref))
  ∧ (∀ ref, attachedToRef el = Some ref →
       @getPropertiesToCopy Shape el !! "attachedToRef" = Some (PReference ref)).
Proof.
  unfold getPropertiesToCopy. split; [|split].
  - intros ref Href. apply map_lookup_filter_Some. split; [|done].
    rewrite ownProperties_lookup, Href. simpl.
    by destruct (di el), (attrs el !! "sourceRef").
  - intros ref Href. apply map_lookup_filter_Some. split; [|done].
    rewrite ownProperties_lookup, Href. simpl.
    by destruct (di el), (attrs el !! "targetRef").
  - intros ref Href. apply map_lookup_filter_Some. split; [|done].
    rewrite ownProperties_lookup, Href. simpl.
    by destruct (di el), (attrs el !! "attachedToRef").
Qed.

Section Splicing.
Context `{GraphHost}.

Lemma insertShape_unfold el :
  insertShape el
  = insertShape_body el (withInsertShape <$> flowElements el)
      (withInsertShape <$> artifacts el).
Proof. by destruct el. Qed.

Lemma withInsertShape_app els1 els2 :
  withInsertShape (els1 ++ els2) = withInsertShape els1 ++ withInsertShape els2.
Proof. apply map_app. Qed.

Lemma filter_withInsertShape (P : Element → Prop) `{∀ el, Decision (P el)}
    `{∀ c : Child, Decision (P c.1)} els :
  filter (λ c : Child, P c.1) (withInsertShape els) = withInsertShape (filter P els).
Proof.
  induction els as [|el els IH]; [done|].
  unfold withInsertShape in *. simpl. rewrite !filter_cons. simpl. rewrite IH.
  repeat case_decide; done.
Qed.

Lemma childrenInOrder_withInsertShape els :
  childrenInOrder (withInsertShape els) = withInsertShape (insertionOrder els).
Proof.
  unfold childrenInOrder, insertionOrder, plainOf, boundaryEventsOf, sequenceFlowsOf.
  rewrite (filter_withInsertShape (λ el, type_ el ≠ "bpmn:SequenceFlow"
                                         ∧ type_ el ≠ "bpmn:BoundaryEvent")).
  rewrite (filter_withInsertShape (λ el, type_ el ≠ "bpmn:SequenceFlow"
                                         ∧ type_ el = "bpmn:BoundaryEvent")).
  rewrite (filter_withInsertShape (λ el, type_ el = "bpmn:SequenceFlow")).
  by rewrite !withInsertShape_app.
Qed.

Lemma insertEach_app parent els1 els2 success idMap d :
  insertEach parent (els1 ++ els2) success idMap d
  = (insertEach parent els1 success idMap ≫=
       λ '(success, idMap), insertEach parent els2 success idMap) d.
Proof.
  revert success idMap d.
  induction els1 as [|[el ins] els1 IH]; intros success idMap d; simpl.
  - by rewrite ret_bind.
  - rewrite bind_assoc. apply bind_ext. intros result d1. apply IH.
Qed.

(** The first loop of [insertChildElements] calls the inserters of the
    plain children and sets the other two kinds aside, in their order. *)
Lemma insertFlowElements_ordered parent (children : list Child) success idMap
    boundaryEvents sequenceflows d :
  insertFlowElements parent children success idMap boundaryEvents sequenceflows d
  = (insertEach parent
       (filter (λ c, type_ c.1 ≠ "bpmn:SequenceFlow" ∧ type_ c.1 ≠ "bpmn:BoundaryEvent")
          children) success idMap ≫=
       λ '(success, idMap),
         mret (success, idMap,
               boundaryEvents
               ++ filter (λ c, type_ c.1 ≠ "bpmn:SequenceFlow"
                               ∧ type_ c.1 = "bpmn:BoundaryEvent") children,
               sequenceflows
               ++ filter (λ c, type_ c.1 = "bpmn:SequenceFlow") children)) d.
Proof.
  revert success idMap boundaryEvents sequenceflows d.
  induction children as [|[el ins] children IH];
    intros success idMap boundaryEvents sequenceflows d; simpl.
  - by rewrite ret_bind, !app_nil_r.
  - rewrite !filter_cons. simpl.
    destruct (String.eqb_spec (type_ el) "bpmn:SequenceFlow") as [Hflow|Hflow].
    { repeat case_decide; try tauto.
      rewrite IH. apply bind_ext. intros [s m] d1. simpl. by rewrite <- app_assoc. }
    destruct (String.eqb_spec (type_ el) "bpmn:BoundaryEvent") as [Hboundary|Hboundary].
    { repeat case_decide; try tauto.
      rewrite IH. apply bind_ext. intros [s m] d1. simpl. by rewrite <- app_assoc. }
    repeat case_decide; try tauto.
    simpl. rewrite bind_assoc. apply bind_ext. intros result d1. apply IH.
Qed.

(** [insertChildElements] calls the inserters of the children in order: the
    plain ones, then the boundary events, then the sequence flows. *)
Lemma insertChildElements_ordered parent (flowElements : option (list Child)) idMap d :
  insertChildElements parent flowElements idMap d
  = (insertEach parent (childrenInOrder (default [] flowElements)) true idMap ≫=
       λ '(success, idMap), mret (Result.mk success idMap parent)) d.
Proof.
  destruct flowElements as [children|]; simpl; [|by rewrite ret_bind].
  unfold childrenInOrder.
  etrans; [apply bind_cong; [apply insertFlowElements_ordered | reflexivity] |].
  symmetry. etrans; [apply bind_cong; [apply insertEach_app | reflexivity] |].
  rewrite !bind_assoc. apply bind_ext. intros [success1 idMap1] d1.
  rewrite ret_bind. simpl.
  etrans; [apply bind_cong; [apply insertEach_app | reflexivity] |].
  rewrite bind_assoc. apply bind_ext. by intros [success2 idMap2] d2.
Qed.

Lemma insertChildElements_eq parent flowElements idMap d :
  insertChildElements parent (withInsertShape <$> flowElements) idMap d
  = (insertEach parent (withInsertShape (insertionOrder (default [] flowElements)))
       true idMap ≫=
       λ '(success, idMap), mret (Result.mk success idMap parent)) d.
Proof.
  rewrite insertChildElements_ordered.
  destruct flowElements as [els|]; simpl; [|done].
  by rewrite childrenInOrder_withInsertShape.
Qed.

(** [insertShape] is the insertion of the element followed by the calls
    for its children, in their order, and for its artifacts, starting from
    the flag [true]. *)
Lemma insertShape_body_eq el (flowElements artifacts : option (list Child))
    parent idMap replace oldElement d :
  insertShape_body el flowElements artifacts parent idMap replace oldElement d
  = ('(x, idMap) ← insertElement el parent idMap replace oldElement;
     '(success, idMap) ←
       insertEach x (childrenInOrder (default [] flowElements) ++ default [] artifacts)
         true idMap;
     mret (Result.mk success idMap x)) d.
Proof.
  unfold insertShape_body. apply bind_ext. intros [x m] d1.
  symmetry. etrans; [apply bind_cong; [apply insertEach_app | reflexivity] |].
  rewrite bind_assoc. symmetry.
  etrans; [apply bind_cong; [apply insertChildElements_ordered | reflexivity] |].
  rewrite bind_assoc. apply bind_ext. intros [success1 idMap1] d2.
  by rewrite ret_bind.
Qed.

Lemma insertedInTurn_app parent els1 els2 idMap d results1 idMap1 d1 t1
    results2 idMap2 d2 t2 :
  insertedInTurn parent els1 idMap d results1 idMap1 d1 t1 →
  insertedInTurn parent els2 idMap1 d1 results2 idMap2 d2 t2 →
  insertedInTurn parent (els1 ++ els2) idMap d (results1 ++ results2) idMap2 d2 (t1 ++ t2).
Proof.
  induction 1 as [|el els idMap d result d' t results idMap' d'' t' Hel _ IH]; intros H2.
  - done.
  - simpl. rewrite <- app_assoc. econstructor; eauto.
Qed.

Lemma insertedInTurn_app_inv parent els1 els2 idMap d results idMap2 d2 t :
  insertedInTurn parent (els1 ++ els2) idMap d results idMap2 d2 t →
  ∃ results1 idMap1 d1 t1 results2 t2,
    insertedInTurn parent els1 idMap d results1 idMap1 d1 t1
    ∧ insertedInTurn parent els2 idMap1 d1 results2 idMap2 d2 t2
    ∧ results = results1 ++ results2 ∧ t = t1 ++ t2.
Proof.
  revert idMap d results t.
  induction els1 as [|el els1 IH]; intros idMap d results t Hall; simpl in Hall.
  - exists [], idMap, d, [], results, t. split; [constructor | done].
  - inversion Hall as [|? ? ? ? result d' t1 results' ? ? t2 Hel Hrest]; subst.
    destruct (IH _ _ _ _ Hrest)
      as (results1 & idMap1 & d1 & t1' & results2 & t2' & H1 & H2 & -> & ->).
    exists (result :: results1), idMap1, d1, (t1 ++ t1'), results2, t2'.
    split; [by econstructor|]. split; [done|]. by rewrite app_assoc.
Qed.

Lemma insertedInTurn_length parent els idMap d results idMap' d' t :
  insertedInTurn parent els idMap d results idMap' d' t → length results = length els.
Proof. induction 1; simpl; congruence. Qed.

(** The calls for the elements of a list are the calls of their own
    [insertShape]. *)
Lemma calledInTurn_inserted parent els idMap d results idMap' d' t :
  calledInTurn parent (withInsertShape els) idMap d results idMap' d' t ↔
  insertedInTurn parent els idMap d results idMap' d' t.
Proof.
  split.
  - revert idMap d results t.
    induction els as [|el els IH]; intros idMap d results t Hcalled;
      inversion Hcalled; subst; econstructor; eauto.
  - induction 1; econstructor; eauto.
Qed.

(** The loops over children return when every call returned; the flag
    they compute is the conjunction of the flags of the calls. *)
Lemma insertEach_called parent (children : list Child) success idMap d
    success' idMap' d' t :
  insertEach parent children success idMap d = Normal (success', idMap') d' t ↔
  ∃ results,
    calledInTurn parent children idMap d results idMap' d' t
    ∧ success' = success && forallb Result.success results.
Proof.
  revert success idMap d t.
  induction children as [|[el ins] children IH]; intros success idMap d t; simpl.
  - rewrite ret_Normal. split.
    + intros ([= -> ->] & -> & ->). exists []. split; [constructor|].
      by rewrite andb_true_r.
    + intros (results & Hturn & ->). inversion Hturn; subst.
      by rewrite andb_true_r.
  - rewrite bind_Normal. split.
    + intros (result & d1 & t1 & t2 & Hel & Hrest & ->).
      apply IH in Hrest as (results & Hturn & ->).
      exists (result :: results). split; [by econstructor|].
      simpl. by rewrite andb_assoc.
    + intros (results & Hturn & ->).
      inversion Hturn as [|? ? ? ? result d1 t1 results' ? ? t2 Hel Hrest]; subst.
      exists result, d1, t1, t2. split; [done|]. split; [|done].
      apply IH. exists results'. split; [done|]. simpl. by rewrite andb_assoc.
Qed.

Lemma insertEach_Normal parent els success idMap d success' idMap' d' t :
  insertEach parent (withInsertShape els) success idMap d
  = Normal (success', idMap') d' t ↔
  ∃ results,
    insertedInTurn parent els idMap d results idMap' d' t
    ∧ success' = success && forallb Result.success results.
Proof.
  rewrite insertEach_called. by setoid_rewrite calledInTurn_inserted.
Qed.

(** What the first part of a call that returned has done: it brought the
    element into the diagram and recorded its id. *)
Lemma insertElement_Normal el parent idMap replace oldElement d x idMap0 d0 t0 :
  insertElement el parent idMap replace oldElement d = Normal (x, idMap0) d0 t0 →
  idMap0 = JsObject.set (id el) (shapeId x) idMap
  ∧ insertedBy el parent idMap replace oldElement d x t0.
Proof.
  unfold insertElement. intros Hrun.
  apply bind_Normal in Hrun as (created & d1 & t1 & t2 & Hcreate & Hrun & ->).
  apply bind_Normal in Hrun as (element & d2 & t3 & t4 & Hdefined & Hrun & ->).
  apply defined_Normal in Hdefined as (-> & -> & ->).
  apply bind_Normal in Hrun as (u1 & d3 & t5 & t6 & _ & Hrun & ->).
  apply bind_Normal in Hrun as (u2 & d4 & t7 & t8 & _ & Hrun & ->).
  apply bind_Normal in Hrun as (u3 & d5 & t9 & t10 & _ & Hrun & ->).
  apply ret_Normal in Hrun as ([= <- <-] & -> & ->).
  split; [done|]. unfold insertedBy.
  destruct (isFlowLikeElement (type_ el)); simpl in Hcreate.
  - apply bind_Normal in Hcreate as (source & dA & tA & tA' & Hsource & Hcreate & ->).
    apply defined_Normal in Hsource as (Hsource & -> & ->).
    apply bind_Normal in Hcreate as (se & dB & tB & tB' & Hse & Hcreate & ->).
    apply lookup_Normal in Hse as (-> & -> & ->).
    apply bind_Normal in Hcreate as (target & dC & tC & tC' & Htarget & Hcreate & ->).
    apply defined_Normal in Htarget as (Htarget & -> & ->).
    apply bind_Normal in Hcreate as (te & dD & tD & tD' & Hte & Hcreate & ->).
    apply lookup_Normal in Hte as (-> & -> & ->).
    apply call_Normal in Hcreate as (Hconnect & ->).
    by exists source, target, d1, (t5 ++ t7 ++ t9 ++ []).
  - destruct replace.
    + apply bind_Normal in Hcreate as (old & dA & tA & tA' & Hold & Hcreate & ->).
      apply defined_Normal in Hold as (-> & -> & ->).
      apply bind_Normal in Hcreate as (oe & dB & tB & tB' & Hoe & Hcreate & ->).
      apply lookup_Normal in Hoe as (-> & -> & ->).
      apply call_Normal in Hcreate as (Hreplace & ->).
      by exists old, d1, (t5 ++ t7 ++ t9 ++ []).
    + apply call_Normal in Hcreate as (Hcreate & ->).
      by exists d1, (t5 ++ t7 ++ t9 ++ []).
Qed.

(** What a call of [insertShape] that returned has done: the first part
    returned the element, and then the children and artifacts were inserted
    in their order under it. *)
Lemma insertShape_returned el parent idMap replace oldElement d result d' t :
  insertShape el parent idMap replace oldElement d = Normal result d' t →
  ∃ d0 t0 results t1,
    let x := Result.element result in
    let idMap0 := JsObject.set (id el) (shapeId x) idMap in
    insertElement el parent idMap replace oldElement d = Normal (x, idMap0) d0 t0
    ∧ insertedInTurn x (insertedBelow el) idMap0 d0 results (Result.idMap result) d' t1
    ∧ t = t0 ++ t1
    ∧ Result.success result = forallb Result.success results.
Proof.
  rewrite insertShape_unfold, insertShape_body_eq. intros Hrun.
  apply bind_Normal in Hrun as ([x idMap0] & d0 & t0 & t1 & Hown & Hrun & ->).
  apply bind_Normal in Hrun as ([success idMap'] & d1 & t2 & t3 & Hbelow & Hret & ->).
  apply ret_Normal in Hret as (-> & -> & ->).
  destruct (insertElement_Normal _ _ _ _ _ _ _ _ _ _ Hown) as [-> _].
  replace (childrenInOrder (default [] (withInsertShape <$> flowElements el))
           ++ default [] (withInsertShape <$> artifacts el))
    with (withInsertShape (insertedBelow el)) in Hbelow.
  2: { unfold insertedBelow. rewrite withInsertShape_app.
       rewrite <- childrenInOrder_withInsertShape.
       by destruct (flowElements el), (artifacts el). }
  apply insertEach_Normal in Hbelow as (results & Hturn & ->).
  exists d0, t0, results, t2. simpl. by rewrite app_nil_r.
Qed.

Lemma insertShape_Normal el parent idMap replace oldElement d result d' t :
  insertShape el parent idMap replace oldElement d = Normal result d' t →
  ∃ t0 d0 results t1,
    insertedBy el parent idMap replace oldElement d (Result.element result) t0
    ∧ insertedInTurn (Result.element result) (insertedBelow el)
        (JsObject.set (id el) (shapeId (Result.element result)) idMap) d0
        results (Result.idMap result) d' t1
    ∧ t = t0 ++ t1
    ∧ Result.success result = forallb Result.success results.
Proof.
  intros Hrun.
  apply insertShape_returned in Hrun as (d0 & t0 & results & t1 & Hown & Hturn & -> & Hflag).
  apply insertElement_Normal in Hown as [_ Hby].
  by exists t0, d0, results, t1.
Qed.

Lemma insertionOrder_perm els : insertionOrder els ≡ₚ els.
Proof.
  unfold insertionOrder, plainOf, boundaryEventsOf, sequenceFlowsOf.
  induction els as [|el els IH]; [done|].
  rewrite !filter_cons.
  destruct (decide (type_ el = "bpmn:SequenceFlow")) as [Hflow|Hflow];
    destruct (decide (type_ el = "bpmn:BoundaryEvent")) as [Hboundary|Hboundary];
    repeat case_decide; try tauto; try congruence;
    simpl; rewrite <- ?Permutation_middle; by apply perm_skip.
Qed.

Lemma fragmentIds_below el :
  fragmentIds el ≡ₚ id el :: flat_map fragmentIds (insertedBelow el).
Proof.
  destruct el as [type i attributes source target attached shape children arts].
  unfold insertedBelow. simpl. constructor.
  rewrite flat_map_app. apply Permutation_app.
  - destruct children as [els|]; simpl; [|done].
    apply Permutation_flat_map. by rewrite insertionOrder_perm.
  - by destruct arts.
Qed.

Lemma Forall_insertedBelow (P : Element → Prop) el :
  ForallBelow P (flowElements el) → ForallBelow P (artifacts el) →
  Forall P (insertedBelow el).
Proof.
  intros Hkids Harts. unfold insertedBelow. apply Forall_app. split.
  - rewrite insertionOrder_perm. by destruct (flowElements el).
  - by destruct (artifacts el).
Qed.

Lemma records_nil idMap : records idMap idMap [].
Proof. split; [done|]. split; [intros key Hkey; inversion Hkey | done]. Qed.

Lemma records_app idMap idMap1 idMap2 ids1 ids2 :
  records idMap idMap1 ids1 → records idMap1 idMap2 ids2 →
  records idMap idMap2 (ids1 ++ ids2).
Proof.
  intros (Hout1 & Hin1 & Hproto1) (Hout2 & Hin2 & Hproto2). split; [|split].
  - intros key Hkey. rewrite elem_of_app in Hkey.
    rewrite Hout2, Hout1; tauto.
  - intros key Hkey Hproto. rewrite elem_of_app in Hkey.
    destruct (decide (key ∈ ids2)) as [Hin|Hout]; [by apply Hin2|].
    rewrite Hout2 by done. apply Hin1; tauto.
  - by rewrite Hproto2.
Qed.

Lemma records_insert idMap idMap' key value ids :
  records (JsObject.set key value idMap) idMap' ids → records idMap idMap' (key :: ids).
Proof.
  intros (Hout & Hin & Hstored). split; [|split].
  - intros k Hk. rewrite not_elem_of_cons in Hk.
    rewrite Hout by tauto. apply set_other. tauto.
  - intros k Hk Hproto. destruct (decide (k ∈ ids)) as [Hids|Hids]; [by apply Hin|].
    apply elem_of_cons in Hk as [->|Hk']; [|done].
    rewrite Hout by done. rewrite set_lookup_eq by done. by eexists.
  - rewrite Hstored. apply set_proto.
Qed.

Lemma records_perm idMap idMap' ids ids' :
  ids ≡ₚ ids' → records idMap idMap' ids → records idMap idMap' ids'.
Proof.
  intros Hperm (Hout & Hin & Hproto). split; [|split; [|done]]; intros key Hkey.
  - apply Hout. by rewrite Hperm.
  - apply Hin. by rewrite Hperm.
Qed.

(** A read under a recorded id is defined. *)
Lemma records_defined idMap idMap' ids key :
  records idMap idMap' ids → key ∈ ids →
  JsObject.get key idMap' ≠ JsObject.Undefined.
Proof.
  intros (_ & Hin & _) Hkey. unfold JsObject.get.
  destruct (idMap' !! key) as [value|] eqn:Hvalue; [done|].
  destruct (decide (key = "__proto__")) as [->|Hproto]; [done|].
  destruct (Hin key Hkey Hproto) as [value Hsome]. congruence.
Qed.

Lemma insertedInTurn_sound parent els idMap d results idMap' d' t :
  Forall sound els →
  insertedInTurn parent els idMap d results idMap' d' t →
  forallb Result.success results = true
  ∧ records idMap idMap' (flat_map fragmentIds els).
Proof.
  intros Hels Hturn.
  induction Hturn as [|el els idMap d result d1 t1 results idMap' d' t2 Hel _ IH].
  - split; [done | apply records_nil].
  - apply Forall_cons in Hels as [Hsound Hels].
    destruct (Hsound _ _ _ _ _ _ _ _ Hel) as [Hsuccess Hrecords].
    destruct (IH Hels) as [Hall Hrest]. split.
    + simpl. by rewrite Hsuccess, Hall.
    + simpl. by apply records_app with (Result.idMap result).
Qed.

Lemma insertShape_sound el : sound el.
Proof.
  induction el as [el Hkids Harts] using Element_tree_ind.
  intros parent idMap replace oldElement d result d' t Hrun.
  apply insertShape_Normal in Hrun as (t0 & d0 & results & t1 & _ & Hturn & _ & ->).
  apply insertedInTurn_sound in Hturn as [Hall Hrecords];
    [|by apply Forall_insertedBelow].
  split; [done|].
  apply records_perm with (id el :: flat_map fragmentIds (insertedBelow el));
    [by rewrite fragmentIds_below|].
  by apply records_insert with (shapeId (Result.element result)).
Qed.

Lemma fragmentIds_own el : id el ∈ fragmentIds el.
Proof. destruct el. simpl. left. Qed.

Lemma elem_of_flat_map_fragmentIds key el els :
  el ∈ els → key ∈ fragmentIds el → key ∈ flat_map fragmentIds els.
Proof.
  intros Hel Hkey. apply list_elem_of_In, in_flat_map.
  exists el. by rewrite <- !list_elem_of_In.
Qed.

Lemma insertedInTurn_records parent els idMap d results idMap' d' t :
  insertedInTurn parent els idMap d results idMap' d' t →
  records idMap idMap' (flat_map fragmentIds els).
Proof.
  intros Hturn. eapply insertedInTurn_sound; [|done].
  apply Forall_forall. intros. apply insertShape_sound.
Qed.

(** With distinct ids in the fragment, a read of the returned map under
    the id of an element gives the id of the element inserted for it,
    unless that id is [__proto__]. *)
Lemma insertShape_own_entry el parent idMap replace oldElement d result d' t :
  NoDup (fragmentIds el) → id el ≠ "__proto__" →
  insertShape el parent idMap replace oldElement d = Normal result d' t →
  JsObject.get (id el) (Result.idMap result)
  = JsObject.Str (shapeId (Result.element result)).
Proof.
  intros Hnodup Hid Hrun.
  apply insertShape_Normal in Hrun as (t0 & d0 & results & t1 & _ & Hturn & _ & _).
  apply insertedInTurn_records in Hturn as [Hout _].
  rewrite fragmentIds_below in Hnodup. apply NoDup_cons in Hnodup as [Hfresh _].
  rewrite (get_ext (id el) (JsObject.set (id el) (shapeId (Result.element result)) idMap))
    by auto.
  by apply get_set_eq.
Qed.

(** One element among those inserted in turn: the calls before it, its
    own call and the calls after it. *)
Lemma insertedInTurn_at parent before el after idMap d results idMap' d' t :
  insertedInTurn parent (before ++ el :: after) idMap d results idMap' d' t →
  ∃ results1 idMap1 d1 t1 result d2 t2 results2 t3,
    insertedInTurn parent before idMap d results1 idMap1 d1 t1
    ∧ insertShape el (Some parent) idMap1 false None d1 = Normal result d2 t2
    ∧ insertedInTurn parent after (Result.idMap result) d2 results2 idMap' d' t3
    ∧ t = t1 ++ t2 ++ t3
    ∧ results = results1 ++ result :: results2.
Proof.
  intros Hall.
  apply insertedInTurn_app_inv in Hall
    as (results1 & idMap1 & d1 & t1 & results2 & t2 & Hbefore & Hrest & -> & ->).
  inversion Hrest as [|? ? ? ? result d2 t2' results2' ? ? t3 Hel Hafter]; subst.
  by exists results1, idMap1, d1, t1, result, d2, t2', results2', t3.
Qed.

(** The result at a position is the one that the call for the element at
    that position returned, and with distinct ids the map read under the
    id of the element gives the id of the element of that result. *)
Lemma insertedInTurn_lookup parent els idMap d results idMap' d' t i el :
  insertedInTurn parent els idMap d results idMap' d' t →
  els !! i = Some el →
  ∃ result,
    results !! i = Some result
    ∧ (NoDup (flat_map fragmentIds els) → id el ≠ "__proto__" →
       JsObject.get (id el) idMap' = JsObject.Str (shapeId (Result.element result))).
Proof.
  intros Hturn Hel.
  apply list_elem_of_split_length in Hel as (before & after & -> & ->).
  apply insertedInTurn_at in Hturn
    as (results1 & idMap1 & d1 & t1 & result & d2 & t2 & results2 & t3
        & Hbefore & Hrun & Hafter & -> & ->).
  apply insertedInTurn_length in Hbefore as Hlength.
  exists result. split.
  - rewrite lookup_app_r by lia. by rewrite Hlength, Nat.sub_diag.
  - intros Hnodup Hid.
    rewrite flat_map_app in Hnodup. apply NoDup_app in Hnodup as (_ & _ & Hnodup).
    simpl in Hnodup. apply NoDup_app in Hnodup as (Hown & Hfresh & _).
    apply insertedInTurn_records in Hafter as [Hkeep _].
    rewrite (get_ext (id el) (Result.idMap result))
      by (apply Hkeep, Hfresh, fragmentIds_own).
    by eapply insertShape_own_entry.
Qed.


(** What the first part of the call does for a boundary event when it
    returns: the new shape, the look for the host in the registry, the
    attachment and the copied properties. *)
Lemma insertElement_boundaryEvent event parent idMap oldElement d
    created idMap' d' t :
  type_ event = "bpmn:BoundaryEvent" →
  insertElement event parent idMap false oldElement d
  = Normal (created, idMap') d' t →
  ∃ host d1 hostElement attached d2 hosted d3 updated,
    attachedToRef event = Some host
    ∧ let hostKey :=
        JsObject.get host (JsObject.set (id event) (shapeId created) idMap) in
      let attachment : gmap string (PropValue Shape) :=
        {[ "attachedToRef" := PBusinessObject hostElement ]} in
      perform (CreateShape (type_ event) parent) d = Returns (Some created) d1
      ∧ registryGet hostKey d1 = Some hostElement
      ∧ perform (UpdateProperties created attachment) d1 = Returns attached d2
      ∧ perform (SetHost created hostElement) d2 = Returns hosted d3
      ∧ perform (UpdateProperties created (getPropertiesToCopy event)) d3
        = Returns updated d'
      ∧ t = [Performed (CreateShape (type_ event) parent) (Some created);
             Looked hostKey (Some hostElement);
             Performed (UpdateProperties created attachment) attached;
             Performed (SetHost created hostElement) hosted;
             Performed (UpdateProperties created (getPropertiesToCopy event))
               updated].
Proof.
  intros Htype Hrun. unfold insertElement in Hrun.
  apply bind_Normal in Hrun as (made & d1 & t1 & t2 & Hcreate & Hrun & ->).
  apply bind_Normal in Hrun as (element & d2 & t3 & t4 & Hdefined & Hrun & ->).
  apply defined_Normal in Hdefined as (-> & -> & ->).
  apply bind_Normal in Hrun as (u1 & d3 & t5 & t6 & Hexpand & Hrun & ->).
  apply bind_Normal in Hrun as (u2 & d4 & t7 & t8 & Hattach & Hrun & ->).
  apply bind_Normal in Hrun as (u3 & d5 & t9 & t10 & Hupdate & Hrun & ->).
  apply ret_Normal in Hrun as ([= <- ->] & -> & ->).
  rewrite Htype in Hcreate, Hexpand, Hattach.
  simpl in Hcreate, Hexpand, Hattach.
  apply call_Normal in Hcreate as (Hcreate & ->).
  apply ret_Normal in Hexpand as (-> & -> & ->).
  apply call_Normal in Hupdate as (Hupdate & ->).
  apply bind_Normal in Hattach as (host & dA & tA & tA' & Hhost & Hattach & ->).
  apply defined_Normal in Hhost as (Hhost & -> & ->).
  apply bind_Normal in Hattach as (he & dB & tB & tB' & Hhe & Hattach & ->).
  apply lookup_Normal in Hhe as (-> & -> & ->).
  apply bind_Normal in Hattach as (hostElement & dC & tC & tC' & Hfound & Hattach & ->).
  apply defined_Normal in Hfound as (Hfound & -> & ->).
  apply bind_Normal in Hattach as (attached & dD & tD & tD' & Hprops & Hattach & ->).
  apply call_Normal in Hprops as (Hprops & ->).
  apply call_Normal in Hattach as (Hsethost & ->).
  exists host, d1, hostElement, attached, dD, u2, d4, u3.
  rewrite Htype. simpl. rewrite Hfound. by repeat split.
Qed.

Lemma fragmentIds_child el els child key :
  flowElements el = Some els → child ∈ els →
  key ∈ fragmentIds child → key ∈ fragmentIds el.
Proof.
  intros Hels Hchild Hkey. destruct el. simpl in *. subst.
  right. apply elem_of_app. left. by eapply elem_of_flat_map_fragmentIds.
Qed.

(** A sequence flow among the children of an element: what is inserted
    before it and after it. *)
Lemma insertedBelow_sequenceFlow el els flow :
  flowElements el = Some els → flow ∈ els → type_ flow = "bpmn:SequenceFlow" →
  ∃ flows after,
    insertedBelow el
    = (plainOf els ++ boundaryEventsOf els ++ flows) ++ flow :: after.
Proof.
  intros Hels Hflow Htype. unfold insertedBelow, insertionOrder.
  rewrite Hels. simpl.
  assert (flow ∈ sequenceFlowsOf els) as Hin by (by apply list_elem_of_filter).
  apply list_elem_of_split in Hin as (flows1 & flows2 & ->).
  exists flows1, (flows2 ++ default [] (artifacts el)).
  by rewrite <- !app_assoc.
Qed.

(** A boundary event among the children of an element: what is inserted
    before it and after it. *)
Lemma insertedBelow_boundaryEvent el els event :
  flowElements el = Some els → event ∈ els → type_ event = "bpmn:BoundaryEvent" →
  ∃ events after,
    insertedBelow el = (plainOf els ++ events) ++ event :: after.
Proof.
  intros Hels Hevent Htype. unfold insertedBelow, insertionOrder.
  rewrite Hels. simpl.
  assert (event ∈ boundaryEventsOf els) as Hin.
  { apply list_elem_of_filter. split; [|done]. rewrite Htype. split; [discriminate|done]. }
  apply list_elem_of_split in Hin as (events1 & events2 & ->).
  exists events1, (events2 ++ sequenceFlowsOf els ++ default [] (artifacts el)).
  by rewrite <- !app_assoc.
Qed.

(** A child inserted before another one, none of them sharing an id: the
    result of its call, and what the identifier map gives under its id,
    when the other one is inserted and in the end. *)
Lemma insertedInTurn_before parent before el after idMap d results idMap' d' t child :
  insertedInTurn parent (before ++ el :: after) idMap d results idMap' d' t →
  NoDup (flat_map fragmentIds (before ++ el :: after)) →
  child ∈ before → id child ≠ "__proto__" →
  ∃ results1 idMap1 d1 t1 result d2 t2 results2 t3 i new,
    insertedInTurn parent before idMap d results1 idMap1 d1 t1
    ∧ insertShape el (Some parent) idMap1 false None d1 = Normal result d2 t2
    ∧ insertedInTurn parent after (Result.idMap result) d2 results2 idMap' d' t3
    ∧ t = t1 ++ t2 ++ t3
    ∧ before !! i = Some child ∧ results1 !! i = Some new
    ∧ JsObject.get (id child) idMap1 = JsObject.Str (shapeId (Result.element new))
    ∧ idMap' !! id child = idMap1 !! id child.
Proof.
  intros Hturn Hnodup Hchild Hid.
  apply insertedInTurn_at in Hturn
    as (results1 & idMap1 & d1 & t1 & result & d2 & t2 & results2 & t3
        & Hbefore & Hcall & Hafter & -> & ->).
  rewrite flat_map_app in Hnodup.
  apply NoDup_app in Hnodup as (Hnodup_before & Hfresh & _).
  apply list_elem_of_lookup in Hchild as [i Hi].
  destruct (insertedInTurn_lookup _ _ _ _ _ _ _ _ i child Hbefore Hi)
    as (new & Hnew & Hentry).
  exists results1, idMap1, d1, t1, result, d2, t2, results2, t3, i, new.
  repeat (split; [done|]). split; [by apply Hentry|].
  assert (id child ∉ flat_map fragmentIds (el :: after)) as Hout.
  { apply Hfresh. eapply elem_of_flat_map_fragmentIds; [|apply fragmentIds_own].
    by eapply list_elem_of_lookup_2. }
  simpl in Hout. rewrite not_elem_of_app in Hout. destruct Hout as [Hout1 Hout2].
  apply insertedInTurn_records in Hafter as [Hkeep _]. rewrite Hkeep by done.
  destruct (insertShape_sound _ _ _ _ _ _ _ _ _ Hcall) as [_ [Hkeep' _]].
  by rewrite Hkeep'.
Qed.



Lemma get_absent key (o : gmap string string) :
  o !! key = None → JsObject.get key o = JsObject.get key ∅.
Proof. intros Hkey. apply get_ext. by rewrite Hkey, lookup_empty. Qed.

(** C2, amended. No call of [insertShape] returns [success = false]. A
    sequence flow with an end that the identifier map does not resolve is
    handed to the editor with that end looked up under what a read of an
    empty map gives for it, which is undefined unless the name is one that
    every object inherits. When the splice returns, the editor has
    returned a connection for this flow, every child of the same element
    has its entry in the identifier map, except under [__proto__], where
    the map stores nothing, and the flag is true; with an editor that
    returns no connection for such an end the splice throws. *)
Theorem unresolved_end_not_reported el parent idMap replace oldElement d :
  (∀ result d' t,
     insertShape el parent idMap replace oldElement d = Normal result d' t →
     Result.success result = true)
  ∧ ∀ els flow missing,
      flowElements el = Some els → flow ∈ els →
      type_ flow = "bpmn:SequenceFlow" →
      sourceRef flow = Some missing ∨ targetRef flow = Some missing →
      idMap !! missing = None → missing ∉ fragmentIds el →
      let unresolved := JsObject.get missing ∅ in
      (missing ∉ JsObject.prototypeNames → unresolved = JsObject.Undefined)
      ∧ (∀ result d' t,
           insertShape el parent idMap replace oldElement d = Normal result d' t →
           (∃ d1 d2 key1 key2 connection before after,
              let sourceElement := registryGet key1 d1 in
              let targetElement := registryGet key2 d1 in
              (key1 = unresolved ∨ key2 = unresolved)
              ∧ perform (Connect sourceElement targetElement (type_ flow)) d1
                = Returns (Some connection) d2
              ∧ t = before
                    ++ [Looked key1 sourceElement; Looked key2 targetElement;
                        Performed (Connect sourceElement targetElement (type_ flow))
                          (Some connection)]
                    ++ after)
           ∧ (∀ sibling, sibling ∈ els →
                (id sibling ≠ "__proto__" →
                 is_Some (Result.idMap result !! id sibling))
                ∧ JsObject.get (id sibling) (Result.idMap result)
                  ≠ JsObject.Undefined)
           ∧ Result.success result = true)
      ∧ ((∀ d1 key type connection d2,
            perform (Connect (registryGet unresolved d1) (registryGet key d1) type) d1
            ≠ Returns (Some connection) d2
            ∧ perform (Connect (registryGet key d1) (registryGet unresolved d1) type) d1
              ≠ Returns (Some connection) d2) →
         ∃ d' t, insertShape el parent idMap replace oldElement d = Threw d' t).
Proof.
  split; [intros result d' t Hrun; by eapply insertShape_sound|].
  intros els flow missing Hels Hflow Htype Hend Hmissing Hfresh unresolved.
  split.
  { intros Hname. unfold unresolved, JsObject.get.
    rewrite lookup_empty. by rewrite bool_decide_eq_false_2. }
  assert (∀ result d' t,
            insertShape el parent idMap replace oldElement d = Normal result d' t →
            ∃ d1 d2 key1 key2 connection before after,
              (key1 = unresolved ∨ key2 = unresolved)
              ∧ perform (Connect (registryGet key1 d1) (registryGet key2 d1)
                           (type_ flow)) d1
                = Returns (Some connection) d2
              ∧ t = before
                    ++ [Looked key1 (registryGet key1 d1);
                        Looked key2 (registryGet key2 d1);
                        Performed (Connect (registryGet key1 d1) (registryGet key2 d1)
                                     (type_ flow)) (Some connection)]
                    ++ after) as Hconnected.
  { intros result d' t Hrun.
    apply insertShape_Normal in Hrun as (t0 & d0 & results & t1 & _ & Hturn & -> & _).
    rewrite fragmentIds_below in Hfresh.
    apply not_elem_of_cons in Hfresh as [Hown Hfresh].
    destruct (insertedBelow_sequenceFlow el els flow Hels Hflow Htype)
      as (flows & post & Hbelow).
    rewrite Hbelow in Hturn, Hfresh.
    apply insertedInTurn_at in Hturn
      as (results1 & idMap1 & d1 & t2 & result2 & d2 & t3 & results2 & t4
          & Hpre & Hcall & Hpost & -> & _).
    rewrite flat_map_app in Hfresh. apply not_elem_of_app in Hfresh as [Hfresh _].
    assert (idMap1 !! missing = None) as Hnone.
    { apply insertedInTurn_records in Hpre as [Hkeep _].
      rewrite Hkeep by done. by rewrite set_other. }
    apply insertShape_Normal in Hcall as (t5 & d3 & rs & t6 & Hby & _ & -> & _).
    unfold insertedBy in Hby. rewrite Htype in Hby. simpl in Hby.
    destruct Hby as (s & g & d4 & rest & Hs & Hg & Hperform & ->).
    exists d1, d4, (JsObject.get s idMap1), (JsObject.get g idMap1),
      (Result.element result2), (t0 ++ t2), (rest ++ t6 ++ t4).
    split; [|split].
    - destruct Hend as [Hend|Hend]; [left | right];
        rewrite Hend in *; simplify_eq; by apply get_absent.
    - by rewrite Htype.
    - rewrite Htype. simpl. by rewrite <- !app_assoc. }
  split.
  - intros result d' t Hrun. split; [exact (Hconnected _ _ _ Hrun)|].
    destruct (insertShape_sound _ _ _ _ _ _ _ _ _ Hrun) as [Hflag Hrecords].
    split; [|done].
    intros sibling Hsibling.
    assert (id sibling ∈ fragmentIds el) as Hid
      by (eapply fragmentIds_child; [done | done | apply fragmentIds_own]).
    split; [by apply Hrecords | by eapply records_defined].
  - intros Hrefuses.
    destruct (insertShape el parent idMap replace oldElement d)
      as [result d' t|d' t] eqn:Hrun; [|by eauto].
    destruct (Hconnected _ _ _ eq_refl)
      as (d1 & d2 & key1 & key2 & connection & before & after & Hkey & Hperform & _).
    destruct (Hrefuses d1 key2 (type_ flow) connection d2) as [Hno1 _].
    destruct (Hrefuses d1 key1 (type_ flow) connection d2) as [_ Hno2].
    destruct Hkey as [->| ->]; contradiction.
Qed.

End Splicing.

(** Closed decidable propositions, such as [NoDup] of a list of ids. *)
Ltac decided := apply (bool_decide_unpack _); vm_compute; exact I.




(** The splice of the example in the small editor: the flow joins the shapes
    created for the two tasks, and the last command hands the editor the
    references to the two tasks of the fragment for the new connection. *)
Example splice_connects_new_shapes :
  connections (diagramOf splice) = [("Element_1", "Element_2", "bpmn:SequenceFlow")]
  ∧ Result.idMap (default noResult (@valueOf editor _ splice)) !! "Task_A"
    = Some "Element_1"
  ∧ Result.idMap (default noResult (@valueOf editor _ splice)) !! "Task_B"
    = Some "Element_2"
  ∧ last (traceOf splice)
    = Some (Performed (UpdateProperties "Element_3" (getPropertiesToCopy flowAB)) None)
  ∧ @getPropertiesToCopy string flowAB !! "sourceRef" = Some (PReference "Task_A")
  ∧ @getPropertiesToCopy string flowAB !! "targetRef" = Some (PReference "Task_B").
Proof. repeat split; vm_compute; exact eq_refl. Qed.


(** C2, as stated, fails. With an editor that returns no connection for an
    undefined end, the splice throws at the flow with the missing target, and
    the flow after it is left out: no connection is made. With an editor that
    connects whatever it is given, the splice returns [success = true]. *)
Lemma dangling_end_counterexample :
  spliceDangling = Threw (diagramOf spliceDangling) (traceOf spliceDangling)
  ∧ last (traceOf spliceDangling)
    = Some (Performed (Connect (Some "Element_1") None "bpmn:SequenceFlow") None)
  ∧ connections (diagramOf spliceDangling) = []
  ∧ Result.success <$> @valueOf lenientEditor _ spliceDanglingLenient = Some true.
Proof.
  split; [vm_cast_no_check (@eq_refl _ spliceDangling)|].
  repeat split; vm_compute; exact eq_refl.
Qed.

Lemma unresolved_end_not_reported_witness :
  (∃ d' t, spliceDangling = Threw d' t)
  ∧ (let result := default noResult (@valueOf lenientEditor _ spliceDanglingLenient) in
     (∀ sibling, sibling ∈ [flowAX; flowAA; taskA] →
        (id sibling ≠ "__proto__" → is_Some (Result.idMap result !! id sibling))
        ∧ JsObject.get (id sibling) (Result.idMap result) ≠ JsObject.Undefined)
     ∧ Result.success result = true).
Proof.
  split.
  - apply (proj2 (proj2 (proj2 (@unresolved_end_not_reported editor dangling
                                  (Some "Process_1") ∅ false None (opened []))
                           [flowAX; flowAA; taskA] flowAX "Task_X"
                           eq_refl ltac:(repeat constructor) eq_refl ltac:(by right)
                           eq_refl ltac:(decided)))).
    intros d1 key type connection d2. split; [discriminate|].
    simpl. by destruct (get key d1).
  - intros result.
    assert (spliceDanglingLenient
            = Normal result (@diagramOf lenientEditor _ spliceDanglingLenient)
                (@traceOf lenientEditor _ spliceDanglingLenient)) as Hrun
      by vm_cast_no_check (@eq_refl _ spliceDanglingLenient).
    exact (proj2 (proj1 (proj2 (proj2 (@unresolved_end_not_reported lenientEditor
                                         dangling (Some "Process_1") ∅ false None
                                         (opened []))
                                  [flowAX; flowAA; taskA] flowAX "Task_X"
                                  eq_refl ltac:(repeat constructor) eq_refl
                                  ltac:(by right) eq_refl ltac:(decided)))
                    result _ _ Hrun)).
Defined.

End SplicerProperties.
(** ** The orchestrator *)
Module OrchestratorProperties.
Import Utilities Host QuantMEMatcher QuantMETransformator Vocabulary Fixture.
Import SplicerProperties.

Section Discovery.
Context `{GraphHost}.

Lemma quiet_app (t1 t2 : list (Event Shape)) : quiet t1 → quiet t2 → quiet (t1 ++ t2).
Proof. intros. by apply Forall_app. Qed.


Lemma preorder_unfold container :
  preorder container
  = match flowElements container with
    | Some els => flat_map (foundIn container) els
    | None => []
    end.
Proof. by destruct container. Qed.


Lemma getQuantMETasks_loop_preorder container els quantmeTasks d :
  Forall discovers els →
  forallb (λ el, if String.eqb (type_ el) "bpmn:SubProcess"
                 then containersPresent el else true) els = true →
  ∃ trace,
    getQuantMETasks_loop getQuantMETasks (registryGet (JsObject.Str (id container)) d)
      els quantmeTasks d
    = Normal (quantmeTasks ++ map (entry d) (flat_map (foundIn container) els)) d trace
    ∧ quiet trace.
Proof.
  revert quantmeTasks. induction els as [|el els IH]; intros quantmeTasks Hels Hpresent.
  - exists []. simpl. rewrite app_nil_r. split; [done | constructor].
  - apply Forall_cons in Hels as [Hel Hels].
    simpl in Hpresent. apply andb_true_iff in Hpresent as [Hsub Hpresent].
    simpl. unfold foundIn at 1, isQuantMETask.
    rewrite map_app, app_assoc.
    destruct (String.eqb (type_ el) "bpmn:SubProcess").
    + destruct (Hel Hsub d) as (t1 & Hnested & Hquiet1).
      destruct (IH ((quantmeTasks
                     ++ map (entry d)
                          (if JsString.startsWith "quantme:" (type_ el)
                           then [(el, container)] else []))
                    ++ map (entry d) (preorder el)) Hels Hpresent)
        as (t2 & Hrest & Hquiet2).
      exists (t1 ++ t2). split; [|by apply quiet_app].
      apply bind_Normal. exists (map (entry d) (preorder el)), d, t1, t2.
      split; [done|]. split; [|done].
      rewrite map_app, app_assoc.
      by destruct (JsString.startsWith "quantme:" (type_ el));
        simpl in *; rewrite ?app_nil_r in *.
    + destruct (IH (quantmeTasks
                    ++ map (entry d)
                         (if JsString.startsWith "quantme:" (type_ el)
                          then [(el, container)] else [])) Hels Hpresent)
        as (t2 & Hrest & Hquiet2).
      exists t2. split; [|done]. simpl. rewrite app_nil_r.
      by destruct (JsString.startsWith "quantme:" (type_ el));
        simpl in *; rewrite ?app_nil_r in *.
Qed.

Lemma getQuantMETasks_discovers el : discovers el.
Proof.
  induction el as [el Hkids _] using Element_tree_ind.
  intros Hpresent d. rewrite preorder_unfold.
  destruct el as [type i attributes source target attached shape children arts].
  simpl in *. destruct children as [els|]; [|done]. simpl in Hkids.
  destruct (getQuantMETasks_loop_preorder
              (mkElement type i attributes source target attached shape (Some els) arts)
              els [] d Hkids Hpresent) as (trace & Hloop & Hquiet).
  exists (Looked (JsObject.Str i) (registryGet (JsObject.Str i) d) :: trace). split.
  - apply bind_Normal.
    exists (registryGet (JsObject.Str i) d), d, [Looked (JsObject.Str i) (registryGet (JsObject.Str i) d)], trace.
    split; [done|]. split; [|done]. exact Hloop.
  - by constructor.
Qed.

Lemma walk_unfold container :
  walk container
  = match flowElements container with
    | Some els =>
        flat_map
          (λ el, (if isQuantMETask el then [(el, container)] else []) ++ walk el)
          els
    | None => []
    end.
Proof. by destruct container. Qed.

(** The walk finds the QuantME nodes of the graph, each with the container
    that holds it. *)
Lemma walk_heldIn graph task container :
  (task, container) ∈ walk graph ↔ heldIn graph container task.
Proof.
  split.
  - revert task container.
    induction graph as [graph Hkids _] using Element_tree_ind.
    intros task container Hin. rewrite walk_unfold in Hin.
    destruct (flowElements graph) as [els|] eqn:Hels; [|inversion Hin].
    simpl in Hkids.
    apply list_elem_of_In, in_flat_map in Hin as (el & Hel & Hin).
    apply list_elem_of_In in Hel. apply list_elem_of_In in Hin.
    apply elem_of_app in Hin as [Hin|Hin].
    + destruct (isQuantMETask el) eqn:Hquantme; [|inversion Hin].
      apply list_elem_of_singleton in Hin as [= -> ->].
      by eapply heldIn_here.
    + eapply heldIn_nested; [done | done |].
      rewrite Forall_forall in Hkids. by apply Hkids.
  - induction 1 as [container els task Hels Htask Hquantme
                   |graph els inner container task Hels Hinner _ IH];
      rewrite walk_unfold, Hels; apply list_elem_of_In, in_flat_map.
    + exists task. split; [by apply list_elem_of_In|].
      apply list_elem_of_In. rewrite Hquantme.
      apply elem_of_app. left. by apply list_elem_of_singleton.
    + exists inner. split; [by apply list_elem_of_In|].
      apply list_elem_of_In. apply elem_of_app. by right.
Qed.

Lemma tasksInSubProcesses_loop container els :
  Forall (λ el, tasksInSubProcesses el = true →
                containersPresent el = true ∧ walk el = preorder el) els →
  forallb (λ el, if String.eqb (type_ el) "bpmn:SubProcess"
                 then tasksInSubProcesses el
                 else match walk el with [] => true | _ :: _ => false end) els = true →
  forallb (λ el, if String.eqb (type_ el) "bpmn:SubProcess"
                 then containersPresent el else true) els = true
  ∧ flat_map
      (λ el, (if isQuantMETask el then [(el, container)] else []) ++ walk el) els
    = flat_map (foundIn container) els.
Proof.
  induction 1 as [|el els Hel _ IH]; [done|].
  simpl. intros Hall. apply andb_true_iff in Hall as [Hhead Hall].
  destruct (IH Hall) as [Hpresent Hwalk].
  rewrite Hpresent, Hwalk. unfold foundIn at 2.
  destruct (String.eqb (type_ el) "bpmn:SubProcess").
  - destruct (Hel Hhead) as [-> ->]. done.
  - by destruct (walk el).
Qed.

(** When the QuantME nodes are held in sub-processes, the containers that
    [getQuantMETasks] goes through have their flow elements, and it goes
    through every container that holds a QuantME node. *)
Lemma tasksInSubProcesses_preorder el :
  tasksInSubProcesses el = true →
  containersPresent el = true ∧ walk el = preorder el.
Proof.
  induction el as [el Hkids _] using Element_tree_ind.
  rewrite walk_unfold, preorder_unfold.
  destruct el as [type i attributes source target attached shape children arts].
  simpl in *. destruct children as [els|]; [|done]. simpl in Hkids.
  by apply tasksInSubProcesses_loop.
Qed.

(** C8, amended. What discovery is to find are the QuantME nodes of the
    process and of every container nested in it, in pre-order, each with
    the container that has the node among its flow elements.
    [getQuantMETasks] goes into the nodes of type [bpmn:SubProcess] only:
    on a process whose QuantME nodes are held in the process and in
    sub-processes nested through sub-processes, each with its flow
    elements, it changes nothing and returns exactly these nodes in this
    order, each with what the registry holds for its container. *)
Theorem getQuantMETasks_preorder (process : Element) (d : Diagram) :
  (∀ task container,
     (task, container) ∈ walk process ↔ heldIn process container task)
  ∧ (tasksInSubProcesses process = true →
     ∃ trace,
       getQuantMETasks process d = Normal (map (entry d) (walk process)) d trace
       ∧ quiet trace).
Proof.
  split; [intros; apply walk_heldIn|].
  intros Htasks.
  apply tasksInSubProcesses_preorder in Htasks as [Hpresent ->].
  by apply getQuantMETasks_discovers.
Qed.

End Discovery.

Section Pass.
Context `{GraphHost} `{ModelerGenerator}.


Lemma silent_bind {A B} (m : M A) (k : A → M B) d :
  silent m d → (∀ a, silent (k a) d) → silent (m ≫= k) d.
Proof.
  unfold silent, mbind, M_bind, bind. intros [Hd Hq] Hk.
  destruct (m d) as [a d1 t1|d1 t1]; simpl in *; [|done]. subst d1.
  destruct (Hk a) as [Hd2 Hq2].
  destruct (k a d) as [b d2 t2|d2 t2]; simpl in *; (split; [done | by apply quiet_app]).
Qed.

Lemma silent_ret {A} (a : A) d : silent (mret a) d.
Proof. split; [done | constructor]. Qed.

Lemma silent_defined {A} (v : option A) d : silent (defined v) d.
Proof. destruct v; (split; [done | constructor]). Qed.

Lemma silent_lookup key d : silent (lookup key) d.
Proof. split; [done | by repeat constructor]. Qed.

Lemma silent_notify content d : silent (notify content) d.
Proof. split; [done | by repeat constructor]. Qed.

(** Discovery looks into the registry and does nothing else. *)
Lemma getQuantMETasks_silent process d : silent (getQuantMETasks process) d.
Proof.
  revert d. induction process as [process Hkids _] using Element_tree_ind. intros d.
  destruct process as [type i attributes source target attached shape children arts].
  simpl in *. apply silent_bind; [apply silent_lookup|]. intros processBo.
  destruct children as [els|]; [|split; [done | constructor]].
  simpl in Hkids. generalize (@nil ReplacementTask) as quantmeTasks.
  induction els as [|el els IH]; intros quantmeTasks; simpl; [apply silent_ret|].
  apply Forall_cons in Hkids as [Hel Hels].
  destruct (String.eqb (type_ el) "bpmn:SubProcess"); [|by apply IH].
  apply silent_bind; [apply Hel|]. intros nested. by apply IH.
Qed.


(** The search for replacement models notifies the user and does nothing
    else. *)
Lemma findReplacementModels_silent QRMs replacementTasks d :
  silent (findReplacementModels QRMs replacementTasks) d.
Proof.
  induction replacementTasks as [|rt rest IH]; simpl; [apply silent_ret|].
  apply silent_bind; [apply silent_defined|]. intros [qrm|].
  - apply silent_bind; [done|]. intros others. apply silent_ret.
  - apply silent_bind; [apply silent_notify|]. intros _. apply silent_ret.
Qed.


Lemma findReplacementModels_resolved QRMs replacementTasks d resolved d' t :
  findReplacementModels QRMs replacementTasks d = Normal (inr resolved) d' t →
  Forall (resolves QRMs) replacementTasks.
Proof.
  revert resolved d' t.
  induction replacementTasks as [|rt rest IH]; intros resolved d' t Hfind; [constructor|].
  simpl in Hfind.
  apply bind_Normal in Hfind as (qrm & d1 & t1 & t2 & Hqrm & Hfind & ->).
  apply defined_Normal in Hqrm as (Hqrm & -> & ->).
  destruct qrm as [qrm|].
  - apply bind_Normal in Hfind as (others & d2 & t3 & t4 & Hothers & Hret & ->).
    apply ret_Normal in Hret as (Hret & -> & ->).
    destruct others as [taskId|others]; [done|].
    constructor; [by exists qrm | by eapply IH].
  - apply bind_Normal in Hfind as (u & d2 & t3 & t4 & _ & Hret & ->).
    by apply ret_Normal in Hret as (Hret & _).
Qed.


End Pass.

(** C8, as stated, fails. A QuantME task in a [bpmn:Transaction] is a node
    of a nested container, but [getQuantMETasks] does not go into the
    transaction and returns no task. *)
Lemma task_in_transaction_counterexample :
  let process := container "bpmn:Process" "Process_1" [transaction] in
  heldIn process transaction taskT
  ∧ walk process = [(taskT, transaction)]
  ∧ @getQuantMETasks editor process (opened [transaction])
    = @Normal editor _ [] (opened [transaction])
        [Looked (JsObject.Str "Process_1") (Some "Process_1")].
Proof.
  split; [|split; reflexivity].
  eapply heldIn_nested; [reflexivity | repeat constructor |].
  eapply heldIn_here; [reflexivity | repeat constructor | reflexivity].
Qed.

Lemma getQuantMETasks_preorder_witness :
  (∃ trace,
     @getQuantMETasks editor nestedProcess (opened [outerSubProcess])
     = @Normal editor _
         (map (@entry editor (opened [outerSubProcess])) (walk nestedProcess))
         (opened [outerSubProcess]) trace
     ∧ @quiet editor trace)
  ∧ walk nestedProcess = [(taskT, innerSubProcess)]
  ∧ map (@entry editor (opened [outerSubProcess])) (walk nestedProcess)
    = [@mkReplacementTask editor taskT (Some "Sub_2") None].
Proof.
  split; [|split; reflexivity].
  apply (proj2 (@getQuantMETasks_preorder editor nestedProcess (opened [outerSubProcess]))
           eq_refl).
Defined.

(** Without the flow elements of a container the loop has nothing to read:
    on a sub-process whose [flowElements] are undefined, discovery throws. *)
Example getQuantMETasks_undefined_flowElements :
  @getQuantMETasks editor
    (container "bpmn:Process" "Process_1" [node "bpmn:SubProcess" "Sub_1" []; taskT])
    (opened [])
  = @Threw editor _ (opened [])
      [Looked (JsObject.Str "Process_1") (Some "Process_1"); Looked (JsObject.Str "Sub_1") None].
Proof. reflexivity. Qed.


End OrchestratorProperties.

(** * Further properties *)

(** ** Strings and the property matcher *)
Module MatcherCoverage.
Import Utilities QuantMEMatcher Vocabulary Coverage MatcherProperties.

Lemma trimStart_startsTrimmed s : startsTrimmed (JsString.trimStart s).
Proof.
  induction s as [|c rest IH]; simpl; [done|].
  destruct (JsString.isWhiteSpace c) eqn:Hc; [done | by simpl].
Qed.

Lemma trimStart_fixed s : startsTrimmed s → JsString.trimStart s = s.
Proof. destruct s as [|c rest]; simpl; [done | by intros ->]. Qed.

Lemma trimEnd_startsTrimmed s : startsTrimmed s → startsTrimmed (JsString.trimEnd s).
Proof. destruct s as [|c rest]; simpl; [done|]. intros Hc. by rewrite Hc. Qed.

Lemma trimEnd_idempotent s : JsString.trimEnd (JsString.trimEnd s) = JsString.trimEnd s.
Proof.
  induction s as [|c rest IH]; simpl; [done|].
  destruct (JsString.isWhiteSpace c && String.eqb (JsString.trimEnd rest) EmptyString)
    eqn:Hc; simpl; [done|].
  by rewrite IH, Hc.
Qed.

(** Trimming a trimmed string changes nothing. *)
Lemma trim_idempotent s : JsString.trim (JsString.trim s) = JsString.trim s.
Proof.
  unfold JsString.trim.
  rewrite (trimStart_fixed (JsString.trimEnd (JsString.trimStart s)))
    by apply trimEnd_startsTrimmed, trimStart_startsTrimmed.
  apply trimEnd_idempotent.
Qed.

Lemma isWhiteSpace_neq c c' :
  JsString.isWhiteSpace c = false → JsString.isWhiteSpace c' = true → Ascii.eqb c' c = false.
Proof. intros Hc Hc'. apply Ascii.eqb_neq. congruence. Qed.

Lemma includes_trimStart c s :
  JsString.isWhiteSpace c = false →
  JsString.includes c (JsString.trimStart s) = JsString.includes c s.
Proof.
  intros Hc. induction s as [|c' rest IH]; simpl; [done|].
  destruct (JsString.isWhiteSpace c') eqn:Hc'; [|done].
  by rewrite (isWhiteSpace_neq c c').
Qed.

Lemma includes_trimEnd c s :
  JsString.isWhiteSpace c = false →
  JsString.includes c (JsString.trimEnd s) = JsString.includes c s.
Proof.
  intros Hc. induction s as [|c' rest IH]; simpl; [done|].
  destruct (JsString.isWhiteSpace c') eqn:Hc'; simpl.
  - destruct (String.eqb_spec (JsString.trimEnd rest) EmptyString) as [Hempty|Hrest]; simpl.
    + rewrite (isWhiteSpace_neq c c') by done. rewrite <- IH, Hempty. done.
    + by rewrite IH.
  - by rewrite IH.
Qed.

Lemma includes_trim c s :
  JsString.isWhiteSpace c = false →
  JsString.includes c (JsString.trim s) = JsString.includes c s.
Proof.
  intros Hc. unfold JsString.trim. by rewrite includes_trimEnd, includes_trimStart.
Qed.

(** No entry of a split string holds the separator. *)
Lemma split_no_separator c s entry :
  entry ∈ JsString.split c s → JsString.includes c entry = false.
Proof.
  revert entry. induction s as [|c' rest IH]; intros entry Hentry; simpl in Hentry.
  - by apply list_elem_of_singleton in Hentry as ->.
  - destruct (Ascii.eqb c' c) eqn:Hc'.
    + apply elem_of_cons in Hentry as [->|Hentry]; [done | by apply IH].
    + destruct (JsString.split c rest) as [|w ws].
      * apply list_elem_of_singleton in Hentry as ->. simpl. by rewrite Hc'.
      * apply elem_of_cons in Hentry as [->|Hentry].
        -- simpl. rewrite Hc'. apply IH. left.
        -- apply IH. by right.
Qed.

Lemma matchesAnyValue_trim valueList t :
  matchesAnyValue valueList (JsString.trim t) = matchesAnyValue valueList t.
Proof.
  induction valueList as [|v rest IH]; simpl; [done|].
  by rewrite trim_idempotent, IH.
Qed.

(** X1. White space around the value of the task makes no difference to
    [matchesProperty]. *)
Theorem matchesProperty_trims_task detectorProperty t required :
  matchesProperty detectorProperty (Some (JsString.trim t)) required
  = matchesProperty detectorProperty (Some t) required.
Proof.
  destruct detectorProperty as [d|]; simpl; [|done].
  destruct (String.eqb d "*"); [done|].
  destruct (JsString.includes "," d).
  - apply matchesAnyValue_trim.
  - by rewrite trim_idempotent.
Qed.

(** X2. A value of the task that holds a comma is matched by the wildcard
    and by no other detector value: a list is split at its commas, and a
    single value is compared as a whole. *)
Theorem matchesProperty_comma_in_task d t required :
  JsString.includes "," t = true →
  matchesProperty (Some d) (Some t) required = true ↔ d = "*".
Proof.
  intros Hcomma. split; [|by intros ->].
  intros Hmatch. destruct (decide (d = "*")) as [|Hd]; [done|]. exfalso.
  apply (matchesProperty_no_wildcard d (Some t) required Hd) in Hmatch.
  assert (JsString.includes "," (JsString.trim t) = true) as Ht
    by (by rewrite includes_trim).
  destruct (JsString.includes "," d) eqn:Hlist.
  - destruct Hmatch as (v & Hv & Htrim).
    apply split_no_separator in Hv.
    rewrite <- Htrim, includes_trim in Ht by done. congruence.
  - rewrite <- Hmatch, includes_trim in Ht by done. congruence.
Qed.

Lemma matchesProperty_comma_in_task_witness :
  matchesProperty (Some "a,b") (Some "a,b") true = true ↔ "a,b" = "*".
Proof. by apply (matchesProperty_comma_in_task "a,b" "a,b" true). Defined.

(** [taskMatchesDetector] is the comparison of the types followed by the
    checks of the table for the kind of the task. *)
Lemma taskMatchesDetector_table detectorElement task :
  taskMatchesDetector detectorElement task
  = String.eqb (type_ detectorElement) (type_ task)
    && existsb (String.eqb (type_ task)) supportedKinds
    && forallb (λ a, matchesProperty (attr a.1 detectorElement) (attr a.1 task) a.2)
         (comparedAttributes (type_ task))
    && match alternativeAttributes (type_ task) with
       | [] => true
       | names =>
           matchAlternativeProperties (attributeValues names detectorElement)
             (attributeValues names task)
       end.
Proof.
  unfold taskMatchesDetector, supportedKinds, comparedAttributes, alternativeAttributes.
  destruct (String.eqb (type_ detectorElement) (type_ task)); simpl; [|done].
  destruct (String.eqb_spec (type_ task) "quantme:QuantumComputationTask") as [Hkind|_].
  { rewrite ?Hkind. unfold matchQuantumComputationTask. simpl. by rewrite !andb_true_r. }
  destruct (String.eqb_spec (type_ task) "quantme:QuantumCircuitLoadingTask") as [Hkind|_].
  { rewrite ?Hkind. done. }
  destruct (String.eqb_spec (type_ task) "quantme:DataPreparationTask") as [Hkind|_].
  { rewrite ?Hkind. unfold matchDataPreparationTask. simpl. by rewrite !andb_true_r. }
  destruct (String.eqb_spec (type_ task) "quantme:OracleExpansionTask") as [Hkind|_].
  { rewrite ?Hkind. unfold matchOracleExpansionTask. simpl. by rewrite !andb_true_r. }
  destruct (String.eqb_spec (type_ task) "quantme:QuantumCircuitExecutionTask") as [Hkind|_].
  { rewrite ?Hkind. unfold matchQuantumCircuitExecutionTask. simpl.
    by rewrite !andb_true_r, !andb_assoc. }
  destruct (String.eqb_spec (type_ task) "quantme:ReadoutErrorMitigationTask") as [Hkind|_].
  { rewrite ?Hkind. unfold matchReadoutErrorMitigationTask. simpl.
    by rewrite !andb_true_r, !andb_assoc. }
  done.
Qed.

Lemma matchesProperty_true detectorProperty taskProperty required :
  matchesProperty detectorProperty taskProperty required = true →
  is_Some detectorProperty
  ∧ (required = true → taskProperty = None → detectorProperty = Some "*").
Proof.
  destruct detectorProperty as [d|]; simpl; [|done].
  destruct (String.eqb_spec d "*") as [->|_]; [done|].
  destruct taskProperty as [t|]; [done|].
  destruct required; [done|]. intros _. split; [by eexists | done].
Qed.

Lemma definedCount_1_lookup values :
  definedCount values = 1 → ∃ i v, values !! i = Some (Some v).
Proof.
  induction values as [|w values IH]; [done|].
  rewrite definedCount_cons. destruct w as [v|].
  - intros _. by exists 0, v.
  - intros Hcount. destruct (IH Hcount) as (i & v & Hi). by exists (S i), v.
Qed.

(** A match of alternatives: the task sets exactly one of them, and the
    detector value of that one matches it. *)
Lemma matchAlternativeProperties_true detectorProperties taskProperties :
  matchAlternativeProperties detectorProperties taskProperties = true ↔
  length detectorProperties = length taskProperties
  ∧ definedCount taskProperties = 1
  ∧ ∀ i v, taskProperties !! i = Some (Some v) →
           matchesProperty (mjoin (detectorProperties !! i)) (Some v) true = true.
Proof.
  unfold matchAlternativeProperties.
  destruct (Nat.eqb_spec (length detectorProperties) (length taskProperties)) as [Hlen|Hlen];
    simpl; [|split; [done | by intros (? & _)]].
  destruct (definedCount taskProperties) as [|[|n]] eqn:Hcount.
  - rewrite searchAlternative_none_left by done. simpl.
    split; [done | by intros (_ & ? & _)].
  - destruct (definedCount_1_lookup _ Hcount) as (i & v & Hi).
    rewrite (searchAlternative_single _ 0 _ i v) by done. simpl. split.
    + intros Hmatch. repeat split; [done|]. intros j w Hj.
      pose proof (searchAlternative_single detectorProperties 0 taskProperties
                    i v None Hcount Hi) as Hsearch.
      rewrite (searchAlternative_single detectorProperties 0 taskProperties
                 j w None Hcount Hj) in Hsearch.
      injection Hsearch as -> Heq. simpl in Heq. by rewrite Heq.
    + intros (_ & _ & Hall). by apply Hall.
  - rewrite searchAlternative_many by lia. split; [done | by intros (_ & ? & _)].
Qed.

Lemma taskMatchesDetector_quantme detectorElement task :
  taskMatchesDetector detectorElement task = true → isQuantMETask task = true.
Proof.
  rewrite taskMatchesDetector_table, !andb_true_iff.
  intros [[[_ Hkind] _] _].
  apply existsb_exists in Hkind as (kind & Hin & Hkind).
  apply String.eqb_eq in Hkind. subst kind.
  unfold isQuantMETask. simpl in Hin.
  by repeat (destruct Hin as [<-|Hin]; [done|]).
Qed.

(** X3. A detector only matches a task of its own type, and only for the
    six kinds of QuantME task that the matcher knows. *)
Theorem taskMatchesDetector_kinds detectorElement task :
  taskMatchesDetector detectorElement task = true →
  type_ detectorElement = type_ task
  ∧ type_ task ∈ supportedKinds
  ∧ isQuantMETask task = true.
Proof.
  rewrite taskMatchesDetector_table, !andb_true_iff.
  intros [[[Htype Hkind] _] _].
  apply String.eqb_eq in Htype.
  apply existsb_exists in Hkind as (kind & Hin & Hkind).
  apply String.eqb_eq in Hkind. subst kind.
  split; [done|]. split; [by apply list_elem_of_In|].
  unfold isQuantMETask. simpl in Hin.
  by repeat (destruct Hin as [<-|Hin]; [done|]).
Qed.

Lemma taskMatchesDetector_kinds_witness :
  type_ Fixture.taskT ∈ supportedKinds ∧ isQuantMETask Fixture.taskT = true.
Proof.
  apply (taskMatchesDetector_kinds
           (Fixture.node "quantme:QuantumComputationTask" "Task_1"
              [("algorithm", "x,y"); ("provider", "*")]) Fixture.taskT).
  reflexivity.
Defined.

(** X4. When a detector matches a task, the detector defines every
    attribute that the matcher compares for the kind, the optional ones
    included; an attribute that the task must have and lacks is only
    matched by the wildcard; and of the alternative attributes of the kind
    the task sets exactly one, which the detector defines as well. *)
Theorem taskMatchesDetector_attributes detectorElement task :
  taskMatchesDetector detectorElement task = true →
  (∀ name required,
     (name, required) ∈ comparedAttributes (type_ task) →
     is_Some (attr name detectorElement)
     ∧ (required = true → attr name task = None →
        attr name detectorElement = Some "*"))
  ∧ (alternativeAttributes (type_ task) ≠ [] →
     definedCount (attributeValues (alternativeAttributes (type_ task)) task) = 1
     ∧ ∀ name, name ∈ alternativeAttributes (type_ task) →
               is_Some (attr name task) → is_Some (attr name detectorElement)).
Proof.
  rewrite taskMatchesDetector_table, !andb_true_iff.
  intros [[_ Hcompared] Halternatives]. split.
  - intros name required Hin.
    rewrite forallb_forall in Hcompared.
    apply list_elem_of_In in Hin.
    by apply (matchesProperty_true _ _ _ (Hcompared _ Hin)).
  - intros Hnames.
    destruct (alternativeAttributes (type_ task)) as [|name names] eqn:Hkind; [done|].
    apply matchAlternativeProperties_true in Halternatives as (_ & Hcount & Hall).
    split; [done|]. intros a Ha [v Hv].
    apply list_elem_of_lookup in Ha as [i Hi].
    assert (attributeValues (name :: names) task !! i = Some (Some v)) as Htask.
    { unfold attributeValues. by rewrite list_lookup_fmap, Hi, <- Hv. }
    apply Hall, matchesProperty_true in Htask as [Hdefined _].
    unfold attributeValues in Hdefined.
    by rewrite list_lookup_fmap, Hi in Hdefined.
Qed.

Lemma taskMatchesDetector_attributes_witness :
  is_Some (attr "provider"
             (Fixture.node "quantme:QuantumComputationTask" "Task_1"
                [("algorithm", "x,y"); ("provider", "*")])).
Proof.
  apply (proj1 (taskMatchesDetector_attributes
                  (Fixture.node "quantme:QuantumComputationTask" "Task_1"
                     [("algorithm", "x,y"); ("provider", "*")]) Fixture.taskT eq_refl)
           "provider" false).
  repeat constructor.
Defined.

(** X5. A detector of a known kind with the wildcard in every attribute
    matches a task of its type exactly when the kind has no alternative
    attributes or the task sets exactly one of them. *)
Theorem taskMatchesDetector_wildcards detectorElement task :
  type_ detectorElement = type_ task →
  type_ task ∈ supportedKinds →
  (∀ name required, (name, required) ∈ comparedAttributes (type_ task) →
                    attr name detectorElement = Some "*") →
  (∀ name, name ∈ alternativeAttributes (type_ task) →
           attr name detectorElement = Some "*") →
  taskMatchesDetector detectorElement task = true ↔
  (alternativeAttributes (type_ task) = []
   ∨ definedCount (attributeValues (alternativeAttributes (type_ task)) task) = 1).
Proof.
  intros Htype Hkind Hcompared Halternatives.
  rewrite taskMatchesDetector_table, !andb_true_iff.
  assert (forallb (λ a, matchesProperty (attr a.1 detectorElement) (attr a.1 task) a.2)
            (comparedAttributes (type_ task)) = true) as Hall.
  { apply forallb_forall. intros [name required] Hin. simpl.
    by rewrite (Hcompared name required) by (by apply list_elem_of_In). }
  assert (existsb (String.eqb (type_ task)) supportedKinds = true) as Hknown.
  { apply existsb_exists. exists (type_ task).
    split; [by apply list_elem_of_In | apply String.eqb_refl]. }
  rewrite Htype, String.eqb_refl, Hall, Hknown.
  destruct (alternativeAttributes (type_ task)) as [|name names] eqn:Hnames.
  - split; [by left | done].
  - rewrite matchAlternativeProperties_true. split.
    + intros (_ & _ & Hcount & _). by right.
    + intros [|Hcount]; [done|]. repeat split; [|done|].
      * unfold attributeValues. by rewrite !length_map.
      * intros i v Hi. unfold attributeValues in *.
        rewrite list_lookup_fmap in Hi |- *.
        destruct ((name :: names) !! i) as [a|] eqn:Ha; [|done]. simpl.
        by rewrite Halternatives by (by eapply list_elem_of_lookup_2).
Qed.

Lemma taskMatchesDetector_wildcards_witness :
  taskMatchesDetector
    (Fixture.node "quantme:QuantumCircuitLoadingTask" "Task_1"
       [("quantumCircuit", "*"); ("url", "*")])
    (Fixture.node "quantme:QuantumCircuitLoadingTask" "Task_2"
       [("quantumCircuit", "c"); ("url", "u")]) = true ↔
  ["quantumCircuit"; "url"] = []
  ∨ definedCount [Some "c"; Some "u"] = 1.
Proof.
  apply (taskMatchesDetector_wildcards
           (Fixture.node "quantme:QuantumCircuitLoadingTask" "Task_1"
              [("quantumCircuit", "*"); ("url", "*")])
           (Fixture.node "quantme:QuantumCircuitLoadingTask" "Task_2"
              [("quantumCircuit", "c"); ("url", "u")])).
  - reflexivity.
  - repeat constructor.
  - intros name required Hin. inversion Hin.
  - intros name Hin. simpl in Hin.
    apply elem_of_cons in Hin as [->|Hin]; [done|].
    apply list_elem_of_singleton in Hin as ->. done.
Defined.

End MatcherCoverage.

(** ** Utilities, the resolver, the predecessor and the client *)
Module ResolverCoverage.
Import Utilities QuantMEMatcher QuantMETransformator Host Vocabulary Coverage.
Import MatcherCoverage SplicerProperties.

Lemma getRootProcess_loop_Some rootElements process :
  getRootProcess_loop rootElements = Some process ↔
  ∃ before after,
    rootElements = before ++ process :: after
    ∧ type_ process = "bpmn:Process"
    ∧ Forall (λ el, type_ el ≠ "bpmn:Process") before.
Proof.
  induction rootElements as [|el rest IH]; simpl.
  - split; [done | intros ([|??] & ? & ? & _); done].
  - destruct (String.eqb_spec (type_ el) "bpmn:Process") as [Htype|Htype].
    + split.
      * intros [= ->]. by exists [], rest.
      * intros (before & after & Heq & _ & Hbefore).
        destruct before as [|first before]; simpl in Heq; [by injection Heq as ->|].
        injection Heq as -> _. by apply Forall_cons in Hbefore as [? _].
    + rewrite IH. split.
      * intros (before & after & -> & Hprocess & Hbefore).
        exists (el :: before), after. by repeat constructor.
      * intros (before & after & Heq & Hprocess & Hbefore).
        destruct before as [|first before]; simpl in Heq.
        -- injection Heq as -> _. done.
        -- injection Heq as -> ->. apply Forall_cons in Hbefore as [_ Hbefore].
           by exists before, after.
Qed.

(** X6. [getRootProcess] returns the first root element of type
    [bpmn:Process], and undefined exactly when there is none. *)
Theorem getRootProcess_first definitions :
  (∀ process,
     getRootProcess definitions = Some process ↔
     ∃ before after,
       rootElements definitions = before ++ process :: after
       ∧ type_ process = "bpmn:Process"
       ∧ Forall (λ el, type_ el ≠ "bpmn:Process") before)
  ∧ (getRootProcess definitions = None ↔
     Forall (λ el, type_ el ≠ "bpmn:Process") (rootElements definitions)).
Proof.
  unfold getRootProcess. split; [intros; apply getRootProcess_loop_Some|].
  induction (rootElements definitions) as [|el rest IH]; simpl; [done|].
  destruct (String.eqb_spec (type_ el) "bpmn:Process") as [Htype|Htype].
  - split; [done | by intros [? _]%Forall_cons].
  - rewrite IH. split; [by constructor | by intros [_ ?]%Forall_cons].
Qed.

(** X7. [getPropertiesToCopy] never copies [id], [flowElements],
    [artifacts] or a property whose name starts with [$]. It copies the
    references [sourceRef], [targetRef] and [attachedToRef] of the element
    as they are, which point into the replacement fragment, and every
    attribute under another name with its value. *)
Theorem getPropertiesToCopy_keys {Shape} (el : Element) :
  (∀ key,
     key = "id" ∨ key = "flowElements" ∨ key = "artifacts"
     ∨ JsString.startsWith "$" key = true →
     @getPropertiesToCopy Shape el !! key = None)
  ∧ (∀ ref, sourceRef el = Some ref →
       @getPropertiesToCopy Shape el !! "sourceRef" = Some (PReference ref))
  ∧ (∀ ref, targetRef el = Some ref →
       @getPropertiesToCopy Shape el !! "targetRef" = Some (PReference ref))
  ∧ (∀ ref, attachedToRef el = Some ref →
       @getPropertiesToCopy Shape el !! "attachedToRef" = Some (PReference ref))
  ∧ (∀ key value,
       attrs el !! key = Some value →
       key ≠ "id" → key ≠ "flowElements" → key ≠ "artifacts" →
       JsString.startsWith "$" key = false →
       key ∉ ["sourceRef"; "targetRef"; "attachedToRef"; "di"] →
       @getPropertiesToCopy Shape el !! key = Some (PString value)).
Proof.
  unfold getPropertiesToCopy. split; [|split; [|split; [|split]]].
  - intros key Hkey. apply map_lookup_filter_None. right. intros value _. simpl.
    unfold copied.
    destruct Hkey as [->|[->|[->| ->]]]; done.
  - intros ref Href. apply map_lookup_filter_Some. split; [|done].
    rewrite ownProperties_lookup, Href. simpl.
    by destruct (di el), (attrs el !! "sourceRef").
  - intros ref Href. apply map_lookup_filter_Some. split; [|done].
    rewrite ownProperties_lookup, Href. simpl.
    by destruct (di el), (attrs el !! "targetRef").
  - intros ref Href. apply map_lookup_filter_Some. split; [|done].
    rewrite ownProperties_lookup, Href. simpl.
    by destruct (di el), (attrs el !! "attachedToRef").
  - intros key value Hvalue Hid Hflow Harts Hdollar Hother.
    apply map_lookup_filter_Some. split.
    + rewrite ownProperties_lookup, Hvalue.
      rewrite !not_elem_of_cons in Hother. destruct Hother as (? & ? & ? & ? & _).
      by rewrite !decide_False by done.
    + simpl. unfold copied. rewrite Hdollar.
      apply String.eqb_neq in Hid, Hflow, Harts. by rewrite Hid, Hflow, Harts.
Qed.

Lemma getPropertiesToCopy_keys_witness :
  @getPropertiesToCopy string Fixture.flowAB !! "sourceRef" = Some (PReference "Task_A")
  ∧ @getPropertiesToCopy string Fixture.flowAB !! "id" = None.
Proof.
  split.
  - apply (proj1 (proj2 (@getPropertiesToCopy_keys string Fixture.flowAB))). reflexivity.
  - apply (proj1 (@getPropertiesToCopy_keys string Fixture.flowAB)). by left.
Defined.

Section Resolver.
Context `{ModelerGenerator}.

Lemma matchesQRM_true (qrm : QRM) (task : Element) :
  matchesQRM qrm task = Some true →
  ∃ detectorElement, taskMatchesDetector detectorElement task = true.
Proof.
  unfold matchesQRM.
  destruct (getRootProcessFromXml (detector qrm)) as [process|]; simpl; [|done].
  destruct (getSingleFlowElement process) as [[detectorElement|]|]; simpl; [|done|done].
  destruct (isQuantMETask detectorElement); simpl; [|done].
  intros [= Hmatch]. by exists detectorElement.
Qed.

(** X8. [matchesQRM] returns true exactly for a detector that parses to a
    process with a single flow element, a QuantME task that matches the
    task; it throws exactly when the detector does not parse, has no
    process among its root elements or a process without flow elements.
    Every other detector, one with no or several flow elements among them,
    gives false. *)
Theorem matchesQRM_outcomes (qrm : QRM) (task : Element) :
  (matchesQRM qrm task = Some true ↔
   ∃ definitions process detectorElement,
     createModelerFromXml (detector qrm) = Some definitions
     ∧ getRootProcess definitions = Some process
     ∧ flowElements process = Some [detectorElement]
     ∧ isQuantMETask detectorElement = true
     ∧ taskMatchesDetector detectorElement task = true)
  ∧ (matchesQRM qrm task = None ↔
     createModelerFromXml (detector qrm) = None
     ∨ ∃ definitions,
         createModelerFromXml (detector qrm) = Some definitions
         ∧ (getRootProcess definitions = None
            ∨ ∃ process, getRootProcess definitions = Some process
                         ∧ flowElements process = None)).
Proof.
  unfold matchesQRM, getRootProcessFromXml, getSingleFlowElement.
  destruct (createModelerFromXml (detector qrm)) as [definitions|] eqn:Hxml; simpl.
  2: { split; [split; [done | by intros (? & ? & ? & ? & _)] | split; [by left | done]]. }
  destruct (getRootProcess definitions) as [process|] eqn:Hroot; simpl.
  2: { split; [split; [done | intros (? & ? & ? & [= <-] & ? & _); congruence]|].
       split; [|done]. intros _. right. exists definitions. split; [done | by left]. }
  destruct (flowElements process) as [els|] eqn:Hels; simpl.
  2: { split; [split; [done|]|].
       - intros (? & p & ? & [= <-] & Hp' & Hp & _). congruence.
       - split; [|done]. intros _. right. exists definitions. split; [done|].
         right. by exists process. }
  split.
  - split.
    + destruct els as [|detectorElement [|second rest]]; simpl; [done| |done].
      destruct (isQuantMETask detectorElement) eqn:Hquantme; simpl; [|done].
      intros [= Hmatch]. by exists definitions, process, detectorElement.
    + intros (? & p & detectorElement & [= <-] & Hp' & Hp & Hquantme & Hmatch).
      assert (p = process) as -> by congruence.
      rewrite Hels in Hp. injection Hp as ->. simpl. by rewrite Hquantme, Hmatch.
  - split.
    + destruct els as [|detectorElement [|second rest]]; simpl; [done| |done].
      by destruct (isQuantMETask detectorElement).
    + intros [|(? & [= <-] & [|(p & Hp' & Hp)])]; congruence.
Qed.

(** X9. What [getMatchingQRM] returns is one of the QRMs, its detector
    matches the task and the detectors of the QRMs before it do not; it
    returns undefined only when no detector matches, throws only at the
    first QRM whose detector cannot be read, and never finds a QRM for an
    element that is no QuantME task. *)
Theorem getMatchingQRM_returns (QRMs : list QRM) (task : Element) :
  (∀ qrm,
     getMatchingQRM QRMs task = Some (Some qrm) →
     ∃ earlier later,
       QRMs = earlier ++ qrm :: later
       ∧ Forall (λ q, matchesQRM q task = Some false) earlier
       ∧ matchesQRM qrm task = Some true
       ∧ isQuantMETask task = true)
  ∧ (getMatchingQRM QRMs task = Some None →
     Forall (λ q, matchesQRM q task = Some false) QRMs)
  ∧ (getMatchingQRM QRMs task = None →
     ∃ earlier qrm later,
       QRMs = earlier ++ qrm :: later
       ∧ Forall (λ q, matchesQRM q task = Some false) earlier
       ∧ matchesQRM qrm task = None).
Proof.
  induction QRMs as [|q rest (IHsome & IHnone & IHthrow)]; simpl.
  { repeat split; [done | constructor | done]. }
  destruct (matchesQRM q task) as [[|]|] eqn:Hq; simpl.
  - split; [|done]. intros qrm [= <-]. exists [], rest.
    repeat split; [constructor | done |].
    apply matchesQRM_true in Hq as (detectorElement & Hmatch).
    by apply taskMatchesDetector_quantme in Hmatch.
  - repeat split.
    + intros qrm Hrest.
      destruct (IHsome qrm Hrest) as (earlier & later & -> & Hearlier & Hqrm & Hkind).
      exists (q :: earlier), later. by repeat constructor.
    + intros Hrest. constructor; [done | by apply IHnone].
    + intros Hrest.
      destruct (IHthrow Hrest) as (earlier & qrm & later & -> & Hearlier & Hqrm).
      exists (q :: earlier), qrm, later. by repeat constructor.
  - split; [done|]. split; [done|]. intros _. exists [], q, rest. by repeat constructor.
Qed.

End Resolver.

Lemma getMatchingQRM_returns_witness :
  ∃ earlier later,
    [Fixture.Tpl2; Fixture.Tpl1] = earlier ++ Fixture.Tpl1 :: later
    ∧ Forall (λ q, @matchesQRM Fixture.templates q Fixture.taskT = Some false) earlier
    ∧ @matchesQRM Fixture.templates Fixture.Tpl1 Fixture.taskT = Some true
    ∧ isQuantMETask Fixture.taskT = true.
Proof.
  apply (proj1 (@getMatchingQRM_returns Fixture.templates
                  [Fixture.Tpl2; Fixture.Tpl1] Fixture.taskT)).
  reflexivity.
Defined.

End ResolverCoverage.

(** ** The predecessor and the client *)
Module PredecessorCoverage.
Import Utilities QuantMEMatcher QuantMETransformator Host Vocabulary Coverage.
Import SplicerProperties.

Lemma predecessor_loop_filter flowElements quantmeTasks :
  Predecessor.getQuantMETasks_loop flowElements quantmeTasks
  = quantmeTasks ++ filter (λ el, isQuantMETask el = true) flowElements.
Proof.
  revert quantmeTasks.
  induction flowElements as [|el els IH]; intros quantmeTasks; simpl.
  - by rewrite app_nil_r.
  - rewrite filter_cons.
    destruct (JsString.startsWith "quantme:" (type_ el)) eqn:Hquantme; rewrite IH.
    + rewrite decide_True by done. by rewrite <- app_assoc.
    + rewrite decide_False; [done|]. unfold isQuantMETask. congruence.
Qed.

Section Discovery.
Context `{GraphHost}.

Lemma getQuantMETasks_loop_flat rec processBo els quantmeTasks d :
  Forall (λ el, type_ el ≠ "bpmn:SubProcess") els →
  getQuantMETasks_loop rec processBo els quantmeTasks d
  = Normal (quantmeTasks
            ++ map (λ task, mkReplacementTask task processBo None)
                 (filter (λ el, isQuantMETask el = true) els)) d [].
Proof.
  intros Hflat. revert quantmeTasks.
  induction Hflat as [|el els Hel _ IH]; intros quantmeTasks; simpl.
  - by rewrite app_nil_r.
  - apply String.eqb_neq in Hel. rewrite Hel, IH.
    rewrite filter_cons.
    destruct (JsString.startsWith "quantme:" (type_ el)) eqn:Hquantme.
    + rewrite decide_True by done. simpl. by rewrite <- app_assoc.
    + rewrite decide_False; [done|]. unfold isQuantMETask. congruence.
Qed.

(** X10. The predecessor's [getQuantMETasks] returns the QuantME tasks
    among the flow elements of the process itself, in their order, and
    throws when the process has no flow elements; it never looks into a
    sub-process. On a process none of whose flow elements is a sub-process,
    [getQuantMETasks] of the later version finds the same tasks, each with
    what the registry holds for the process, after one look into the
    registry. *)
Theorem predecessor_getQuantMETasks_flat (process : Element) :
  Predecessor.getQuantMETasks process
  = filter (λ el, isQuantMETask el = true) <$> flowElements process
  ∧ ∀ els d,
      flowElements process = Some els →
      Forall (λ el, type_ el ≠ "bpmn:SubProcess") els →
      let processBo := registryGet (JsObject.Str (id process)) d in
      getQuantMETasks process d
      = Normal (map (λ task, mkReplacementTask task processBo None)
                  (filter (λ el, isQuantMETask el = true) els))
          d [Looked (JsObject.Str (id process)) processBo].
Proof.
  split.
  - unfold Predecessor.getQuantMETasks.
    destruct (flowElements process) as [els|]; simpl; [|done].
    by rewrite predecessor_loop_filter.
  - intros els d Hels Hflat processBo.
    destruct process as [type i attributes source target attached shape children arts].
    simpl in *. subst children.
    unfold mbind, M_bind, bind, lookup.
    by rewrite getQuantMETasks_loop_flat.
Qed.

Context `{ModelerGenerator}.

(** X11. The predecessor's [replaceQuantMETask] goes through the QRMs as
    [getMatchingQRM] does: it throws where [getMatchingQRM] throws, returns
    false without an interaction where no QRM matches, and with a matching
    QRM it asks the editor once for a new shape of the type
    [quantme:ReadoutErrorMitigationTask] under the parent, whatever the task
    and the QRM are, and returns true. *)
Theorem replaceQuantMETask_first_match (QRMs : list QRM) (task : Element)
    (parent : option Shape) (d : Diagram) :
  Predecessor.replaceQuantMETask QRMs task parent d
  = match getMatchingQRM QRMs task with
    | None => Threw d []
    | Some None => Normal false d []
    | Some (Some _) =>
        let create := CreateShape "quantme:ReadoutErrorMitigationTask" parent in
        match perform create d with
        | Returns shape d' => Normal true d' [Performed create shape]
        | Raises d' => Threw d' [Failed create]
        end
    end.
Proof.
  induction QRMs as [|qrm rest IH]; simpl; [done|].
  unfold mbind at 1, M_bind, bind, await.
  destruct (matchesQRM qrm task) as [[|]|]; simpl; [| | done].
  - unfold mbind, M_bind, bind, call.
    by destruct (perform (CreateShape "quantme:ReadoutErrorMitigationTask" parent) d).
  - rewrite IH. destruct (getMatchingQRM rest task) as [[?|]|]; simpl; [|done|done].
    by destruct (perform (CreateShape "quantme:ReadoutErrorMitigationTask" parent) d).
Qed.

End Discovery.

Lemma predecessor_getQuantMETasks_flat_witness :
  @getQuantMETasks Fixture.editor
    (Fixture.container "bpmn:Process" "Process_1" [Fixture.taskA; Fixture.taskT])
    (Fixture.opened [Fixture.taskA; Fixture.taskT])
  = @Normal Fixture.editor _
      [@mkReplacementTask Fixture.editor Fixture.taskT (Some "Process_1") None]
      (Fixture.opened [Fixture.taskA; Fixture.taskT])
      [Looked (JsObject.Str "Process_1") (Some "Process_1")].
Proof.
  apply (proj2 (@predecessor_getQuantMETasks_flat Fixture.editor
                  (Fixture.container "bpmn:Process" "Process_1"
                     [Fixture.taskA; Fixture.taskT]))
           [Fixture.taskA; Fixture.taskT] (Fixture.opened [Fixture.taskA; Fixture.taskT])).
  - reflexivity.
  - repeat constructor; discriminate.
Defined.

(** X12. [getFoldersInRepository] asks for the contents of the repository
    at its head and returns the [url] of every entry of type [dir], in the
    order of the listing; it is rejected when the request is. *)
Theorem getFoldersInRepository_directories `{QuantMEClient.Fetch}
    (userName repoName : string) :
  QuantMEClient.getFoldersInRepository userName repoName
  = fmap (M := option)
      (λ contents : list QuantMEClient.Item,
         map QuantMEClient.url
           (filter (λ item, QuantMEClient.itemType item = "dir") contents))
      (QuantMEClient.fetchJson
         ("https://api.github.com/repos/" +:+ userName +:+ "/" +:+ repoName
          +:+ "/contents/?ref=HEAD")).
Proof.
  unfold QuantMEClient.getFoldersInRepository.
  destruct (QuantMEClient.fetchJson _) as [contents|]; simpl; [|done].
  f_equal. rewrite <- (app_nil_l (map _ _)). generalize (@nil string) as directoryURLs.
  induction contents as [|item rest IH]; intros directoryURLs; simpl.
  - by rewrite app_nil_r.
  - rewrite filter_cons.
    destruct (String.eqb_spec (QuantMEClient.itemType item) "dir") as [Hdir|Hdir].
    + rewrite decide_True by done. rewrite IH. simpl. by rewrite <- app_assoc.
    + rewrite decide_False by done. apply IH.
Qed.

End PredecessorCoverage.

(** ** The commands of a splice *)
Module SplicerCoverage.
Import Utilities QuantMEMatcher Host QuantMETransformator Vocabulary Coverage.
Import SplicerProperties OrchestratorProperties.

Lemma filter_paired {A} (f : Element → A) (P : Element → Prop)
    `{∀ el, Decision (P el)} `{∀ c : Element * A, Decision (P c.1)} els :
  filter (λ c : Element * A, P c.1) (map (λ child, (child, f child)) els)
  = map (λ child, (child, f child)) (filter P els).
Proof.
  induction els as [|el els IH]; [done|].
  simpl. rewrite !filter_cons. simpl. rewrite IH.
  repeat case_decide; done.
Qed.

Lemma ordered_map {A} (f : Element → A) els :
  ordered (map (λ child, (child, f child)) els) = map f (insertionOrder els).
Proof.
  unfold ordered, insertionOrder, plainOf, boundaryEventsOf, sequenceFlowsOf.
  rewrite (filter_paired f (λ el, type_ el ≠ "bpmn:SequenceFlow"
                                  ∧ type_ el ≠ "bpmn:BoundaryEvent")).
  rewrite (filter_paired f (λ el, type_ el ≠ "bpmn:SequenceFlow"
                                  ∧ type_ el = "bpmn:BoundaryEvent")).
  rewrite (filter_paired f (λ el, type_ el = "bpmn:SequenceFlow")).
  rewrite !map_app, !map_map. done.
Qed.

Lemma splicePlan_unfold replace el :
  splicePlan replace el
  = ownSteps replace el ++ flat_map (splicePlan false) (insertedBelow el).
Proof.
  destruct el as [type i attributes source target attached shape children arts].
  unfold insertedBelow. rewrite flat_map_app.
  change (splicePlan replace
            (mkElement type i attributes source target attached shape children arts))
    with (ownSteps replace
            (mkElement type i attributes source target attached shape children arts)
          ++ match children with
             | Some els =>
                 concat (ordered (map (λ child, (child, splicePlan false child)) els))
             | None => []
             end
          ++ match arts with
             | Some els => flat_map (splicePlan false) els
             | None => []
             end).
  f_equal. f_equal.
  - destruct children as [els|]; simpl; [|done].
    by rewrite ordered_map, flat_map_concat_map.
  - by destruct arts.
Qed.

Lemma stepsOf_app {Shape} (t1 t2 : list (Event Shape)) :
  stepsOf (t1 ++ t2) = stepsOf t1 ++ stepsOf t2.
Proof. apply omap_app. Qed.

Section Following.
Context `{GraphHost}.

Lemma follows_bind {A B} (m : M A) (k : A → M B) d plan1 plan2 :
  follows (m d) plan1 →
  (∀ a d1 t1, m d = Normal a d1 t1 → follows (k a d1) plan2) →
  follows ((m ≫= k) d) (plan1 ++ plan2).
Proof.
  unfold mbind, M_bind, bind. intros Hm Hk.
  destruct (m d) as [a d1 t1|d1 t1]; simpl in *.
  - specialize (Hk a d1 t1 eq_refl).
    destruct (k a d1) as [b d2 t2|d2 t2]; simpl in *; rewrite stepsOf_app, Hm.
    + by rewrite Hk.
    + by apply prefix_app.
  - by apply prefix_app_r.
Qed.

Lemma follows_bind_l {A B} (m : M A) (k : A → M B) d plan :
  follows (m d) [] →
  (∀ a d1 t1, m d = Normal a d1 t1 → follows (k a d1) plan) →
  follows ((m ≫= k) d) plan.
Proof. apply (follows_bind m k d [] plan). Qed.

Lemma follows_bind_r {A B} (m : M A) (k : A → M B) d plan :
  follows (m d) plan →
  (∀ a d1 t1, m d = Normal a d1 t1 → follows (k a d1) []) →
  follows ((m ≫= k) d) plan.
Proof. rewrite <- (app_nil_r plan) at 2. apply follows_bind. Qed.

Lemma follows_defined {A} (v : option A) d : follows (defined v d) [].
Proof. destruct v as [a|]; [done | by exists []]. Qed.

Lemma follows_lookup key d : follows (lookup key d) [].
Proof. done. Qed.

Lemma follows_call c d : follows (call c d) [stepOf c].
Proof. unfold call. destruct (perform c d); [done | by exists []]. Qed.

Lemma follows_insertEach parent els success idMap d :
  Forall (λ el, ∀ parent idMap replace oldElement d,
            follows (insertShape el parent idMap replace oldElement d)
              (splicePlan replace el)) els →
  follows (insertEach parent (withInsertShape els) success idMap d)
    (flat_map (splicePlan false) els).
Proof.
  intros Hels. revert success idMap d.
  induction Hels as [|el els Hel _ IH]; intros success idMap d; simpl.
  - exact eq_refl.
  - apply follows_bind; [apply Hel|]. intros result d1 t1 _. apply IH.
Qed.

(** The first part of a call makes the steps for the element itself, as
    far as it gets. *)
Lemma follows_insertElement el parent idMap replace oldElement d :
  follows (insertElement el parent idMap replace oldElement d) (ownSteps replace el).
Proof.
  unfold insertElement, ownSteps.
  apply follows_bind.
  { destruct (isFlowLikeElement (type_ el)); simpl.
    - apply follows_bind_l; [apply follows_defined|]. intros source d1 t1 _.
      apply follows_bind_l; [apply follows_lookup|]. intros sourceElement d2 t2 _.
      apply follows_bind_l; [apply follows_defined|]. intros target d3 t3 _.
      apply follows_bind_l; [apply follows_lookup|]. intros targetElement d4 t4 _.
      apply follows_call.
    - destruct replace.
      + apply follows_bind_l; [apply follows_defined|]. intros old d1 t1 _.
        apply follows_bind_l; [apply follows_lookup|]. intros oldShape d2 t2 _.
        apply follows_call.
      + apply follows_call. }
  intros created d1 t1 _.
  apply follows_bind_l; [apply follows_defined|]. intros element d2 t2 _.
  apply follows_bind.
  { destruct (String.eqb (type_ el) "bpmn:SubProcess"); [|exact eq_refl].
    destruct (di el) as [[|]|]; [|exact eq_refl|exact eq_refl].
    apply follows_bind_l; [apply follows_lookup|]. intros shape' d3 t3 _.
    apply follows_bind_l; [apply follows_defined|]. intros shape d4 t4 _.
    apply follows_call. }
  intros expanded d3 t3 _.
  apply follows_bind.
  { destruct (String.eqb (type_ el) "bpmn:BoundaryEvent"); [|exact eq_refl].
    apply follows_bind_l; [apply follows_defined|]. intros attached d4 t4 _.
    apply follows_bind_l; [apply follows_lookup|]. intros host' d5 t5 _.
    apply follows_bind_l; [apply follows_defined|]. intros host d6 t6 _.
    apply (follows_bind _ _ _ [Updates] [Attaches]); [apply follows_call|].
    intros updated d7 t7 _. apply follows_call. }
  intros attached d4 t4 _.
  apply follows_bind_r; [apply follows_call|]. intros updated d5 t5 _.
  exact eq_refl.
Qed.

(** A splice makes the steps of its plan, as far as it gets. *)
Lemma follows_insertShape el parent idMap replace oldElement d :
  follows (insertShape el parent idMap replace oldElement d) (splicePlan replace el).
Proof.
  revert parent idMap replace oldElement d.
  induction el as [el Hkids Harts] using Element_tree_ind.
  intros parent idMap replace oldElement d.
  pose proof (Forall_insertedBelow _ el Hkids Harts) as Hbelow.
  unfold insertedBelow in Hbelow. apply Forall_app in Hbelow as [Hflow Hartifacts].
  rewrite insertShape_unfold, splicePlan_unfold.
  unfold insertShape_body, insertedBelow.
  rewrite flat_map_app.
  apply follows_bind; [apply follows_insertElement|].
  intros [element idMap0] d5 t5 _.
  apply follows_bind.
  { rewrite insertChildElements_eq.
    apply follows_bind_r; [by apply follows_insertEach|].
    intros [success1 idMap1] d6 t6 _. exact eq_refl. }
  intros resultTuple d6 t6 _.
  replace (default [] (withInsertShape <$> artifacts el))
    with (withInsertShape (default [] (artifacts el)))
    by (by destruct (artifacts el)).
  apply follows_bind_r; [by apply follows_insertEach|].
  intros [success2 idMap2] d7 t7 _. exact eq_refl.
Qed.

(** X13. The commands of a splice are given by the fragment alone: a call
    of [insertShape] that returns has asked the editor, in this order, for
    the element itself (a connection for a flow-like element, a replacement
    of the old element when [replace] is set, a new shape otherwise), for
    its expansion when it is an expanded sub-process, for its attachment
    when it is a boundary event, for its properties, and then for the steps
    of its plain children, its boundary events, its sequence flows and its
    artifacts, each of them spliced without [replace]. A call that throws
    has made the first of these steps, the last of them being the one that
    raised if a command did. *)
Theorem insertShape_follows_plan el parent idMap replace oldElement d :
  (∀ result d' t,
     insertShape el parent idMap replace oldElement d = Normal result d' t →
     stepsOf t = splicePlan replace el)
  ∧ (∀ d' t,
       insertShape el parent idMap replace oldElement d = Threw d' t →
       stepsOf t `prefix_of` splicePlan replace el)
  ∧ splicePlan replace el
    = ownSteps replace el ++ flat_map (splicePlan false) (insertedBelow el).
Proof.
  pose proof (follows_insertShape el parent idMap replace oldElement d) as Hfollows.
  split; [|split; [|apply splicePlan_unfold]].
  - intros result d' t Hrun. by rewrite Hrun in Hfollows.
  - intros d' t Hrun. by rewrite Hrun in Hfollows.
Qed.

End Following.

Lemma ownSteps_inserts replace el :
  length (filter (λ s, inserts s = true) (ownSteps replace el)) = 1.
Proof.
  unfold ownSteps.
  by destruct (isFlowLikeElement (type_ el)), replace,
    (String.eqb (type_ el) "bpmn:SubProcess"),
    (String.eqb (type_ el) "bpmn:BoundaryEvent"), (di el) as [[|]|].
Qed.

Lemma splicePlan_inserts replace el :
  length (filter (λ s, inserts s = true) (splicePlan replace el))
  = length (fragmentIds el).
Proof.
  revert replace. induction el as [el Hkids Harts] using Element_tree_ind. intros replace.
  pose proof (Forall_insertedBelow _ el Hkids Harts) as Hbelow.
  rewrite splicePlan_unfold, fragmentIds_below, filter_app, length_app, ownSteps_inserts.
  simpl. f_equal.
  induction Hbelow as [|child children Hchild _ IH]; [done|].
  simpl. by rewrite filter_app, !length_app, Hchild, IH.
Qed.

Lemma splicePlan_Forall (P : Step → Prop) replace el :
  (∀ r child, r = replace ∨ r = false → Forall P (ownSteps r child)) →
  Forall P (splicePlan replace el).
Proof.
  revert replace. induction el as [el Hkids Harts] using Element_tree_ind.
  intros replace Hown.
  pose proof (Forall_insertedBelow _ el Hkids Harts) as Hbelow.
  rewrite splicePlan_unfold. apply Forall_app. split; [apply Hown; by left|].
  induction Hbelow as [|child children Hchild _ IH]; [constructor|].
  simpl. apply Forall_app. split; [|done].
  apply Hchild. intros r c [->| ->]; apply Hown; by right.
Qed.

Lemma ownSteps_head replace el :
  ∃ rest,
    ownSteps replace el
    = (if isFlowLikeElement (type_ el) then Connects (type_ el)
       else if replace then Replaces (type_ el) else Creates (type_ el)) :: rest
    ∧ Forall (λ s, inserts s = false) rest.
Proof.
  unfold ownSteps. eexists. split; [done|].
  destruct (String.eqb (type_ el) "bpmn:SubProcess"),
    (String.eqb (type_ el) "bpmn:BoundaryEvent"), (di el) as [[|]|];
    by repeat constructor.
Qed.

Section Tallies.
Context `{GraphHost}.

(** X14. A splice that returns has asked for one element per element of
    the fragment: as many replacements, new shapes and connections as the
    fragment has elements. Its first command is the only replacement, and
    it is one only when [replace] is set and the fragment is no flow-like
    element: everything below the top of a fragment is created or
    connected. Whether it returns or throws, a splice asks neither for a
    layout nor for input parameters. *)
Theorem one_insertion_per_element el parent idMap replace oldElement d :
  (∀ result d' t,
     insertShape el parent idMap replace oldElement d = Normal result d' t →
     length (filter (λ s, inserts s = true) (stepsOf t)) = length (fragmentIds el)
     ∧ ∃ rest,
         stepsOf t
         = (if isFlowLikeElement (type_ el) then Connects (type_ el)
            else if replace then Replaces (type_ el) else Creates (type_ el)) :: rest
         ∧ ∀ type, Replaces type ∉ rest)
  ∧ ∀ s, s ∈ stepsOf (traceOf (insertShape el parent idMap replace oldElement d)) →
         s ≠ LaysOut ∧ ∀ task, s ≠ AddsInputs task.
Proof.
  pose proof (follows_insertShape el parent idMap replace oldElement d) as Hfollows.
  split.
  - intros result d' t Hrun. rewrite Hrun in Hfollows. simpl in Hfollows.
    rewrite Hfollows. split; [apply splicePlan_inserts|].
    rewrite splicePlan_unfold.
    destruct (ownSteps_head replace el) as (rest & -> & Hrest).
    exists (rest ++ flat_map (splicePlan false) (insertedBelow el)).
    split; [done|]. intros type Hin.
    apply elem_of_app in Hin as [Hin|Hin].
    + rewrite Forall_forall in Hrest. by apply Hrest in Hin.
    + apply list_elem_of_In, in_flat_map in Hin as (child & _ & Hin).
      apply list_elem_of_In in Hin.
      assert (Forall (λ s, ∀ type, s ≠ Replaces type) (splicePlan false child)) as Hnone.
      { apply splicePlan_Forall. intros r c Hr.
        assert (r = false) as -> by (by destruct Hr).
        unfold ownSteps.
        destruct (isFlowLikeElement (type_ c)),
          (String.eqb (type_ c) "bpmn:SubProcess"),
          (String.eqb (type_ c) "bpmn:BoundaryEvent"), (di c) as [[|]|];
          by repeat constructor. }
      rewrite Forall_forall in Hnone. by apply (Hnone _ Hin type).
  - intros s Hin.
    assert (Forall (λ s, s ≠ LaysOut ∧ ∀ task, s ≠ AddsInputs task)
              (splicePlan replace el)) as Hplan.
    { apply splicePlan_Forall. intros r c _. unfold ownSteps.
      destruct (isFlowLikeElement (type_ c)), r,
        (String.eqb (type_ c) "bpmn:SubProcess"),
        (String.eqb (type_ c) "bpmn:BoundaryEvent"), (di c) as [[|]|];
        by repeat constructor. }
    rewrite Forall_forall in Hplan. apply Hplan.
    destruct (insertShape el parent idMap replace oldElement d) as [result d' t|d' t];
      simpl in *; [by rewrite <- Hfollows|].
    destruct Hfollows as [rest ->]. apply elem_of_app. by left.
Qed.

End Tallies.

Lemma insertShape_follows_plan_witness :
  stepsOf (traceOf Fixture.spliceGuarded) = splicePlan false Fixture.guarded.
Proof.
  assert (Fixture.spliceGuarded
          = Normal (default Fixture.noResult (@valueOf Fixture.editor _ Fixture.spliceGuarded))
              (diagramOf Fixture.spliceGuarded) (traceOf Fixture.spliceGuarded)) as Hrun
    by vm_cast_no_check (@eq_refl _ Fixture.spliceGuarded).
  exact (proj1 (@insertShape_follows_plan Fixture.editor Fixture.guarded
                  (Some "Process_1") ∅ false None (Fixture.opened []))
           _ _ _ Hrun).
Defined.

(** The steps of the splice of the example with the boundary event. *)
Example spliceGuarded_steps :
  stepsOf (traceOf Fixture.spliceGuarded)
  = [Creates "bpmn:SubProcess"; Expands; Updates;
     Creates "bpmn:Task"; Updates; Creates "bpmn:Task"; Updates;
     Creates "bpmn:BoundaryEvent"; Updates; Attaches; Updates;
     Connects "bpmn:SequenceFlow"; Updates].
Proof. vm_compute. exact eq_refl. Qed.

Lemma one_insertion_per_element_witness :
  length (filter (λ s, inserts s = true) (stepsOf (traceOf Fixture.spliceGuarded))) = 5.
Proof.
  assert (Fixture.spliceGuarded
          = Normal (default Fixture.noResult (@valueOf Fixture.editor _ Fixture.spliceGuarded))
              (diagramOf Fixture.spliceGuarded) (traceOf Fixture.spliceGuarded)) as Hrun
    by vm_cast_no_check (@eq_refl _ Fixture.spliceGuarded).
  exact (proj1 (proj1 (@one_insertion_per_element Fixture.editor Fixture.guarded
                         (Some "Process_1") ∅ false None (Fixture.opened []))
                  _ _ _ Hrun)).
Defined.

End SplicerCoverage.

(** ** Discovery, replacement and the pass *)
Module OrchestratorCoverage.
Import Utilities QuantMEMatcher Host QuantMETransformator Vocabulary Coverage.
Import SplicerProperties OrchestratorProperties SplicerCoverage.

Section Discovery.
Context `{GraphHost}.

Lemma quiet_steps (t : list (Event Shape)) : quiet t → stepsOf t = [].
Proof.
  intros Hquiet. induction Hquiet as [|ev t Hev _ IH]; [done|].
  by destruct ev.
Qed.

Lemma getQuantMETasks_loop_throws processBo els quantmeTasks d :
  Forall (λ el, containersPresent el = false →
                ∀ d, ∃ t, getQuantMETasks el d = Threw d t) els →
  forallb (λ el, if String.eqb (type_ el) "bpmn:SubProcess"
                 then containersPresent el else true) els = false →
  ∃ t, getQuantMETasks_loop getQuantMETasks processBo els quantmeTasks d = Threw d t.
Proof.
  intros Hels. revert quantmeTasks.
  induction Hels as [|el els Hel _ IH]; intros quantmeTasks Hmissing; [done|].
  simpl in *. destruct (String.eqb (type_ el) "bpmn:SubProcess").
  - destruct (containersPresent el) eqn:Hpresent; simpl in Hmissing.
    + destruct (getQuantMETasks_discovers el Hpresent d) as (t1 & Hnested & _).
      match goal with
      | |- ∃ t, (_ ≫= λ nested, getQuantMETasks_loop _ _ _ (?acc ++ nested)) d = _ =>
          destruct (IH (acc ++ map (entry d) (preorder el)) Hmissing) as (t2 & Hrest)
      end.
      exists (t1 ++ t2). apply bind_Threw. right. by eauto 10.
    + destruct (Hel eq_refl d) as (t1 & Hthrew).
      exists t1. apply bind_Threw. by left.
  - by apply IH.
Qed.

Lemma getQuantMETasks_throws el :
  containersPresent el = false → ∀ d, ∃ t, getQuantMETasks el d = Threw d t.
Proof.
  induction el as [el Hkids _] using Element_tree_ind. intros Hmissing d.
  destruct el as [type i attributes source target attached shape children arts].
  simpl in *. destruct children as [els|]; simpl in Hkids.
  - destruct (getQuantMETasks_loop_throws (registryGet (JsObject.Str i) d) els [] d Hkids Hmissing)
      as (t & Hloop).
    exists (Looked (JsObject.Str i) (registryGet (JsObject.Str i) d) :: t).
    apply bind_Threw. right.
    by exists (registryGet (JsObject.Str i) d), d, [Looked (JsObject.Str i) (registryGet (JsObject.Str i) d)], t.
  - by exists [Looked (JsObject.Str i) (registryGet (JsObject.Str i) d)].
Qed.

(** X15. [getQuantMETasks] returns exactly on a process in which the
    process and every sub-process it reaches have their flow elements, and
    throws exactly when one of them has none; in both cases the diagram is
    as it was and nothing but the element registry was asked. *)
Theorem getQuantMETasks_returns (process : Element) (d : Diagram) :
  (containersPresent process = true ↔
   ∃ tasks d' t, getQuantMETasks process d = Normal tasks d' t)
  ∧ (containersPresent process = false ↔
     ∃ d' t, getQuantMETasks process d = Threw d' t)
  ∧ diagramOf (getQuantMETasks process d) = d
  ∧ stepsOf (traceOf (getQuantMETasks process d)) = [].
Proof.
  assert (containersPresent process = true →
          ∃ tasks d' t, getQuantMETasks process d = Normal tasks d' t) as Hreturns.
  { intros Hpresent.
    destruct (getQuantMETasks_discovers process Hpresent d) as (t & Hrun & _). eauto. }
  assert (containersPresent process = false →
          ∃ d' t, getQuantMETasks process d = Threw d' t) as Hthrows.
  { intros Hmissing. destruct (getQuantMETasks_throws process Hmissing d) as (t & Hrun).
    eauto. }
  split; [|split; [|split]].
  - split; [done|]. intros (tasks & d' & t & Hrun).
    destruct (containersPresent process); [done|].
    destruct (Hthrows eq_refl) as (? & ? & ?). congruence.
  - split; [done|]. intros (d' & t & Hrun).
    destruct (containersPresent process); [|done].
    destruct (Hreturns eq_refl) as (? & ? & ? & ?). congruence.
  - apply getQuantMETasks_silent.
  - apply quiet_steps, getQuantMETasks_silent.
Qed.

End Discovery.

Section Pass.
Context `{GraphHost} `{ModelerGenerator}.

Lemma replaceByFragment_cases task parent replacement d :
  match fragmentOf replacement with
  | None => replaceByFragment task parent replacement d = Threw d []
  | Some None => replaceByFragment task parent replacement d = Normal false d []
  | Some (Some el) =>
      replaceByFragment task parent replacement d
      = (result ← insertShape el parent ∅ true (Some task);
         _ ← call (AddQuantMEInputParameters task (Result.element result));
         mret (Result.success result)) d
  end.
Proof.
  unfold replaceByFragment, fragmentOf.
  destruct replacement as [[|c r]|]; [done| |done].
  destruct (getRootProcessFromXml (String c r)) as [process|]; simpl; [|done].
  destruct (getSingleFlowElement process) as [[el|]|] eqn:Hsingle;
    (etrans; [exact (ret_bind process _ d)|]); simpl; rewrite Hsingle.
  - exact (ret_bind (Some el) _ d).
  - exact (ret_bind None _ d).
  - done.
Qed.

Lemma replaceByFragment_returns task parent replacement el d success d' t :
  fragmentOf replacement = Some (Some el) →
  replaceByFragment task parent replacement d = Normal success d' t →
  success = true
  ∧ ∃ result d1 t1 r,
      insertShape el parent ∅ true (Some task) d = Normal result d1 t1
      ∧ perform (AddQuantMEInputParameters task (Result.element result)) d1
        = Returns r d'
      ∧ t = t1 ++ [Performed (AddQuantMEInputParameters task (Result.element result)) r].
Proof.
  intros Hfragment Hrun.
  pose proof (replaceByFragment_cases task parent replacement d) as Hcases.
  rewrite Hfragment, Hrun in Hcases. symmetry in Hcases.
  apply bind_Normal in Hcases as (result & d1 & t1 & t2 & Hsplice & Hrest & ->).
  apply bind_Normal in Hrest as (r & d2 & t3 & t4 & Hcall & Hret & ->).
  apply ret_Normal in Hret as (-> & -> & ->).
  apply call_Normal in Hcall as (Hperform & ->).
  split; [by eapply insertShape_sound|].
  exists result, d1, t1, r. by rewrite app_nil_r.
Qed.

Lemma follows_replaceByFragment task parent replacement el d :
  fragmentOf replacement = Some (Some el) →
  follows (replaceByFragment task parent replacement d)
    (splicePlan true el ++ [AddsInputs task]).
Proof.
  intros Hfragment.
  pose proof (replaceByFragment_cases task parent replacement d) as Hcases.
  rewrite Hfragment in Hcases. rewrite Hcases.
  apply follows_bind; [apply follows_insertShape|]. intros result d1 t1 _.
  apply follows_bind_r; [apply follows_call|]. intros r d2 t2 _. exact eq_refl.
Qed.

(** X16. [replaceByFragment] returns false only before it has asked the
    editor for anything: for a replacement that is missing or empty, or
    whose process has no or several flow elements. It throws at once for
    a replacement that cannot be read. In every other case it splices the
    single flow element of the replacement in place of the task, starting
    from an empty identifier map, and, when the splice returns, asks for
    the input parameters of the task on the element the splice returned;
    what it then returns is true. *)
Theorem replaceByFragment_outcomes (task : Element) (parent : option Shape)
    (replacement : option string) (d : Diagram) :
  match fragmentOf replacement with
  | None => replaceByFragment task parent replacement d = Threw d []
  | Some None => replaceByFragment task parent replacement d = Normal false d []
  | Some (Some el) =>
      follows (replaceByFragment task parent replacement d)
        (splicePlan true el ++ [AddsInputs task])
      ∧ ∀ success d' t,
          replaceByFragment task parent replacement d = Normal success d' t →
          success = true
          ∧ ∃ result d1 t1 r,
              insertShape el parent ∅ true (Some task) d = Normal result d1 t1
              ∧ perform (AddQuantMEInputParameters task (Result.element result)) d1
                = Returns r d'
              ∧ t = t1 ++ [Performed
                             (AddQuantMEInputParameters task (Result.element result)) r]
  end.
Proof.
  pose proof (replaceByFragment_cases task parent replacement d) as Hcases.
  destruct (fragmentOf replacement) as [[el|]|] eqn:Hfragment; [|done|done].
  split; [by apply follows_replaceByFragment|].
  intros success d' t. by apply replaceByFragment_returns.
Qed.

(** The second loop makes the steps of the fragments of the tasks in
    turn; it has made all of them when it reports no failure. *)
Lemma replaceTasks_plan (replacementTasks : list ReplacementTask) d :
  let plan := flat_map (λ rt, fragmentPlan (task rt) (qrm rt)) replacementTasks in
  match replaceTasks replacementTasks d with
  | Normal None _ t => stepsOf t = plan
  | Normal (Some _) _ t | Threw _ t => stepsOf t `prefix_of` plan
  end.
Proof.
  revert d. induction replacementTasks as [|rt rest IH]; intros d; simpl; [done|].
  unfold mbind at 1, M_bind, bind.
  destruct (qrm rt) as [q|] eqn:Hq; simpl; [|apply prefix_nil].
  pose proof (replaceByFragment_cases (task rt) (parent rt) (replacement q) d) as Hcases.
  destruct (fragmentOf (replacement q)) as [[el|]|] eqn:Hfragment.
  - pose proof (follows_replaceByFragment (task rt) (parent rt) (replacement q) el d
                  Hfragment) as Hfollows.
    unfold mbind, M_bind, bind.
    destruct (replaceByFragment (task rt) (parent rt) (replacement q) d)
      as [success d1 t1|d1 t1] eqn:Hrun; simpl in *.
    + apply replaceByFragment_returns with (el := el) in Hrun as [-> _]; [|done].
      specialize (IH d1).
      destruct (replaceTasks rest d1) as [[taskId|] d2 t2|d2 t2];
        rewrite stepsOf_app, Hfollows; [by apply prefix_app | by rewrite IH
                                        | by apply prefix_app].
    + by apply prefix_app_r.
  - unfold mbind, M_bind, bind. rewrite Hcases. simpl. apply prefix_nil.
  - unfold mbind, M_bind, bind. rewrite Hcases. simpl. apply prefix_nil.
Qed.

(** What the first loop hands to the second: the tasks with their matching
    QRMs. *)
Lemma findReplacementModels_plan QRMs replacementTasks d resolved d' t :
  findReplacementModels QRMs replacementTasks d = Normal (inr resolved) d' t →
  flat_map (λ rt, fragmentPlan (task rt) (qrm rt)) resolved
  = flat_map (λ rt, taskPlan QRMs (task rt)) replacementTasks.
Proof.
  revert resolved d' t.
  induction replacementTasks as [|rt rest IH]; intros resolved d' t Hfind; simpl in Hfind.
  - by apply ret_Normal in Hfind as ([= ->] & _).
  - apply bind_Normal in Hfind as (found & d1 & t1 & t2 & Hfound & Hfind & ->).
    apply defined_Normal in Hfound as (Hfound & -> & ->).
    destruct found as [q|].
    + apply bind_Normal in Hfind as (others & d2 & t3 & t4 & Hothers & Hret & ->).
      apply ret_Normal in Hret as (Hret & -> & ->).
      destruct others as [taskId|others]; [done|]. injection Hret as ->.
      simpl. unfold taskPlan at 1. rewrite Hfound. simpl. f_equal. by eapply IH.
    + apply bind_Normal in Hfind as (u & d2 & t3 & t4 & _ & Hret & ->).
      by apply ret_Normal in Hret as (Hret & _).
Qed.

Lemma splicePlan_no_layout replace el : LaysOut ∉ splicePlan replace el.
Proof.
  assert (Forall (λ s, s ≠ LaysOut) (splicePlan replace el)) as Hplan.
  { apply splicePlan_Forall. intros r c _. unfold ownSteps.
    destruct (isFlowLikeElement (type_ c)), r,
      (String.eqb (type_ c) "bpmn:SubProcess"),
      (String.eqb (type_ c) "bpmn:BoundaryEvent"), (di c) as [[|]|];
      by repeat constructor. }
  rewrite Forall_forall in Hplan. intros Hin. by apply (Hplan _ Hin).
Qed.

Lemma taskPlan_no_layout QRMs (found : list (Element * Element)) :
  LaysOut ∉ flat_map (λ found, taskPlan QRMs found.1) found.
Proof.
  intros Hin. apply list_elem_of_In, in_flat_map in Hin as (pair & _ & Hin).
  apply list_elem_of_In in Hin. unfold taskPlan, fragmentPlan in Hin.
  destruct (default None (getMatchingQRM QRMs pair.1)) as [q|]; [|inversion Hin].
  destruct (fragmentOf (replacement q)) as [[el|]|]; [|inversion Hin|inversion Hin].
  apply elem_of_app in Hin as [Hin|Hin]; [by apply splicePlan_no_layout in Hin|].
  by apply list_elem_of_singleton in Hin.
Qed.

(** The pass, by its exits. *)
Lemma startReplacementProcess_plan QRMs d root :
  getRootProcess (getDefinitions d) = Some root →
  let plan := flat_map (λ found, taskPlan QRMs found.1) (preorder root) in
  match startReplacementProcess QRMs d with
  | Normal Transformed _ t => stepsOf t = plan ++ [LaysOut]
  | Normal _ _ t => stepsOf t `prefix_of` plan
  | Threw _ t => stepsOf t `prefix_of` plan ++ [LaysOut]
  end.
Proof.
  intros Hroot plan.
  unfold startReplacementProcess, mbind, M_bind, bind, definitions. rewrite Hroot.
  destruct (getQuantMETasks_silent root d) as [Hd1 Hquiet1].
  destruct (getQuantMETasks root d) as [tasks d1 t1|d1 t1] eqn:Hdiscovery;
    simpl in Hd1, Hquiet1; apply quiet_steps in Hquiet1; subst d1;
    [|simpl; rewrite Hquiet1; apply prefix_nil].
  assert (tasks = map (entry d) (preorder root)) as Htasks.
  { destruct (containersPresent root) eqn:Hpresent.
    - destruct (getQuantMETasks_discovers root Hpresent d) as (t & Hrun & _). congruence.
    - destruct (getQuantMETasks_throws root Hpresent d) as (t & Hrun). congruence. }
  destruct tasks as [|first others].
  { simpl. rewrite app_nil_r, Hquiet1. apply prefix_nil. }
  destruct (findReplacementModels_silent QRMs (first :: others) d) as [Hd2 Hquiet2].
  destruct (findReplacementModels QRMs (first :: others) d)
    as [[taskId|resolved] d2 t2|d2 t2] eqn:Hfind;
    simpl in Hd2, Hquiet2; apply quiet_steps in Hquiet2; subst d2.
  - simpl. rewrite !stepsOf_app, Hquiet1, Hquiet2. apply prefix_nil.
  - apply findReplacementModels_plan in Hfind.
    rewrite Htasks in Hfind.
    assert (flat_map (λ rt, fragmentPlan (task rt) (qrm rt)) resolved = plan) as Hplan.
    { rewrite Hfind. unfold plan. clear.
      induction (preorder root) as [|found rest IH]; [done|]. simpl. by rewrite IH. }
    pose proof (replaceTasks_plan resolved d) as Hreplace. simpl in Hreplace.
    rewrite Hplan in Hreplace.
    destruct (replaceTasks resolved d) as [[taskId|] d3 t3|d3 t3]; simpl.
    + by rewrite !stepsOf_app, Hquiet1, Hquiet2, app_nil_r.
    + unfold call. destruct (perform (Layout root) d3) as [r d4|d4]; simpl;
        by rewrite !stepsOf_app, Hquiet1, Hquiet2, Hreplace.
    + rewrite !stepsOf_app, Hquiet1, Hquiet2. simpl. by apply prefix_app_r.
  - simpl. rewrite !stepsOf_app, Hquiet1, Hquiet2. apply prefix_nil.
Qed.

(** X17. The commands of a transformation are given by the process and
    the QRMs alone. A pass that ends with every replacement done has asked
    the editor, for the QuantME tasks of the process in pre-order, for the
    splice of the fragment of the first QRM that matches the task, in place
    of the task, and for the input parameters of the task, and then, as
    its last command, for the layout. Every other pass has made the first
    of these steps, and unless it threw it has not asked for the layout:
    the layout is asked for once, after the last replacement. *)
Theorem transformation_follows_plan (QRMs : list QRM) (d : Diagram) (root : Element) :
  getRootProcess (getDefinitions d) = Some root →
  let outcome := startReplacementProcess QRMs d in
  (valueOf outcome = Some Transformed →
   stepsOf (traceOf outcome) = transformationPlan QRMs root)
  ∧ stepsOf (traceOf outcome) `prefix_of` transformationPlan QRMs root
  ∧ (LaysOut ∈ stepsOf (traceOf outcome) →
     stepsOf (traceOf outcome) = transformationPlan QRMs root
     ∧ (valueOf outcome = Some Transformed ∨ valueOf outcome = None)).
Proof.
  intros Hroot outcome.
  pose proof (startReplacementProcess_plan QRMs d root Hroot) as Hplan.
  pose proof (taskPlan_no_layout QRMs (preorder root)) as Hnone.
  simpl in Hplan. fold outcome in Hplan. unfold transformationPlan.
  set (plan := flat_map (λ found, taskPlan QRMs found.1) (preorder root)) in *.
  assert (∀ steps, steps `prefix_of` plan → LaysOut ∉ steps) as Hshort.
  { intros steps [rest Heq] Hin. apply Hnone. rewrite Heq. apply elem_of_app. by left. }
  destruct outcome as [exit d' t|d' t]; simpl.
  - destruct exit; simpl;
      try (split; [done|]; split; [by apply prefix_app_r|];
           intros Hin; by apply Hshort in Hin).
    split; [done|]. split; [by rewrite Hplan|]. intros _. split; [done | by left].
  - split; [done|]. split; [done|]. intros Hin. split; [|by right].
    destruct Hplan as [rest Heq].
    destruct (decide (rest = [])) as [->|Hrest]; [by rewrite app_nil_r in Heq|].
    exfalso. apply (Hshort (stepsOf t)); [|done].
    assert (∃ front final, rest = front ++ [final]) as (front & final & ->).
    { destruct rest as [|x rest] using rev_ind; [done | eauto]. }
    rewrite app_assoc in Heq. apply app_inj_tail in Heq as [-> _].
    by exists front.
Qed.

(** The first loop ends at the first task without a matching QRM. *)
Lemma findReplacementModels_inl QRMs replacementTasks d taskId d' t :
  findReplacementModels QRMs replacementTasks d = Normal (inl taskId) d' t →
  ∃ before failing after,
    replacementTasks = before ++ failing :: after
    ∧ Forall (resolves QRMs) before
    ∧ getMatchingQRM QRMs (task failing) = Some None
    ∧ taskId = id (task failing).
Proof.
  revert d' t.
  induction replacementTasks as [|rt rest IH]; intros d' t Hfind; simpl in Hfind.
  - by apply ret_Normal in Hfind as (? & _).
  - apply bind_Normal in Hfind as (found & d1 & t1 & t2 & Hfound & Hfind & ->).
    apply defined_Normal in Hfound as (Hfound & -> & ->).
    destruct found as [q|].
    + apply bind_Normal in Hfind as (others & d2 & t3 & t4 & Hothers & Hret & ->).
      apply ret_Normal in Hret as (Hret & -> & ->).
      destruct others as [taskId'|others]; [|done]. injection Hret as ->.
      destruct (IH _ _ Hothers) as (before & failing & after & -> & Hbefore & Hnone & ->).
      exists (rt :: before), failing, after.
      split; [done|]. split; [|done]. constructor; [by exists q | done].
    + apply bind_Normal in Hfind as (u & d2 & t3 & t4 & _ & Hret & ->).
      apply ret_Normal in Hret as ([= ->] & _).
      exists [], rt, rest. by repeat split.
Qed.

(** What it hands on otherwise: every task with its matching QRM. *)
Lemma findReplacementModels_inr QRMs replacementTasks d resolved d' t :
  findReplacementModels QRMs replacementTasks d = Normal (inr resolved) d' t →
  resolved
  = map (λ rt, mkReplacementTask (task rt) (parent rt)
                 (default None (getMatchingQRM QRMs (task rt))))
      replacementTasks.
Proof.
  revert resolved d' t.
  induction replacementTasks as [|rt rest IH]; intros resolved d' t Hfind; simpl in Hfind.
  - by apply ret_Normal in Hfind as ([= ->] & _).
  - apply bind_Normal in Hfind as (found & d1 & t1 & t2 & Hfound & Hfind & ->).
    apply defined_Normal in Hfound as (Hfound & -> & ->).
    destruct found as [q|].
    + apply bind_Normal in Hfind as (others & d2 & t3 & t4 & Hothers & Hret & ->).
      apply ret_Normal in Hret as (Hret & -> & ->).
      destruct others as [taskId|others]; [done|]. injection Hret as ->.
      simpl. rewrite Hfound. simpl. f_equal. by eapply IH.
    + apply bind_Normal in Hfind as (u & d2 & t3 & t4 & _ & Hret & ->).
      by apply ret_Normal in Hret as (Hret & _).
Qed.

(** The second loop ends at the first task whose replacement has no single
    flow element, with the tasks before it replaced. *)
Lemma replaceTasks_outcome (replacementTasks : list ReplacementTask) d failed d' t :
  replaceTasks replacementTasks d = Normal failed d' t →
  let spliced rt :=
    ∃ q el, qrm rt = Some q ∧ fragmentOf (replacement q) = Some (Some el) in
  match failed with
  | None => Forall spliced replacementTasks
  | Some taskId =>
      ∃ before failing after q,
        replacementTasks = before ++ failing :: after
        ∧ Forall spliced before
        ∧ qrm failing = Some q
        ∧ fragmentOf (replacement q) = Some None
        ∧ taskId = id (task failing)
        ∧ stepsOf t = flat_map (λ rt, fragmentPlan (task rt) (qrm rt)) before
  end.
Proof.
  intros Hrun spliced. revert d t Hrun.
  induction replacementTasks as [|rt rest IH]; intros d t Hrun; simpl in Hrun.
  - apply ret_Normal in Hrun as (-> & _). constructor.
  - apply bind_Normal in Hrun as (q & d1 & t1 & t2 & Hq & Hrun & ->).
    apply defined_Normal in Hq as (Hq & -> & ->).
    apply bind_Normal in Hrun as (success & d2 & t3 & t4 & Hreplace & Hrun & ->).
    pose proof (replaceByFragment_cases (task rt) (parent rt) (replacement q) d) as Hcases.
    destruct (fragmentOf (replacement q)) as [[el|]|] eqn:Hfragment; [| |congruence].
    + pose proof (follows_replaceByFragment (task rt) (parent rt) _ _ d Hfragment)
        as Hfollows.
      rewrite Hreplace in Hfollows. simpl in Hfollows.
      apply replaceByFragment_returns with (el := el) in Hreplace as [-> _]; [|done].
      specialize (IH _ _ Hrun).
      assert (spliced rt) as Hrt by (by exists q, el).
      destruct failed as [taskId|].
      * destruct IH
          as (before & failing & after & q' & -> & Hbefore & Hq' & Hnone & -> & Hsteps).
        exists (rt :: before), failing, after, q'.
        split; [done|]. split; [by constructor|]. split; [done|]. split; [done|].
        split; [done|].
        simpl. rewrite stepsOf_app, Hfollows, Hsteps.
        unfold fragmentPlan at 2. by rewrite Hq, Hfragment.
      * by constructor.
    + rewrite Hcases in Hreplace. injection Hreplace as <- <- <-.
      apply ret_Normal in Hrun as (-> & -> & ->).
      exists [], rt, rest, q. by repeat split.
Qed.

(** X18. How a transformation ends is given by the process and the QRMs.
    It returns only on a process whose containers have their flow
    elements. It ends for want of tasks exactly when the process holds no
    QuantME task; at the first task, in pre-order, without a matching QRM
    when there is one, having asked the editor for nothing; at the first
    task whose QRM has a replacement that is missing, empty or without a
    single flow element, and then the tasks before it stay replaced; and
    with the layout only when every task has a QRM with a fragment. *)
Theorem startReplacementProcess_exits (QRMs : list QRM) (d : Diagram) (root : Element)
    (exit : Exit) d' t :
  getRootProcess (getDefinitions d) = Some root →
  startReplacementProcess QRMs d = Normal exit d' t →
  containersPresent root = true
  ∧ match exit with
    | NoRootProcess => False
    | NoQuantMETasks => preorder root = [] ∧ d' = d ∧ stepsOf t = []
    | Unreplaceable taskId =>
        ∃ before failing after,
          preorder root = before ++ failing :: after
          ∧ Forall (λ found, ∃ q, getMatchingQRM QRMs found.1 = Some (Some q)) before
          ∧ getMatchingQRM QRMs failing.1 = Some None
          ∧ taskId = id failing.1
          ∧ d' = d ∧ stepsOf t = []
    | ReplacementFailed taskId =>
        ∃ before failing after q,
          preorder root = before ++ failing :: after
          ∧ Forall (λ found, ∃ q, getMatchingQRM QRMs found.1 = Some (Some q))
              (preorder root)
          ∧ getMatchingQRM QRMs failing.1 = Some (Some q)
          ∧ fragmentOf (replacement q) = Some None
          ∧ taskId = id failing.1
          ∧ stepsOf t = flat_map (λ found, taskPlan QRMs found.1) before
    | Transformed =>
        preorder root ≠ []
        ∧ Forall (λ found, ∃ q el, getMatchingQRM QRMs found.1 = Some (Some q)
                                   ∧ fragmentOf (replacement q) = Some (Some el))
            (preorder root)
    end.
Proof.
  intros Hroot Hrun. unfold startReplacementProcess in Hrun.
  apply bind_Normal in Hrun as (defs & d0 & t0 & t0' & Hdefs & Hrun & ->).
  unfold definitions in Hdefs. injection Hdefs as <- <- <-. rewrite Hroot in Hrun.
  apply bind_Normal in Hrun as (tasks & d1 & t1 & t2 & Hdiscovery & Hrun & ->).
  destruct (getQuantMETasks_silent root d) as [Hd1 Hquiet1].
  rewrite Hdiscovery in Hd1, Hquiet1. simpl in Hd1, Hquiet1. subst d1.
  apply quiet_steps in Hquiet1.
  assert (containersPresent root = true) as Hpresent.
  { destruct (containersPresent root) eqn:Hpresent; [done|].
    destruct (getQuantMETasks_throws root Hpresent d) as (t' & Hthrew). congruence. }
  assert (tasks = map (entry d) (preorder root)) as Htasks.
  { destruct (getQuantMETasks_discovers root Hpresent d) as (t' & Hrun' & _). congruence. }
  split; [done|].
  destruct tasks as [|first others].
  { apply ret_Normal in Hrun as (-> & -> & ->).
    symmetry in Htasks. apply map_eq_nil in Htasks.
    by rewrite app_nil_r. }
  assert (preorder root ≠ []) as Hsome by (by intros Hnil; rewrite Hnil in Htasks).
  apply bind_Normal in Hrun as (resolved & d2 & t3 & t4 & Hfind & Hrun & ->).
  destruct (findReplacementModels_silent QRMs (first :: others) d) as [Hd2 Hquiet2].
  rewrite Hfind in Hd2, Hquiet2. simpl in Hd2, Hquiet2. subst d2.
  apply quiet_steps in Hquiet2.
  rewrite Htasks in Hfind.
  destruct resolved as [taskId|resolved].
  { apply ret_Normal in Hrun as (-> & -> & ->).
    apply findReplacementModels_inl in Hfind
      as (before & failing & after & Hsplit & Hbefore & Hnone & ->).
    apply map_eq_app in Hsplit as (before' & rest' & Hpre & <- & Hrest).
    apply map_eq_cons in Hrest as (failing' & after' & -> & <- & <-).
    exists before', failing', after'.
    split; [done|]. split; [apply (proj1 (Forall_map _ _ _)) in Hbefore; exact Hbefore|].
    split; [done|]. split; [done|]. split; [done|].
    by rewrite !stepsOf_app, Hquiet1, Hquiet2. }
  pose proof (findReplacementModels_resolved _ _ _ _ _ _ Hfind) as Hall.
  apply (proj1 (Forall_map _ _ _)) in Hall.
  apply findReplacementModels_inr in Hfind. rewrite map_map in Hfind. simpl in Hfind.
  apply bind_Normal in Hrun as (failed & d3 & t5 & t6 & Hreplace & Hrun & ->).
  apply replaceTasks_outcome in Hreplace. simpl in Hreplace.
  destruct failed as [taskId|].
  - apply ret_Normal in Hrun as (-> & -> & ->).
    destruct Hreplace
      as (before & failing & after & q & Hsplit & Hbefore & Hq & Hnone & -> & Hsteps).
    rewrite Hfind in Hsplit.
    apply map_eq_app in Hsplit as (before' & rest' & Hpre & <- & Hrest).
    apply map_eq_cons in Hrest as (failing' & after' & -> & <- & <-).
    simpl in Hq.
    exists before', failing', after', q.
    split; [done|]. split; [exact Hall|]. split.
    { destruct (getMatchingQRM QRMs failing'.1) as [[q'|]|]; simpl in Hq; congruence. }
    split; [done|]. split; [done|].
    rewrite !stepsOf_app, Hquiet1, Hquiet2, Hsteps. simpl. rewrite app_nil_r.
    clear. induction before' as [|found rest IH]; [done|]. simpl. by rewrite IH.
  - apply bind_Normal in Hrun as (r & d4 & t7 & t8 & _ & Hrun & ->).
    apply ret_Normal in Hrun as (-> & -> & ->).
    split; [done|].
    rewrite Hfind in Hreplace. apply (proj1 (Forall_map _ _ _)) in Hreplace.
    rewrite Forall_forall in Hall, Hreplace. apply Forall_forall. intros found Hin.
    destruct (Hall found Hin) as [q' Hq'].
    destruct (Hreplace found Hin) as (q & el & Hq & Hel).
    simpl in Hq, Hq'. rewrite Hq' in Hq. simpl in Hq. injection Hq as <-.
    by exists q', el.
Qed.

End Pass.

Lemma replaceByFragment_outcomes_witness :
  Fixture.replaced = Normal true (diagramOf Fixture.replaced) (traceOf Fixture.replaced)
  ∧ stepsOf (traceOf Fixture.replaced)
    = splicePlan true Fixture.guarded ++ [AddsInputs Fixture.taskT].
Proof.
  assert (Fixture.replaced
          = Normal true (diagramOf Fixture.replaced) (traceOf Fixture.replaced)) as Hrun
    by vm_cast_no_check (@eq_refl _ Fixture.replaced).
  split; [exact Hrun|].
  pose proof (proj1 (@replaceByFragment_outcomes Fixture.editor Fixture.fragments
                       Fixture.taskT (Some "Process_1") (Some "replacement3")
                       (Fixture.opened [Fixture.taskT]))) as Hfollows.
  change (follows Fixture.replaced
            (splicePlan true Fixture.guarded ++ [AddsInputs Fixture.taskT])) in Hfollows.
  rewrite Hrun in Hfollows. exact Hfollows.
Defined.

Lemma transformation_follows_plan_witness :
  valueOf Fixture.transformed = Some Transformed
  ∧ stepsOf (traceOf Fixture.transformed)
    = @transformationPlan Fixture.fragments [Fixture.Tpl3]
        (Fixture.container "bpmn:Process" "Process_1" [Fixture.taskT]).
Proof.
  assert (valueOf Fixture.transformed = Some Transformed) as Hexit
    by vm_cast_no_check (@eq_refl _ (Some Transformed)).
  split; [exact Hexit|].
  exact (proj1 (@transformation_follows_plan Fixture.editor Fixture.fragments
                  [Fixture.Tpl3] (Fixture.opened [Fixture.taskT])
                  (Fixture.container "bpmn:Process" "Process_1" [Fixture.taskT])
                  eq_refl)
           Hexit).
Defined.

Lemma startReplacementProcess_exits_witness :
  let root := Fixture.container "bpmn:Process" "Process_1" [Fixture.taskT] in
  Fixture.transformed
  = Normal Transformed (diagramOf Fixture.transformed) (traceOf Fixture.transformed)
  ∧ containersPresent root = true
  ∧ preorder root ≠ []
  ∧ Forall (λ found,
              ∃ q el, @getMatchingQRM Fixture.fragments [Fixture.Tpl3] found.1
                      = Some (Some q)
                      ∧ @fragmentOf Fixture.fragments (replacement q) = Some (Some el))
      (preorder root).
Proof.
  intros root.
  assert (Fixture.transformed
          = Normal Transformed (diagramOf Fixture.transformed)
              (traceOf Fixture.transformed)) as Hrun
    by vm_cast_no_check (@eq_refl _ Fixture.transformed).
  split; [exact Hrun|].
  exact (@startReplacementProcess_exits Fixture.editor Fixture.fragments
           [Fixture.Tpl3] (Fixture.opened [Fixture.taskT]) root Transformed
           (diagramOf Fixture.transformed) (traceOf Fixture.transformed) eq_refl Hrun).
Defined.

(** The steps of the transformation of the example. *)
Example transformed_steps :
  stepsOf (traceOf Fixture.transformed)
  = [Replaces "bpmn:SubProcess"; Expands; Updates;
     Creates "bpmn:Task"; Updates; Creates "bpmn:Task"; Updates;
     Creates "bpmn:BoundaryEvent"; Updates; Attaches; Updates;
     Connects "bpmn:SequenceFlow"; Updates;
     AddsInputs Fixture.taskT; LaysOut].
Proof. vm_compute. exact eq_refl. Qed.

End OrchestratorCoverage.

(** ** Boundary events and the identifier map *)
Module AttachmentCoverage.
Import Utilities QuantMEMatcher Host QuantMETransformator Vocabulary Coverage.
Import SplicerProperties.

Section Attachment.
Context `{GraphHost}.

(** X19. Boundary events are inserted after the children that are neither
    sequence flows nor boundary events. So when a call that returns splices
    a fragment with distinct ids that holds a boundary event attached to a
    plain child of the same element, whose id is not [__proto__], the child
    is inserted before the event; a shape is created for the event under
    the element inserted for their parent; the identifier map gives, under
    the id of the child, the id of the element that the call for the child
    returned; and what the registry holds under this id becomes the host
    of the new shape, by its [attachedToRef] property and as its [host].
    The next command hands the editor the properties copied from the event
    for the new shape, the reference to the child of the fragment among
    them. *)
Theorem boundary_event_joins_inserted_host el parent idMap replace oldElement d
    els host event result d' t :
  flowElements el = Some els →
  host ∈ els → event ∈ els →
  plain host →
  type_ event = "bpmn:BoundaryEvent" →
  attachedToRef event = Some (id host) →
  NoDup (fragmentIds el) →
  id host ≠ "__proto__" →
  insertShape el parent idMap replace oldElement d = Normal result d' t →
  attachesToInserted el parent idMap replace oldElement d result t host event.
Proof.
  intros Hels Hhost Hevent (Hh1 & Hh2 & Hh3) Htype Hattached Hnodup HhostId Hrun.
  apply insertShape_returned in Hrun as (d0 & t0 & results & t1 & Hown & Hturn & -> & _).
  rewrite fragmentIds_below in Hnodup. apply NoDup_cons in Hnodup as [_ Hnodup].
  destruct (insertedBelow_boundaryEvent el els event Hels Hevent Htype)
    as (events & after & Hbelow).
  rewrite Hbelow in Hturn, Hnodup.
  assert (host ∈ plainOf els ++ events) as Hhost_before.
  { apply elem_of_app. left. by apply list_elem_of_filter. }
  destruct (insertedInTurn_before _ _ _ _ _ _ _ _ _ _ host Hturn Hnodup
              Hhost_before HhostId)
    as (results1 & idMap1 & d1 & t2 & result2 & d2 & t3 & results2 & t4 & i & newHost
        & Hbefore & Hcall & Hafter & -> & Hi & HnewHost & HhostEntry & HhostKept).
  assert (id event ≠ id host) as Hne.
  { rewrite flat_map_app in Hnodup. apply NoDup_app in Hnodup as (_ & Hfresh & _).
    intros Heq. eapply Hfresh.
    - eapply elem_of_flat_map_fragmentIds; [|apply fragmentIds_own].
      by eapply list_elem_of_lookup_2.
    - simpl. apply elem_of_app. left. rewrite <- Heq. apply fragmentIds_own. }
  apply insertShape_returned in Hcall as (d3 & t5 & rs & t6 & Heventown & _ & -> & _).
  apply insertElement_boundaryEvent in Heventown
    as (ref & d4 & hostElement & attached & d5 & hosted & d6 & updated & Href
        & Hcreate & Hfound & Hattach & Hsethost & Hupdate & ->); [|done].
  rewrite Hattached in Href. injection Href as <-.
  destruct (@getPropertiesToCopy_references Shape event) as (_ & _ & Hpa).
  assert (JsObject.get (id host)
            (JsObject.set (id event) (shapeId (Result.element result2)) idMap1)
          = JsObject.Str (shapeId (Result.element newHost))) as Hkey.
  { rewrite <- HhostEntry. apply get_ext. apply set_other. congruence. }
  rewrite Hkey in Hfound |- *.
  exists d0, t0, (plainOf els ++ events), after, results1, idMap1, d1, t2, i, newHost,
    (Result.element result2), d4, hostElement, attached, d5, hosted, d6, updated, d3,
    (t6 ++ t4).
  simpl.
  repeat (split; [first [done | by apply Hpa | by rewrite <- !app_assoc]|]).
  rewrite <- HhostEntry. by apply get_ext.
Qed.

Lemma fragmentIds_map_below el : fragmentIds el = id el :: map id (below el).
Proof.
  induction el as [el Hkids Harts] using Element_tree_ind.
  destruct el as [type i attributes source target attached shape children arts].
  simpl in *. f_equal. rewrite map_app. f_equal.
  - destruct children as [els|]; simpl in *; [|done].
    induction Hkids as [|child rest Hchild _ IH]; [done|].
    simpl. by rewrite map_app, <- IH, Hchild.
  - destruct arts as [els|]; simpl in *; [|done].
    induction Harts as [|child rest Hchild _ IH]; [done|].
    simpl. by rewrite map_app, <- IH, Hchild.
Qed.

Lemma below_insertedBelow el el' :
  el' ∈ below el ↔ ∃ child, child ∈ insertedBelow el ∧ (el' = child ∨ el' ∈ below child).
Proof.
  assert (∀ els, el' ∈ flat_map (λ child, child :: below child) els ↔
                 ∃ child, child ∈ els ∧ (el' = child ∨ el' ∈ below child)) as Hflat.
  { intros els. rewrite list_elem_of_In, in_flat_map. split.
    - intros (child & Hchild & Hin). exists child.
      rewrite list_elem_of_In. split; [done|].
      apply list_elem_of_In, elem_of_cons in Hin. done.
    - intros (child & Hchild & Hin). exists child.
      rewrite <- !list_elem_of_In. split; [done|]. by apply elem_of_cons. }
  destruct el as [type i attributes source target attached shape children arts].
  unfold insertedBelow. simpl. rewrite elem_of_app. split.
  - intros [Hin|Hin].
    + destruct children as [els|]; [|inversion Hin].
      apply Hflat in Hin as (child & Hchild & Hin). exists child.
      split; [|done]. apply elem_of_app. left. simpl. by rewrite insertionOrder_perm.
    + destruct arts as [els|]; [|inversion Hin].
      apply Hflat in Hin as (child & Hchild & Hin). exists child.
      split; [|done]. apply elem_of_app. by right.
  - intros (child & Hchild & Hin). apply elem_of_app in Hchild as [Hchild|Hchild].
    + destruct children as [els|]; [|inversion Hchild]. simpl in Hchild.
      rewrite insertionOrder_perm in Hchild. left. apply Hflat. by exists child.
    + destruct arts as [els|]; [|inversion Hchild]. simpl in Hchild.
      right. apply Hflat. by exists child.
Qed.

(** What the induction on the tree carries: the identifier map that a call
    returns gives, under the id of the element and of every element below
    it, the id of the element that the call for it returned. *)
Lemma insertShape_returnedFor el :
  ∀ parent idMap replace oldElement d result d' t sub,
    NoDup (fragmentIds el) →
    insertShape el parent idMap replace oldElement d = Normal result d' t →
    sub = el ∨ sub ∈ below el → id sub ≠ "__proto__" →
    ∃ new,
      returnedFor el parent idMap replace oldElement d sub new
      ∧ JsObject.get (id sub) (Result.idMap result)
        = JsObject.Str (shapeId (Result.element new)).
Proof.
  induction el as [el Hkids Harts] using Element_tree_ind.
  intros parent idMap replace oldElement d result d' t sub Hnodup Hrun Hsub Hid.
  pose proof (Forall_insertedBelow _ el Hkids Harts) as Hbelow.
  destruct Hsub as [->|Hsub].
  { exists result. split; [by econstructor | by eapply insertShape_own_entry]. }
  apply below_insertedBelow in Hsub as (child & Hchild & Hsub).
  pose proof Hrun as Hreturned.
  apply insertShape_returned in Hreturned
    as (d0 & t0 & results & t1 & Hown & Hturn & _ & _).
  rewrite fragmentIds_below in Hnodup. apply NoDup_cons in Hnodup as [_ Hnodup].
  rewrite Forall_forall in Hbelow. specialize (Hbelow child Hchild).
  apply list_elem_of_split in Hchild as (before & after & Hsplit).
  rewrite Hsplit in Hturn, Hnodup.
  apply insertedInTurn_at in Hturn
    as (results1 & idMap1 & d1 & t2 & result2 & d2 & t3 & results2 & t4
        & Hbefore & Hcall & Hafter & _ & _).
  rewrite flat_map_app in Hnodup. apply NoDup_app in Hnodup as (_ & _ & Hnodup).
  simpl in Hnodup. apply NoDup_app in Hnodup as (Hnodup_child & Hfresh & _).
  destruct (Hbelow _ _ _ _ _ _ _ _ sub Hnodup_child Hcall Hsub Hid)
    as (new & Hnew & Hentry).
  exists new. split; [by eapply returned_below|].
  rewrite <- Hentry. apply get_ext.
  apply insertedInTurn_records in Hafter as [Hkeep _]. apply Hkeep, Hfresh.
  rewrite fragmentIds_map_below. destruct Hsub as [->|Hsub]; [left|].
  right. apply list_elem_of_fmap. by exists sub.
Qed.

(** X20. With distinct ids in the fragment, the identifier map that a
    splice returns is a record of what was inserted: under the id of the
    fragment and of every element below it, at any depth, a read gives the
    id of the element that the call of [insertShape] for this very element
    returned, unless the id is [__proto__], under which nothing is stored;
    the own properties under names that are no id of the fragment are those
    of the map that the splice was given. *)
Theorem identifier_map_records_inserted el parent idMap replace oldElement d result d' t :
  NoDup (fragmentIds el) →
  insertShape el parent idMap replace oldElement d = Normal result d' t →
  (∀ sub, sub = el ∨ sub ∈ below el → id sub ≠ "__proto__" →
     ∃ new,
       returnedFor el parent idMap replace oldElement d sub new
       ∧ JsObject.get (id sub) (Result.idMap result)
         = JsObject.Str (shapeId (Result.element new)))
  ∧ returnedFor el parent idMap replace oldElement d el result
  ∧ Result.idMap result !! "__proto__" = idMap !! "__proto__"
  ∧ (∀ key, key ∉ fragmentIds el → Result.idMap result !! key = idMap !! key)
  ∧ fragmentIds el = id el :: map id (below el).
Proof.
  intros Hnodup Hrun.
  split; [intros sub; by eapply insertShape_returnedFor|].
  split; [by econstructor|].
  destruct (insertShape_sound _ _ _ _ _ _ _ _ _ Hrun) as (_ & Hkeep & _ & Hproto).
  split; [done|]. split; [done | apply fragmentIds_map_below].
Qed.

End Attachment.

Lemma identifier_map_records_inserted_witness :
  let result := default Fixture.noResult (@valueOf Fixture.editor _ Fixture.spliceGuarded) in
  (∀ sub, sub = Fixture.guarded ∨ sub ∈ below Fixture.guarded → id sub ≠ "__proto__" →
     ∃ new,
       @returnedFor Fixture.editor Fixture.guarded (Some "Process_1") ∅ false None
         (Fixture.opened []) sub new
       ∧ JsObject.get (id sub) (Result.idMap result)
         = JsObject.Str (@shapeId Fixture.editor (Result.element new)))
  ∧ @returnedFor Fixture.editor Fixture.guarded (Some "Process_1") ∅ false None
      (Fixture.opened []) Fixture.guarded result
  ∧ Result.idMap result !! "__proto__" = (∅ : gmap string string) !! "__proto__"
  ∧ (∀ key, key ∉ fragmentIds Fixture.guarded →
       Result.idMap result !! key = (∅ : gmap string string) !! key)
  ∧ fragmentIds Fixture.guarded = id Fixture.guarded :: map id (below Fixture.guarded).
Proof.
  intros result.
  assert (Fixture.spliceGuarded
          = Normal result (diagramOf Fixture.spliceGuarded)
              (traceOf Fixture.spliceGuarded)) as Hrun
    by vm_cast_no_check (@eq_refl _ Fixture.spliceGuarded).
  apply (@identifier_map_records_inserted Fixture.editor Fixture.guarded
           (Some "Process_1") ∅ false None (Fixture.opened []) result
           (diagramOf Fixture.spliceGuarded) (traceOf Fixture.spliceGuarded)).
  - decided.
  - exact Hrun.
Defined.

Lemma boundary_event_joins_inserted_host_witness :
  let result := default Fixture.noResult (@valueOf Fixture.editor _ Fixture.spliceGuarded) in
  Fixture.spliceGuarded
  = Normal result (diagramOf Fixture.spliceGuarded) (traceOf Fixture.spliceGuarded)
  ∧ @attachesToInserted Fixture.editor Fixture.guarded (Some "Process_1") ∅ false None
      (Fixture.opened []) result (traceOf Fixture.spliceGuarded)
      Fixture.taskA Fixture.boundaryEvent.
Proof.
  intros result.
  assert (Fixture.spliceGuarded
          = Normal result (diagramOf Fixture.spliceGuarded)
              (traceOf Fixture.spliceGuarded)) as Hrun
    by vm_cast_no_check (@eq_refl _ Fixture.spliceGuarded).
  split; [exact Hrun|].
  apply (@boundary_event_joins_inserted_host Fixture.editor Fixture.guarded
           (Some "Process_1") ∅ false None (Fixture.opened [])
           [Fixture.flowAB; Fixture.boundaryEvent; Fixture.taskA; Fixture.taskB]
           Fixture.taskA Fixture.boundaryEvent result (diagramOf Fixture.spliceGuarded)
           (traceOf Fixture.spliceGuarded)).
  - reflexivity.
  - repeat constructor.
  - repeat constructor.
  - repeat split; discriminate.
  - reflexivity.
  - reflexivity.
  - decided.
  - discriminate.
  - exact Hrun.
Defined.

(** The splice of the example in the small editor: the event is bound to
    the shape created for the first task. *)
Example spliceGuarded_attaches :
  Performed (SetHost "Element_3" "Element_1") None ∈ traceOf Fixture.spliceGuarded
  ∧ Result.idMap (default Fixture.noResult (@valueOf Fixture.editor _ Fixture.spliceGuarded))
      !! "Task_A" = Some "Element_1".
Proof.
  split.
  - apply list_elem_of_In. vm_compute. tauto.
  - vm_compute. exact eq_refl.
Qed.

End AttachmentCoverage.
